(** * coname: VRF over edwards25519, Raft log storage, preserved encodings

    A shallow embedding of the Go sources

      - [vrf/vrf_ed25519/vrf_ed25519.go]          (module [VRF])
      - [server/replication/raftlog/raftlog.go]   (module [Raftlog])
      - [proto/SignedEntryUpdate.pr.go]           (module [Proto])
      - the keyserver's [UpdateProfile] handler   (module [Server])

    Go values are modelled as the code has them: [[]byte] is [list byte],
    [uint64] and [*big.Int] are [Z] (the former with its wrap-around written
    out), a function returning [(T, error)] or able to panic lives in the
    monad [go].  Part I holds the code, Part II and Part III what is proved
    about it. *)

From Stdlib Require Import ZArith List Lia Strings.Byte String Zmod.
From stdpp Require Import gmap sorting list.

Local Open Scope Z_scope.

(** * Part I: the code *)

(** ** Go results: a value, a returned [error], a panic, or no return *)

Inductive go (E A : Type) : Type :=
| Ok (a : A)
| Err (e : E)
| Panic (msg : string)
| Loops.                (* the call never returns *)
Arguments Ok {E A} a.
Arguments Err {E A} e.
Arguments Panic {E A} msg.
Arguments Loops {E A}.

Definition go_bind {E A B} (m : go E A) (k : A → go E B) : go E B :=
  match m with
  | Ok a => k a
  | Err e => Err e
  | Panic msg => Panic msg
  | Loops => Loops
  end.

Notation "'let*' x ':=' m 'in' k" := (go_bind m (fun x => k))
  (at level 10, x pattern, m at level 200, k at level 200, only parsing).

(** ** Bytes and integers *)

Module Bytes.

#[global] Instance byte_eq_dec : EqDecision byte := Byte.byte_eq_dec.
#[global] Instance byte_countable : Countable byte :=
  inj_countable Byte.to_N Byte.of_N Byte.of_to_N.

Definition byte_to_Z (b : byte) : Z := Z.of_N (Byte.to_N b).

(** Conversion [byte(z)] of an integer: the low eight bits. *)
Definition byte_of_Z (z : Z) : byte :=
  match Byte.of_N (Z.to_N (z mod 256)) with
  | Some b => b
  | None => x00
  end.

Definition byte_and (b : byte) (m : Z) : byte := byte_of_Z (Z.land (byte_to_Z b) m).
Definition byte_or (b : byte) (m : Z) : byte := byte_of_Z (Z.lor (byte_to_Z b) m).
Definition byte_shr (b : byte) (n : Z) : byte := byte_of_Z (Z.shiftr (byte_to_Z b) n).
Definition byte_shl (b : byte) (n : Z) : byte := byte_of_Z (Z.shiftl (byte_to_Z b) n).
Definition byte_add (b : byte) (n : Z) : byte := byte_of_Z (byte_to_Z b + n).
Definition byte_sub (b : byte) (n : Z) : byte := byte_of_Z (byte_to_Z b - n).

(** [make([]byte, n)] *)
Definition zeros (n : nat) : list byte := repeat x00 n.

(** [var buf [n]byte; copy(buf[:], src)]: the first [n] bytes of [src],
    zero-filled when [src] is shorter. *)
Definition copy_into (n : nat) (src : list byte) : list byte :=
  take n src ++ zeros (n - length src).

(** [s[i]] with Go's bounds check. *)
Definition index {E} (s : list byte) (i : nat) : go E byte :=
  match s !! i with
  | Some b => Ok b
  | None => Panic "index out of range"
  end.

(** [s[lo:hi]] with Go's bounds check (the capacity of a slice is taken to be
    its length). *)
Definition slice {E} (s : list byte) (lo hi : nat) : go E (list byte) :=
  if decide (lo ≤ hi ∧ hi ≤ length s)%nat
  then Ok (take (hi - lo) (drop lo s))
  else Panic "slice bounds out of range".

(** [new(big.Int).SetBytes(os)]: the big-endian unsigned value of [os]. *)
Definition SetBytes (os : list byte) : Z :=
  fold_left (fun acc b => acc * 256 + byte_to_Z b) os 0.

(** The little-endian digits of [z], least significant first, without
    trailing zeros; [fuel] bounds the number of digits. *)
Fixpoint le_digits (fuel : nat) (z : Z) : list byte :=
  match fuel with
  | O => []
  | S fuel' => if z =? 0 then [] else byte_of_Z z :: le_digits fuel' (z / 256)
  end.

(** [b.Bytes()]: the absolute value of [b] as a big-endian byte slice with no
    leading zero. *)
Definition big_Bytes (b : Z) : list byte :=
  rev (le_digits (Z.to_nat (Z.log2 (Z.abs b)) + 1) (Z.abs b)).

(** [binary.BigEndian.PutUint64]: eight bytes, most significant first. *)
Definition PutUint64 (v : Z) : list byte :=
  map (fun i => byte_of_Z (Z.shiftr v (8 * i))) [7; 6; 5; 4; 3; 2; 1; 0].

(** [binary.BigEndian.Uint64(b)]; reads the first eight bytes. *)
Definition Uint64 {E} (b : list byte) : go E Z :=
  if decide (8 ≤ length b)%nat then Ok (SetBytes (take 8 b))
  else Panic "index out of range".

End Bytes.
Import Bytes.

(** ** vrf/vrf_ed25519/vrf_ed25519.go *)

Module VRF.

Inductive error : Type :=
| ErrMalformedInput   (* "ECVRF: malformed input" *)
| ErrDecodeError      (* "ECVRF: decode error" *)
| ErrInternalError    (* "ECVRF: internal error" *)
| ErrUnexpectedEOF.   (* io.ReadFull on an exhausted entropy source *)

Definition limit : Z := 10000.
Definition N2 : nat := 32.
Definition N : nat := 16.
(** [qs], read in base 16: 2^252 + 27742317777372353535851937790883648493. *)
Definition q : Z := 0x1000000000000000000000000000000014def9dea2f79cd65812631a5cf5d3ed.

(** [edwards25519.FieldElement] is [[10]int32]; the group-element forms are
    the package's structs of field elements. *)
Definition FieldElement : Type := list Z.

Record ExtendedGroupElement : Type :=
  { geX : FieldElement; geY : FieldElement; geZ : FieldElement; geT : FieldElement }.
Record ProjectiveGroupElement : Type :=
  { pgX : FieldElement; pgY : FieldElement; pgZ : FieldElement }.
Record CompletedGroupElement : Type :=
  { cgX : FieldElement; cgY : FieldElement; cgZ : FieldElement; cgT : FieldElement }.
Record CachedGroupElement : Type :=
  { yPlusX : FieldElement; yMinusX : FieldElement; cachedZ : FieldElement; T2d : FieldElement }.

(** d2 is 2*d. *)
Definition d2 : FieldElement :=
  [-21827239; -5839606; -30745221; 13898782; 229458;
   15978800; -12551817; -6495438; 29715968; 9444199].

(** The operations the file takes from its libraries.  [FromBytes] fills a
    fresh receiver and reports success; the Go code ignores the flag in
    [GeScalarMult], so the receiver is returned in both cases. *)
Class Library : Type := {
  (* crypto/sha256, crypto/sha512 *)
  sha256_Sum : list byte → list byte;
  sha512_Sum512 : list byte → list byte;
  (* edwards25519 *)
  FeAdd : FieldElement → FieldElement → FieldElement;
  FeSub : FieldElement → FieldElement → FieldElement;
  FeMul : FieldElement → FieldElement → FieldElement;
  FeCopy : FieldElement → FieldElement;
  FeOne : FieldElement;
  FeToBytes : FieldElement → list byte;
  FromBytes : list byte → ExtendedGroupElement * bool;
  ToBytes : ExtendedGroupElement → list byte;
  ProjToBytes : ProjectiveGroupElement → list byte;
  ToExtended : CompletedGroupElement → ExtendedGroupElement;
  GeDoubleScalarMultVartime :
    list byte → ExtendedGroupElement → list byte → ProjectiveGroupElement;
  GeScalarMultBase : list byte → ExtendedGroupElement;
}.

Section Code.
Context {L : Library}.

(** [io.ReadFull(rand, buf[:n])] on an entropy source that still holds the
    bytes [rand]. *)
Definition ReadFull (rand : list byte) (n : nat) : go error (list byte) :=
  if decide (n ≤ length rand)%nat then Ok (take n rand) else Err ErrUnexpectedEOF.

(** The clamping shared by [expandSecret] and [ed25519.GenerateKey]:
    [digest[0] &= 248; digest[31] &= 127; digest[31] |= 64]. *)
Definition clamp (digest : list byte) : list byte :=
  alter (fun b => byte_or b 64) 31%nat
    (alter (fun b => byte_and b 127) 31%nat
      (alter (fun b => byte_and b 248) 0%nat digest)).

Definition expandSecret (sk : list byte) : go error (list byte) :=
  let* seed := slice sk 0 32 in
  let digest := clamp (sha512_Sum512 seed) in
  Ok (copy_into 32 digest).

(** [golang.org/x/crypto/ed25519.GenerateKey(rand)], returning
    [(publicKey, privateKey)]; it computes with the edwards25519 package
    that the repository copies. *)
Definition GenerateKey (rand : list byte) : go error (list byte * list byte) :=
  let* seed := ReadFull rand 32 in
  let digest := clamp (sha512_Sum512 seed) in
  let hBytes := copy_into 32 digest in
  let A := GeScalarMultBase hBytes in
  let publicKeyBytes := copy_into 32 (ToBytes A) in
  Ok (publicKeyBytes, seed ++ publicKeyBytes).

Definition OS2IP (os : list byte) : Z := SetBytes os.

Definition I2OSP (b : Z) (n : nat) : list byte :=
  let os := big_Bytes b in
  if decide (length os < n)%nat   (* n > len(os) *)
  then zeros (n - length os) ++ os   (* prepend 0s *)
  else take n os.

(** convert a field number (in LittleEndian) to a big int *)
Definition F2IP (f : list byte) : Z := OS2IP (rev (copy_into 32 f)).

Definition IP2F (b : Z) : list byte := copy_into 32 (rev (big_Bytes b)).

(** just prepend the sign octet *)
Definition S2OS (s : list byte) : go error (list byte) :=
  let* b31 := index s 31 in
  let sign := byte_shr b31 7 in
  Ok (byte_add sign 2 :: s).

Definition ECP2OS (P : ExtendedGroupElement) : go error (list byte) :=
  S2OS (copy_into 32 (ToBytes P)).

Definition ECP2OSProj (P : ProjectiveGroupElement) : go error (list byte) :=
  S2OS (copy_into 32 (ProjToBytes P)).

Definition GeScalarMult (h : ExtendedGroupElement) (a : list byte) : ExtendedGroupElement :=
  let pg := GeDoubleScalarMultVartime a h (zeros 32) in   (* h^a * g^0 *)
  let t := copy_into 32 (ProjToBytes pg) in
  fst (FromBytes t).

Definition G : ExtendedGroupElement :=
  let f := FeOne in
  let s := copy_into 32 (FeToBytes f) in
  GeScalarMultBase s.   (* g = g^1 *)

Definition ToCached (p : ExtendedGroupElement) : CachedGroupElement :=
  {| yPlusX := FeAdd (geY p) (geX p);
     yMinusX := FeSub (geY p) (geX p);
     cachedZ := FeCopy (geZ p);
     T2d := FeMul (geT p) d2 |}.

Definition GeAdd (p qe : ExtendedGroupElement) : ExtendedGroupElement :=
  let q := ToCached qe in
  let rX := FeAdd (geY p) (geX p) in
  let rY := FeSub (geY p) (geX p) in
  let rZ := FeMul rX (yPlusX q) in
  let rY := FeMul rY (yMinusX q) in
  let rT := FeMul (T2d q) (geT p) in
  let rX := FeMul (geZ p) (cachedZ q) in
  let t0 := FeAdd rX rX in
  let rX := FeSub rZ rY in
  let rY := FeAdd rZ rY in
  let rZ := FeAdd t0 rT in
  let rT := FeSub t0 rT in
  ToExtended {| cgX := rX; cgY := rY; cgZ := rZ; cgT := rT |}.

(** The encoding of the neutral element, [[32]byte{1}]. *)
Definition one32 : list byte := x01 :: zeros 31.

(** A nil result is [None]. *)
Definition OS2ECP (os : list byte) (sign : byte) : option ExtendedGroupElement :=
  let buf := copy_into 32 os in
  let buf := alter (fun b => byte_of_Z (Z.lor (byte_to_Z (byte_shl sign 7))
                                             (byte_to_Z (byte_and b 0x7f)))) 31%nat buf in
  let '(P, ok) := FromBytes buf in
  if negb ok then None
  else
    let inf := GeScalarMult P (IP2F q) in
    let t := copy_into 32 (ToBytes inf) in
    if decide (t ≠ one32) then None else Some P.

Definition ECVRF_hash_points (ps : list (list byte)) : Z :=
  let v := sha256_Sum (concat ps) in
  OS2IP (take N v).

(** The body of the loop of [ECVRF_hash_to_curve], started at counter [i]
    with [n] iterations left. *)
Fixpoint hash_to_curve_loop (n : nat) (i : Z) (m pk : list byte)
  : go error ExtendedGroupElement :=
  match n with
  | O => Panic "ECVRF_hash_to_curve: couldn't make a point on curve"
  | S n' =>
      let ctr := I2OSP i 4 in
      let h := sha256_Sum (m ++ pk ++ ctr) in
      match OS2ECP h x00 with
      | Some P => Ok P
      | None =>
          match OS2ECP h x01 with
          | Some P => Ok P
          | None => hash_to_curve_loop n' (i + 1) m pk
          end
      end
  end.

Definition ECVRF_hash_to_curve (m pk : list byte) : go error ExtendedGroupElement :=
  hash_to_curve_loop (Z.to_nat limit) 0 m pk.

(** assume <pk, sk> were generated by ed25519.GenerateKey(); [rand] is what
    the system's entropy source delivers to [ed25519.GenerateKey(nil)]. *)
Definition ECVRF_prove (rand : list byte) (pk sk m : list byte) : go error (list byte) :=
  let* x := expandSecret sk in
  let* h := ECVRF_hash_to_curve m pk in
  let* r := ECP2OS (GeScalarMult h x) in
  let* (kp, ks) := GenerateKey rand in
  let* k := expandSecret ks in
  (* ECVRF_hash_points(g, h, g^x, h^x, g^k, h^k) *)
  let* og := ECP2OS G in
  let* oh := ECP2OS h in
  let* opk := S2OS pk in
  let* okp := S2OS kp in
  let* ohk := ECP2OS (GeScalarMult h k) in
  let c := ECVRF_hash_points [og; oh; opk; r; okp; ohk] in
  (* s = k - c*x mod q *)
  let s := (F2IP k - c * F2IP x) mod q in
  (* pi = gamma || I2OSP(c, N) || I2OSP(s, 2N) *)
  Ok (r ++ I2OSP c N ++ I2OSP s N2).

Definition ECVRF_proof2hash (pi : list byte) : go error (list byte) :=
  slice pi 1 (N2 + 1).

Definition ECVRF_decode_proof (pi : list byte)
  : go error (ExtendedGroupElement * list byte * list byte) :=
  let* sign := index pi 0 in
  if decide (sign ≠ x02 ∧ sign ≠ x03) then Err ErrDecodeError
  else
    let* os := slice pi 1 (1 + N2) in
    match OS2ECP os (byte_sub sign 2) with
    | None => Err ErrDecodeError
    | Some r =>
        (* swap and expand to make it a field *)
        let* cbe := slice pi (1 + N2) (1 + N2 + N) in
        let c := copy_into 32 (rev cbe) in
        (* swap to make it a field *)
        let* sbe := slice pi (1 + N2 + N) (1 + N2 + N + N2) in
        let s := rev sbe in
        Ok (r, c, s)
    end.

Definition ECVRF_verify (pk pi m : list byte) : go error bool :=
  let* (r, c, s) := ECVRF_decode_proof pi in
  (* u = (g^x)^c * g^s = P^c * g^s *)
  let* pk31 := index pk 31 in
  match OS2ECP pk (byte_shr pk31 7) with
  | None => Err ErrMalformedInput
  | Some P =>
      let u := GeDoubleScalarMultVartime c P s in
      let* h := ECVRF_hash_to_curve m pk in
      (* v = gamma^c * h^s *)
      let v := GeAdd (GeScalarMult r c) (GeScalarMult h s) in
      (* c' = ECVRF_hash_points(g, h, g^x, gamma, u, v) *)
      let* og := ECP2OS G in
      let* oh := ECP2OS h in
      let* opk := S2OS pk in
      let* or := ECP2OS r in
      let* ou := ECP2OSProj u in
      let* ov := ECP2OS v in
      let c2 := ECVRF_hash_points [og; oh; opk; or; ou; ov] in
      Ok (c2 =? F2IP c)
  end.

End Code.
End VRF.

(** ** server/replication/raftlog/raftlog.go *)

Module Raftlog.

Inductive error : Type :=
| ErrNotFound                 (* db.ErrNotFound() *)
| ErrIO (msg : string)        (* a failure of the underlying store *)
| ErrCodec (msg : string).    (* a Marshal or Unmarshal error of raftpb *)

#[global] Instance error_eq_dec : EqDecision error.
Proof. solve_decision. Defined.

Definition wrap64 (z : Z) : Z := z mod 2 ^ 64.
Definition MaxUint64 : Z := 2 ^ 64 - 1.

(** *** The key-value store *)

(** [bytes.Compare(a, b) <= 0]: the order of the store's keys. *)
Fixpoint bytes_leb (a b : list byte) : bool :=
  match a, b with
  | [], _ => true
  | _ :: _, [] => false
  | x :: a', y :: b' =>
      if byte_to_Z x <? byte_to_Z y then true
      else if byte_to_Z x =? byte_to_Z y then bytes_leb a' b'
      else false
  end.

Fixpoint has_prefix (p k : list byte) : bool :=
  match p, k with
  | [], _ => true
  | _ :: _, [] => false
  | x :: p', y :: k' => if decide (x = y) then has_prefix p' k' else false
  end.

Inductive op : Type :=
| Put (k v : list byte)
| Delete (k : list byte).

(** Modelled from the spec: the package [server/kv] (the interface [kv.DB]
    and its LevelDB wrapper) is not among the sources; the spec (4.5) asks
    for an ordered key-value store with [Get], [Put], prefix and range
    iteration and atomic write batches.  A store is a finite map with the
    keys in byte order; a read or a write can fail as a whole with an error
    of the underlying engine, and a failed write changes nothing. *)
Record DB : Type := {
  store : gmap (list byte) (list byte);
  readFault : option error;
  writeFault : option error;
}.

Definition Get (db : DB) (k : list byte) : go error (list byte) :=
  match readFault db with
  | Some e => Err e
  | None =>
      match store db !! k with
      | Some v => Ok v
      | None => Err ErrNotFound
      end
  end.

Definition apply_op (m : gmap (list byte) (list byte)) (o : op) :=
  match o with
  | Put k v => <[k := v]> m
  | Delete k => delete k m
  end.

(** [db.Write(wb)]: all operations of the batch, in order, or none. *)
Definition Write (db : DB) (wb : list op) : option error * DB :=
  match writeFault db with
  | Some e => (Some e, db)
  | None =>
      (None, {| store := fold_left apply_op wb (store db);
                readFault := readFault db; writeFault := writeFault db |})
  end.

Definition item_le (x y : list byte * list byte) : Prop :=
  bytes_leb (fst x) (fst y) = true.

#[global] Instance item_le_dec x y : Decision (item_le x y).
Proof. unfold item_le. apply _. Defined.

(** [db.NewIterator(r)]: the items whose key satisfies [r], in key order,
    and the iterator's [Error()]. *)
Definition NewIterator (db : DB) (r : list byte → bool)
  : list (list byte * list byte) * option error :=
  match readFault db with
  | Some e => ([], Some e)
  | None =>
      (merge_sort item_le (filter (fun kv => r (fst kv) = true) (map_to_list (store db))),
       None)
  end.

(** [&kv.Range{start, limit}]: [start <= k < limit]. *)
Definition Range (start limit k : list byte) : bool :=
  bytes_leb start k && negb (bytes_leb limit k).

(** [kv.BytesPrefix(p)] *)
Definition BytesPrefix (p k : list byte) : bool := has_prefix p k.

(** *** raftpb *)

Record Entry : Type := {
  Type_ : Z;            (* EntryType *)
  Term : Z;             (* uint64 *)
  Index : Z;            (* uint64 *)
  Data : list byte;
}.

Record HardState : Type := { hsTerm : Z; hsVote : Z; hsCommit : Z }.
Record ConfState : Type := { Nodes : list Z }.

(** [raftpb.Entry{}], the element of [make([]raftpb.Entry, 1)]. *)
Definition zeroEntry : Entry := {| Type_ := 0; Term := 0; Index := 0; Data := [] |}.
Definition zeroHardState : HardState := {| hsTerm := 0; hsVote := 0; hsCommit := 0 |}.
Definition zeroConfState : ConfState := {| Nodes := [] |}.

(** What a call of the codec returns: a value or an [error]. *)
Inductive result (A : Type) : Type :=
| Done (a : A)
| Failed (e : error).
Arguments Done {A} a.
Arguments Failed {A} e.

Definition lift {A} (r : result A) : go error A :=
  match r with
  | Done a => Ok a
  | Failed e => Err e
  end.

(** The generated code of [github.com/coreos/etcd/raft/raftpb]. [Unmarshal]
    fills its receiver, which for [ConfState] is not always fresh;
    [Entry_Size] is [entry.Size()], an [int]. *)
Class RaftPB : Type := {
  Entry_Marshal : Entry → result (list byte);
  Entry_Unmarshal : list byte → result Entry;
  Entry_Size : Entry → Z;
  HardState_Marshal : HardState → result (list byte);
  HardState_Unmarshal : list byte → result HardState;
  ConfState_Unmarshal : ConfState → list byte → result ConfState;
}.

(** *** raftStorage *)

Definition HARDSTATE_KEY : list byte := list_byte_of_string "HS".
Definition CONFSTATE_KEY : list byte := list_byte_of_string "CS".
Definition ENTRY_KEY_PREFIX : list byte := list_byte_of_string "E".

(** The fields of [raftStorage] other than the handle [db], which is passed
    along explicitly. *)
Record raftStorage : Type := {
  hardStateKey : list byte;
  confStateKey : list byte;
  entryKeyPrefix : list byte;
  initialConf : ConfState;
}.

Definition openRaftStorage (prefix : list byte) (initialConf : ConfState) : raftStorage :=
  {| hardStateKey := prefix ++ HARDSTATE_KEY;
     confStateKey := prefix ++ CONFSTATE_KEY;
     entryKeyPrefix := prefix ++ ENTRY_KEY_PREFIX;
     initialConf := initialConf |}.

Section Storage.
Context {PB : RaftPB}.

(** Returns whether an existing state has been persisted to the storage *)
Definition IsInitialized (s : raftStorage) (db : DB) : go error bool :=
  match Get db (hardStateKey s) with
  | Err ErrNotFound => Ok false
  | Ok _ => Ok true
  | Err e => Err e
  | Panic msg => Panic msg
  | Loops => Loops
  end.

(** The results [(hardState, confState, err)]; on an error the first two are
    dropped here, as every caller drops them.  With [ErrNotFound], [Get]
    hands back no bytes. *)
Definition InitialState (s : raftStorage) (db : DB) : go error (HardState * ConfState) :=
  (* Restore the confState if we can, otherwise use s.initialConf *)
  let* (confState, confStateBytes) :=
    match Get db (confStateKey s) with
    | Err ErrNotFound => Ok (initialConf s, [])
    | Ok b => Ok (zeroConfState, b)
    | Err e => Err e
    | Panic msg => Panic msg
    | Loops => Loops
    end in
  let* confState := lift (ConfState_Unmarshal confState confStateBytes) in
  match Get db (hardStateKey s) with
  | Err ErrNotFound => Ok (zeroHardState, confState)
  | Ok hardStateBytes =>
      let* hardState := lift (HardState_Unmarshal hardStateBytes) in
      Ok (hardState, confState)
  | Err e => Err e
  | Panic msg => Panic msg
  | Loops => Loops
  end.

Definition getEntryKey (s : raftStorage) (nr : Z) : list byte :=
  entryKeyPrefix s ++ PutUint64 nr.

(** The loop of [Entries] over the items the iterator still has to give.
    The second component is [Some err] when [Unmarshal] made the function
    return early. *)
Fixpoint Entries_loop (items : list (list byte * list byte)) (entries : list Entry)
    (sizeSoFar maxSize : Z) : list Entry * option error :=
  match items with
  | [] => (entries, None)
  | (_, v) :: items' =>
      match Entry_Unmarshal v with
      | Done entry =>
          let sizeSoFar := wrap64 (sizeSoFar + Entry_Size entry) in
          (* Only stop if we already have at least one entry *)
          if (maxSize <? sizeSoFar) && (0 <? Z.of_nat (length entries)) then (entries, None)
          else
            let entries := entries ++ [entry] in
            if maxSize <=? sizeSoFar then (entries, None)
            else Entries_loop items' entries sizeSoFar maxSize
      | Failed err => (entries, Some err)
      end
  end.

(** Entries implements the raft.Storage interface; the results are
    [(entries, err)]. *)
Definition Entries (s : raftStorage) (db : DB) (lo hi maxSize : Z)
  : list Entry * option error :=
  let '(items, itError) := NewIterator db (Range (getEntryKey s lo) (getEntryKey s hi)) in
  match Entries_loop items [] 0 maxSize with
  | (entries, Some err) => (entries, Some err)
  | (entries, None) => (entries, itError)
  end.

(** LastIndex implements the raft.Storage interface *)
Definition LastIndex (s : raftStorage) (db : DB) : go error Z :=
  let '(items, itError) := NewIterator db (BytesPrefix (entryKeyPrefix s)) in
  match last items with
  | None =>
      match itError with
      | Some e => Err e
      | None => Ok 0
      end
  | Some (k, _) =>
      let indexPortion := drop (length (entryKeyPrefix s)) k in
      let* ix := Uint64 indexPortion in
      match itError with
      | Some e => Err e
      | None => Ok ix
      end
  end.

(** FirstIndex implements the raft.Storage interface *)
Definition FirstIndex (s : raftStorage) (db : DB) : go error Z := Ok 1.

(** [for ix := first; ix <= lastIndex; ix++ { wb.Delete(s.getEntryKey(ix)) }]
    on [uint64]s.  [None] when the fuel runs out. *)
Fixpoint clear_loop (s : raftStorage) (fuel : nat) (ix lastIndex : Z) (wb : list op)
  : option (list op) :=
  if ix <=? lastIndex then
    match fuel with
    | O => None
    | S fuel' =>
        clear_loop s fuel' (wrap64 (ix + 1)) lastIndex (wb ++ [Delete (getEntryKey s ix)])
    end
  else Some wb.

(** [for _, entry := range entries { ... wb.Put(...) }] *)
Fixpoint append_loop (s : raftStorage) (entries : list Entry) (wb : list op)
  : go error (list op) :=
  match entries with
  | [] => Ok wb
  | entry :: entries' =>
      let* entryBytes := lift (Entry_Marshal entry) in
      append_loop s entries' (wb ++ [Put (getEntryKey s (Index entry)) entryBytes])
  end.

(** Don't call this multiple times concurrently.  The result is the
    returned [error] ([Ok tt] for nil) and the store afterwards.  The loop
    that clears old entries gets the number of iterations after which it
    has either ended or come back to where it started. *)
Definition save (s : raftStorage) (db : DB) (state : HardState) (entries : list Entry)
  : go error unit * DB :=
  let wb := [] in
  match HardState_Marshal state with
  | Done stateBytes =>
      let wb := wb ++ [Put (hardStateKey s) stateBytes] in
      let filled : go error (list op) :=
        match entries with
        | [] => Ok wb
        | entry0 :: _ =>
            let* lastIndex := LastIndex s db in
            if wrap64 (lastIndex + 1) <? Index entry0 then
              Panic "missing log entries"
            else
              (* clear all old entries past the new index, if any *)
              match clear_loop s (Z.to_nat (lastIndex - Index entry0 + 1))
                               (Index entry0) lastIndex wb with
              | None => Loops
              | Some wb =>
                  (* append the new entries *)
                  append_loop s entries wb
              end
        end in
      match filled with
      | Ok wb =>
          match Write db wb with
          | (Some err, db') => (Err err, db')
          | (None, db') => (Ok tt, db')
          end
      | Err e => (Err e, db)
      | Panic msg => (Panic msg, db)
      | Loops => (Loops, db)
      end
  | Failed e => (Err e, db)
  end.

(** *** raftLog.Start *)

Record Peer : Type := { peerID : Z }.

(** The fields of [raft.Config] the code touches or the tests set. *)
Record Config : Type := {
  ID : Z;
  ElectionTick : Z;
  HeartbeatTick : Z;
  Storage : option raftStorage;
  Applied : Z;
  MaxSizePerMsg : Z;
  MaxInflightMsgs : Z;
}.

(** A [raft.Node], known by the call of the raft package that made it. *)
Inductive Node : Type :=
| StartNode (c : Config) (peers : list Peer)
| RestartNode (c : Config).

Record raftLog : Type := {
  config : Config;
  initialNodes : list Peer;
  storage : raftStorage;
  node : option Node;
  serving : bool;      (* go l.grpcServer.Serve(l.grpcListen) was started *)
  running : bool;      (* go l.run() was started *)
}.

Definition set_Storage (c : Config) (st : raftStorage) : Config :=
  {| ID := ID c; ElectionTick := ElectionTick c; HeartbeatTick := HeartbeatTick c;
     Storage := Some st; Applied := Applied c;
     MaxSizePerMsg := MaxSizePerMsg c; MaxInflightMsgs := MaxInflightMsgs c |}.

Definition set_Applied (c : Config) (lo : Z) : Config :=
  {| ID := ID c; ElectionTick := ElectionTick c; HeartbeatTick := HeartbeatTick c;
     Storage := Storage c; Applied := lo;
     MaxSizePerMsg := MaxSizePerMsg c; MaxInflightMsgs := MaxInflightMsgs c |}.

Definition set_config (l : raftLog) (c : Config) : raftLog :=
  {| config := c; initialNodes := initialNodes l; storage := storage l;
     node := node l; serving := serving l; running := running l |}.

Definition started (l : raftLog) (n : Node) : raftLog :=
  {| config := config l; initialNodes := initialNodes l; storage := storage l;
     node := Some n; serving := true; running := true |}.

(** Start implements replication.LogReplicator: the returned [error], the
    replicator and the store afterwards. *)
Definition Start (l : raftLog) (db : DB) (lo : Z) : go error unit * raftLog * DB :=
  let l := set_config l (set_Storage (config l) (storage l)) in
  match IsInitialized (storage l) db with
  | Ok inited =>
      if inited then
        let l := set_config l (set_Applied (config l) lo) in
        (Ok tt, started l (RestartNode (config l)), db)
      else if negb (lo =? 0) then
        (Panic "storage uninitialized but state machine not fresh", l, db)
      else
        (* Add a dummy first entry *)
        match InitialState (storage l) db with
        | Ok (hardState, _) =>
            match save (storage l) db hardState [zeroEntry] with
            | (Panic msg, db') => (Panic msg, l, db')
            | (Loops, db') => (Loops, l, db')
            | (_, db') => (Ok tt, started l (StartNode (config l) (initialNodes l)), db')
            end
        | Err e => (Err e, l, db)
        | Panic msg => (Panic msg, l, db)
        | Loops => (Loops, l, db)
        end
  | Err e => (Err e, l, db)
  | Panic msg => (Panic msg, l, db)
  | Loops => (Loops, l, db)
  end.

(** *** The other methods of the storage and of the replicator *)

(** Term implements the raft.Storage interface ([Term] alone is the field
    of [Entry]); [i+1] is a [uint64] sum, and the panic of [log.Panicf]
    carries the format in place of the formatted message. *)
Definition raftStorage_Term (s : raftStorage) (db : DB) (i : Z) : go error Z :=
  match Entries s db i (wrap64 (i + 1)) MaxUint64 with
  | (_, Some err) => Err err
  | (entries, None) =>
      if decide (length entries ≠ 1%nat) then
        Panic "number of entries with index %d not 1: %d"
      else
        match entries with
        | entry0 :: _ => Ok (Term entry0)
        | [] => Panic "index out of range"
        end
  end.

(** [replication.LogEntry], with the two fields this file sets. *)
Record LogEntry : Type := {
  LogEntry_Data : list byte;
  Reconfiguration : list byte;
}.

(** GetCommitted implements replication.LogReplicator; the results are
    [(ret, err)], and [ret] is still nil when [Entries] fails. *)
Definition GetCommitted (l : raftLog) (db : DB) (lo hi maxSize : Z)
  : list LogEntry * option error :=
  match Entries (storage l) db lo hi maxSize with
  | (_, Some err) => ([], Some err)
  | (entries, None) =>
      (fold_left
         (fun ret entry => ret ++ [{| LogEntry_Data := Data entry; Reconfiguration := [] |}])
         entries [],
       None)
  end.

(** Open initializes a replication.LogReplicator using an already open
    kv.DB.  [listen] is the error that [net.Listen("tcp", listenAddr)]
    returns, if any.  The clock, the channels, the dialer and the gRPC
    server of the replicator are left out: none of the methods above reads
    them. *)
Definition Open (prefix : list byte) (config : Config) (initialNodes : list Peer)
    (listen : option error) : go error raftLog :=
  let confState :=
    fold_left (fun confState node => {| Nodes := Nodes confState ++ [peerID node] |})
              initialNodes zeroConfState in
  let l := {| config := config;
              initialNodes := initialNodes;
              storage := openRaftStorage prefix confState;
              node := None;
              serving := false; running := false |} in
  match listen with
  | Some err => Err err
  | None => Ok l
  end.

End Storage.
End Raftlog.

(** ** proto/SignedEntryUpdate.pr.go *)

Module Proto.

(** A Go [error] with its message. *)
Definition error : Type := string.

(** The generated code of [proto.SignedEntryUpdate] (client.pb.go), which is
    not among the sources.  [Unmarshal] fills its receiver and returns an
    error or nil. *)
Class Generated : Type := {
  SignedEntryUpdate : Type;
  SignedEntryUpdate_zero : SignedEntryUpdate;
  SignedEntryUpdate_Marshal : SignedEntryUpdate → list byte * option error;
  SignedEntryUpdate_Unmarshal :
    SignedEntryUpdate → list byte → SignedEntryUpdate * option error;
  SignedEntryUpdate_Equal : SignedEntryUpdate → SignedEntryUpdate → bool;
  SignedEntryUpdate_VerboseEqual : SignedEntryUpdate → SignedEntryUpdate → option error;
}.

Section PreserveEncoding.
Context {G : Generated}.

Record SignedEntryUpdate_PreserveEncoding : Type := {
  decoded : SignedEntryUpdate;          (* the embedded SignedEntryUpdate *)
  PreservedEncoding : list byte;
}.

(** The dynamic type of a [that interface{}]: a pointer to a wrapper (nil
    or not), a wrapper, or something else. *)
Inductive any : Type :=
| Pointer (p : option SignedEntryUpdate_PreserveEncoding)
| Value (v : SignedEntryUpdate_PreserveEncoding)
| Other.

Definition UpdateEncoding (m : SignedEntryUpdate_PreserveEncoding)
  : SignedEntryUpdate_PreserveEncoding * option error :=
  let '(data, err) := SignedEntryUpdate_Marshal (decoded m) in
  ({| decoded := decoded m; PreservedEncoding := data |}, err).

Definition Reset (m : SignedEntryUpdate_PreserveEncoding) : SignedEntryUpdate_PreserveEncoding :=
  {| decoded := SignedEntryUpdate_zero; PreservedEncoding := [] |}.

Definition Size (m : SignedEntryUpdate_PreserveEncoding) : nat :=
  length (PreservedEncoding m).

(** [copy(dst, src)]: the new contents of [dst] and the number of bytes
    copied. *)
Definition copy (dst src : list byte) : list byte * nat :=
  let n := Nat.min (length dst) (length src) in
  (take n src ++ drop n dst, n).

(** The buffer after the call, the count and the error. *)
Definition MarshalTo (m : SignedEntryUpdate_PreserveEncoding) (data : list byte)
  : list byte * nat * option error :=
  let '(data, n) := copy data (PreservedEncoding m) in
  (data, n, None).

Definition Marshal (m : SignedEntryUpdate_PreserveEncoding) : go error (list byte) :=
  let size := Size m in
  let data := zeros size in
  let '(data, n, err) := MarshalTo m data in
  match err with
  | Some e => Err e
  | None => slice data 0 n
  end.

Definition Unmarshal (m : SignedEntryUpdate_PreserveEncoding) (data : list byte)
  : SignedEntryUpdate_PreserveEncoding * option error :=
  let preserved := [] ++ data in
  let '(d, err) := SignedEntryUpdate_Unmarshal (decoded m) data in
  ({| decoded := d; PreservedEncoding := preserved |}, err).

Definition VerboseEqual (this : SignedEntryUpdate_PreserveEncoding) (that : any)
  : go error (option error) :=
  match that with
  | Pointer (Some thatP) => Ok (SignedEntryUpdate_VerboseEqual (decoded this) (decoded thatP))
  | Pointer None => Panic "invalid memory address or nil pointer dereference"
  | Value thatP => Ok (SignedEntryUpdate_VerboseEqual (decoded this) (decoded thatP))
  | Other => Ok (Some "types don't match: %!T(MISSING) != SignedEntryUpdate_PreserveEncoding"%string)
  end.

Definition Equal (this : SignedEntryUpdate_PreserveEncoding) (that : any) : go error bool :=
  match that with
  | Pointer (Some thatP) => Ok (SignedEntryUpdate_Equal (decoded this) (decoded thatP))
  | Pointer None => Panic "invalid memory address or nil pointer dereference"
  | Value thatP => Ok (SignedEntryUpdate_Equal (decoded this) (decoded thatP))
  | Other => Ok false
  end.

(** [NewPopulatedSignedEntryUpdate] and its source of randomness belong to
    the generated test code; the error of [UpdateEncoding] is dropped. *)
Section Populated.
Variable randyClient : Type.
Variable NewPopulatedSignedEntryUpdate : randyClient → bool → SignedEntryUpdate.

Definition NewPopulatedSignedEntryUpdate_PreserveEncoding (r : randyClient) (easy : bool)
  : SignedEntryUpdate_PreserveEncoding :=
  let this := {| decoded := NewPopulatedSignedEntryUpdate r easy; PreservedEncoding := [] |} in
  fst (UpdateEncoding this).

End Populated.

End PreserveEncoding.
End Proto.

(** ** The keyserver's UpdateProfile handler *)

Module Server.

Section Keyserver.
(** The keyserver, the request context and the messages of the RPC. *)
Variables (Keyserver Context SignedEntryUpdate LookupProof : Type).

(** [fmt.Errorf] of a format without verbs. *)
Definition Errorf (format : string) : string := format.

(** The keyserver after the call, and the two results: the pointer to a
    [proto.LookupProof] and the [error]. *)
Definition UpdateProfile (ks : Keyserver) (ctx : Context) (req : option SignedEntryUpdate)
  : Keyserver * (option LookupProof * option string) :=
  (ks, (None, Some (Errorf "UpdateProfile not implemented"))).

End Keyserver.
End Server.

(** * Part II: properties *)

(** ** Facts about bytes and integer encodings *)

Module BytesFacts.

Lemma byte_to_Z_range (b : byte) : 0 <= byte_to_Z b < 256.
Proof.
  unfold byte_to_Z. pose proof (Byte.to_N_bounded b). lia.
Qed.

Lemma byte_to_of_Z (z : Z) : byte_to_Z (byte_of_Z z) = z mod 256.
Proof.
  unfold byte_to_Z, byte_of_Z.
  pose proof (Z.mod_pos_bound z 256 eq_refl) as Hm.
  destruct (Byte.of_N (Z.to_N (z mod 256))) as [b|] eqn:E.
  - apply Byte.to_of_N in E. rewrite E. lia.
  - apply Byte.of_N_None_iff in E. lia.
Qed.

Lemma byte_of_to_Z (b : byte) : byte_of_Z (byte_to_Z b) = b.
Proof.
  unfold byte_of_Z. rewrite Z.mod_small by apply byte_to_Z_range.
  unfold byte_to_Z. rewrite N2Z.id, Byte.of_to_N. reflexivity.
Qed.

Lemma byte_to_Z_inj (a b : byte) : byte_to_Z a = byte_to_Z b → a = b.
Proof.
  intros H. rewrite <- (byte_of_to_Z a), <- (byte_of_to_Z b). now rewrite H.
Qed.

Lemma length_zeros n : length (zeros n) = n.
Proof. apply repeat_length. Qed.

Lemma length_copy_into n src : length (copy_into n src) = n.
Proof.
  unfold copy_into. rewrite length_app, length_take, length_zeros. lia.
Qed.

Lemma copy_into_id n src : length src = n → copy_into n src = src.
Proof.
  intros <-. unfold copy_into. rewrite firstn_all, Nat.sub_diag. apply app_nil_r.
Qed.

(** The little-endian value of a byte string. *)
Fixpoint le_val (l : list byte) : Z :=
  match l with
  | [] => 0
  | b :: l' => byte_to_Z b + 256 * le_val l'
  end.

Lemma fold_SetBytes (l : list byte) (acc : Z) :
  fold_left (fun a b => a * 256 + byte_to_Z b) l acc
  = acc * 256 ^ Z.of_nat (length l) + SetBytes l.
Proof.
  unfold SetBytes. revert acc. induction l as [|b l IH]; intros acc.
  - simpl. lia.
  - cbn [fold_left length]. rewrite IH, (IH (0 * 256 + byte_to_Z b)).
    rewrite Nat2Z.inj_succ, Z.pow_succ_r by lia. lia.
Qed.

Lemma SetBytes_cons b l :
  SetBytes (b :: l) = byte_to_Z b * 256 ^ Z.of_nat (length l) + SetBytes l.
Proof. unfold SetBytes at 1. cbn [fold_left]. now rewrite fold_SetBytes. Qed.

Lemma SetBytes_app a b :
  SetBytes (a ++ b) = SetBytes a * 256 ^ Z.of_nat (length b) + SetBytes b.
Proof.
  unfold SetBytes at 1. rewrite fold_left_app. fold (SetBytes a).
  apply fold_SetBytes.
Qed.

Lemma SetBytes_range l : 0 <= SetBytes l < 256 ^ Z.of_nat (length l).
Proof.
  induction l as [|b l IH].
  - cbn. lia.
  - rewrite SetBytes_cons. cbn [length]. rewrite Nat2Z.inj_succ, Z.pow_succ_r by lia.
    pose proof (byte_to_Z_range b). nia.
Qed.

Lemma SetBytes_zeros n : SetBytes (zeros n) = 0.
Proof.
  induction n as [|n IH]; [reflexivity|].
  cbn [zeros repeat]. rewrite SetBytes_cons. fold (zeros n). rewrite IH. cbn. lia.
Qed.

Lemma SetBytes_zeros_app n l : SetBytes (zeros n ++ l) = SetBytes l.
Proof. rewrite SetBytes_app, SetBytes_zeros. lia. Qed.

Lemma SetBytes_rev l : SetBytes (rev l) = le_val l.
Proof.
  induction l as [|b l IH]; [reflexivity|].
  cbn [rev le_val]. rewrite SetBytes_app, IH. cbn [length]. rewrite SetBytes_cons.
  cbn [length]. unfold SetBytes at 1. cbn. lia.
Qed.

Lemma le_val_app a b : le_val (a ++ b) = le_val a + 256 ^ Z.of_nat (length a) * le_val b.
Proof.
  induction a as [|x a IH]; cbn [app le_val length].
  - cbn. lia.
  - rewrite IH, Nat2Z.inj_succ, Z.pow_succ_r by lia. lia.
Qed.

Lemma le_val_zeros n : le_val (zeros n) = 0.
Proof. induction n as [|n IH]; [reflexivity|]. cbn [zeros repeat le_val]. fold (zeros n). rewrite IH. reflexivity. Qed.

Lemma le_val_range l : 0 <= le_val l < 256 ^ Z.of_nat (length l).
Proof. rewrite <- SetBytes_rev, <- length_rev. apply SetBytes_range. Qed.

(** Equal-length strings with equal big-endian value are equal. *)
Lemma SetBytes_inj a b : length a = length b → SetBytes a = SetBytes b → a = b.
Proof.
  revert b. induction a as [|x a IH]; intros [|y b] Hl Hv; try discriminate; [reflexivity|].
  injection Hl as Hl. rewrite !SetBytes_cons, Hl in Hv.
  pose proof (SetBytes_range a) as Ha. pose proof (SetBytes_range b) as Hb.
  rewrite Hl in Ha.
  set (M := 256 ^ Z.of_nat (length b)) in *.
  assert (byte_to_Z x = byte_to_Z y) as Hxy by nia.
  f_equal; [now apply byte_to_Z_inj|]. apply IH; [assumption|]. lia.
Qed.

Lemma le_digits_val fuel z :
  0 <= z < 256 ^ Z.of_nat fuel → le_val (le_digits fuel z) = z.
Proof.
  revert z. induction fuel as [|fuel IH]; intros z Hz.
  - cbn in *. lia.
  - cbn [le_digits]. destruct (Z.eqb_spec z 0) as [->|Hne]; [reflexivity|].
    cbn [le_val]. rewrite byte_to_of_Z, IH.
    + pose proof (Z.div_mod z 256). lia.
    + rewrite Nat2Z.inj_succ, Z.pow_succ_r in Hz by lia.
      split; [apply Z.div_pos; lia|]. apply Z.div_lt_upper_bound; lia.
Qed.

Lemma le_digits_length fuel z n :
  0 <= z < 256 ^ Z.of_nat n → (length (le_digits fuel z) ≤ n)%nat.
Proof.
  revert z n. induction fuel as [|fuel IH]; intros z n Hz; [cbn; lia|].
  cbn [le_digits]. destruct (Z.eqb_spec z 0) as [->|Hne]; [cbn; lia|].
  destruct n as [|n]; [cbn in Hz; lia|].
  cbn [length]. apply le_n_S, IH.
  rewrite Nat2Z.inj_succ, Z.pow_succ_r in Hz by lia.
  split; [apply Z.div_pos; lia|]. apply Z.div_lt_upper_bound; lia.
Qed.

Lemma log2_fuel z : 0 <= z → z < 256 ^ Z.of_nat (Z.to_nat (Z.log2 z) + 1).
Proof.
  intros Hz. destruct (Z.eq_dec z 0) as [->|Hne].
  - cbn. lia.
  - pose proof (Z.log2_spec z ltac:(lia)) as [_ Hlt].
    pose proof (Z.log2_nonneg z) as Hl.
    rewrite Nat2Z.inj_add, Z2Nat.id by lia.
    eapply Z.lt_le_trans; [exact Hlt|].
    change (Z.of_nat 1) with 1. replace (Z.succ (Z.log2 z)) with (Z.log2 z + 1) by lia.
    change 256 with (2 ^ 8). rewrite <- Z.pow_mul_r by lia.
    apply Z.pow_le_mono_r; lia.
Qed.

Lemma SetBytes_big_Bytes z : 0 <= z → SetBytes (big_Bytes z) = z.
Proof.
  intros Hz. unfold big_Bytes. rewrite SetBytes_rev, Z.abs_eq by assumption.
  apply le_digits_val. split; [assumption|]. now apply log2_fuel.
Qed.

Lemma length_big_Bytes z n :
  0 <= z < 256 ^ Z.of_nat n → (length (big_Bytes z) ≤ n)%nat.
Proof.
  intros Hz. unfold big_Bytes. rewrite length_rev, Z.abs_eq by lia.
  now apply le_digits_length.
Qed.

(** The [n]-byte big-endian encoding of [v] (of [v mod 256^n]). *)
Fixpoint be_bytes (n : nat) (v : Z) : list byte :=
  match n with
  | O => []
  | S n' => be_bytes n' (v / 256) ++ [byte_of_Z v]
  end.

Lemma length_be_bytes n v : length (be_bytes n v) = n.
Proof.
  revert v. induction n as [|n IH]; intros v; [reflexivity|].
  cbn [be_bytes]. rewrite length_app, IH. cbn. lia.
Qed.

Lemma SetBytes_be_bytes n v : SetBytes (be_bytes n v) = v mod 256 ^ Z.of_nat n.
Proof.
  revert v. induction n as [|n IH]; intros v.
  - cbn. now rewrite Z.mod_1_r.
  - cbn [be_bytes]. rewrite SetBytes_app, IH.
    change (Z.of_nat (length [byte_of_Z v])) with 1.
    change (SetBytes [byte_of_Z v]) with (0 * 256 + byte_to_Z (byte_of_Z v)).
    rewrite byte_to_of_Z, Nat2Z.inj_succ, Z.pow_succ_r by lia.
    pose proof (Z.pow_pos_nonneg 256 (Z.of_nat n) ltac:(lia) ltac:(lia)) as Hp.
    rewrite (Z.rem_mul_r v 256 (256 ^ Z.of_nat n)) by lia. lia.
Qed.

Lemma be_bytes_inj n a b :
  0 <= a < 256 ^ Z.of_nat n → 0 <= b < 256 ^ Z.of_nat n →
  be_bytes n a = be_bytes n b → a = b.
Proof.
  intros Ha Hb H. apply (f_equal SetBytes) in H.
  rewrite !SetBytes_be_bytes, !Z.mod_small in H; assumption.
Qed.

Lemma PutUint64_be v : PutUint64 v = be_bytes 8 v.
Proof.
  unfold PutUint64. cbn [map be_bytes app].
  rewrite !Z.shiftr_div_pow2 by lia.
  rewrite !Z.div_div by lia.
  rewrite (Z.div_1_r v : v / 2 ^ (8 * 0) = v). reflexivity.
Qed.

End BytesFacts.

Lemma go_bind_Ok {E A B} (m : go E A) (k : A → go E B) (b : B) :
  go_bind m k = Ok b → ∃ a, m = Ok a ∧ k a = Ok b.
Proof. destruct m as [a| | |]; cbn; intros H; try discriminate. eauto. Qed.

Ltac go_inv H :=
  repeat match type of H with
  | go_bind ?m ?k = Ok ?b =>
      let a := fresh "a" in
      let Ha := fresh "H" a in
      apply go_bind_Ok in H; destruct H as (a & Ha & H); cbn beta in H
  end.

(** ** Facts about the VRF code *)

Module VRFFacts.
Import VRF BytesFacts.

Lemma I2OSP_length b n : 0 <= b < 256 ^ Z.of_nat n → length (I2OSP b n) = n.
Proof.
  intros Hb. unfold I2OSP. pose proof (length_big_Bytes b n Hb) as Hl.
  destruct (decide _) as [Hlt|Hge].
  - rewrite length_app, length_zeros. lia.
  - rewrite length_take. lia.
Qed.

Lemma OS2IP_I2OSP b n : 0 <= b < 256 ^ Z.of_nat n → OS2IP (I2OSP b n) = b.
Proof.
  intros Hb. unfold I2OSP, OS2IP. pose proof (length_big_Bytes b n Hb) as Hl.
  destruct (decide _) as [Hlt|Hge].
  - rewrite SetBytes_zeros_app. apply SetBytes_big_Bytes. lia.
  - rewrite take_ge by lia. apply SetBytes_big_Bytes. lia.
Qed.

(** Below [256^n], [I2OSP b n] is the [n]-byte big-endian encoding of [b]. *)
Lemma I2OSP_be b n : 0 <= b < 256 ^ Z.of_nat n → I2OSP b n = be_bytes n b.
Proof.
  intros Hb. apply SetBytes_inj.
  - now rewrite I2OSP_length, length_be_bytes.
  - fold (OS2IP (I2OSP b n)). rewrite OS2IP_I2OSP, SetBytes_be_bytes, Z.mod_small; auto.
Qed.

Lemma sign_octet (b : byte) :
  byte_add (byte_shr b 7) 2 = x02 ∨ byte_add (byte_shr b 7) 2 = x03.
Proof. destruct b; vm_compute; auto. Qed.

Lemma sign_octet_sub (b : byte) :
  byte_sub (byte_add (byte_shr b 7) 2) 2 = byte_shr b 7.
Proof. destruct b; vm_compute; auto. Qed.

(** Writing back the sign bit that was read from the same byte changes
    nothing. *)
Lemma sign_restore (b : byte) :
  byte_of_Z (Z.lor (byte_to_Z (byte_shl (byte_shr b 7) 7)) (byte_to_Z (byte_and b 0x7f))) = b.
Proof. destruct b; vm_compute; auto. Qed.

Section Code.
Context {L : Library}.

Lemma S2OS_Ok s r :
  S2OS s = Ok r →
  ∃ b31, s !! 31%nat = Some b31 ∧ r = byte_add (byte_shr b31 7) 2 :: s.
Proof.
  unfold S2OS, index. destruct (s !! 31%nat) as [b|] eqn:E; cbn; intros H; [|discriminate].
  injection H as <-. eauto.
Qed.

Lemma S2OS_total s : length s = 32%nat → ∃ r, S2OS s = Ok r.
Proof.
  intros Hl. unfold S2OS, index.
  destruct (s !! 31%nat) as [b|] eqn:E; cbn; [eauto|].
  apply lookup_ge_None in E. lia.
Qed.

Lemma S2OS_length s r : length s = 32%nat → S2OS s = Ok r → length r = 33%nat.
Proof.
  intros Hl H. apply S2OS_Ok in H as (b & _ & ->). cbn. lia.
Qed.

Lemma ECP2OS_total P : ∃ r, ECP2OS P = Ok r.
Proof. apply S2OS_total, length_copy_into. Qed.

Lemma hash_points_range ps : 0 <= ECVRF_hash_points ps < 256 ^ Z.of_nat N.
Proof.
  unfold ECVRF_hash_points, OS2IP.
  pose proof (SetBytes_range (take N (sha256_Sum (concat ps)))) as H.
  split; [lia|]. eapply Z.lt_le_trans; [apply H|].
  apply Z.pow_le_mono_r; [lia|]. rewrite length_take. lia.
Qed.

Lemma q_lt_256_32 : q < 256 ^ Z.of_nat N2.
Proof. vm_compute. reflexivity. Qed.

(** What a successful [ECVRF_prove] computed. *)
Lemma prove_Ok rand pk sk m pi :
  ECVRF_prove rand pk sk m = Ok pi →
  ∃ x h r kp ks k og oh opk okp ohk,
    expandSecret sk = Ok x ∧
    ECVRF_hash_to_curve m pk = Ok h ∧
    ECP2OS (GeScalarMult h x) = Ok r ∧
    GenerateKey rand = Ok (kp, ks) ∧
    expandSecret ks = Ok k ∧
    ECP2OS G = Ok og ∧ ECP2OS h = Ok oh ∧ S2OS pk = Ok opk ∧ S2OS kp = Ok okp ∧
    ECP2OS (GeScalarMult h k) = Ok ohk ∧
    let c := ECVRF_hash_points [og; oh; opk; r; okp; ohk] in
    let s := (F2IP k - c * F2IP x) mod q in
    pi = r ++ I2OSP c N ++ I2OSP s N2.
Proof.
  unfold ECVRF_prove. intros H. go_inv H.
  destruct a2 as [kp ks]. go_inv H. injection H as <-.
  do 11 eexists. repeat split; eassumption.
Qed.

Lemma length_expandSecret sk x : expandSecret sk = Ok x → length x = 32%nat.
Proof.
  unfold expandSecret. intros H. go_inv H. injection H as <-. apply length_copy_into.
Qed.

(** One step of the search of [ECVRF_hash_to_curve], in the words of the
    specification: hash [m ‖ pk ‖ counter] with the counter as four
    big-endian bytes, try sign 0, then sign 1. *)
Definition attempt (m pk : list byte) (i : Z) : option ExtendedGroupElement :=
  let digest := sha256_Sum (m ++ pk ++ be_bytes 4 i) in
  match OS2ECP digest x00 with
  | Some P => Some P
  | None => OS2ECP digest x01
  end.

Lemma hash_to_curve_loop_spec n i m pk :
  0 <= i → i + Z.of_nat n <= 2 ^ 32 →
  match hash_to_curve_loop n i m pk with
  | Ok P => ∃ j, i <= j < i + Z.of_nat n ∧ attempt m pk j = Some P
                 ∧ ∀ j', i <= j' < j → attempt m pk j' = None
  | Err _ | Loops => False
  | Panic _ => ∀ j, i <= j < i + Z.of_nat n → attempt m pk j = None
  end.
Proof.
  revert i. induction n as [|n IH]; intros i Hi Hn.
  - cbn. intros j Hj. lia.
  - cbn [hash_to_curve_loop].
    assert (I2OSP i 4 = be_bytes 4 i) as -> by (apply I2OSP_be; cbn; lia).
    assert (attempt m pk i =
            match OS2ECP (sha256_Sum (m ++ pk ++ be_bytes 4 i)) x00 with
            | Some P => Some P
            | None => OS2ECP (sha256_Sum (m ++ pk ++ be_bytes 4 i)) x01
            end) as Hatt by reflexivity.
    destruct (OS2ECP _ x00) as [P|] eqn:E0.
    { exists i. repeat split; [lia|lia|assumption|]. intros j' Hj'. lia. }
    destruct (OS2ECP _ x01) as [P|] eqn:E1.
    { exists i. repeat split; [lia|lia|assumption|]. intros j' Hj'. lia. }
    specialize (IH (i + 1) ltac:(lia) ltac:(lia)).
    destruct (hash_to_curve_loop n (i + 1) m pk) as [P| |msg|].
    + destruct IH as (j & Hj & HP & Hfirst). exists j. repeat split; [lia|lia|assumption|].
      intros j' Hj'. destruct (Z.eq_dec j' i) as [->|Hne]; [assumption|]. apply Hfirst. lia.
    + assumption.
    + intros j Hj. destruct (Z.eq_dec j i) as [->|Hne]; [assumption|]. apply IH. lia.
    + assumption.
Qed.

(** What [OS2ECP] accepts: the buffer with byte 31 carrying the sign in its
    top bit decodes, and the decoded point times [q] encodes as the neutral
    element. *)
Lemma OS2ECP_Some os sign P :
  OS2ECP os sign = Some P ↔
  FromBytes (alter (fun b => byte_of_Z (Z.lor (byte_to_Z (byte_shl sign 7))
                                              (byte_to_Z (byte_and b 0x7f))))
                   31%nat (copy_into 32 os)) = (P, true)
  ∧ copy_into 32 (ToBytes (GeScalarMult P (IP2F q))) = one32.
Proof.
  unfold OS2ECP. destruct (FromBytes _) as [P' ok]. destruct ok; cbn [negb].
  - destruct (decide _) as [Hne|Heq].
    + split; [discriminate|]. intros [[= ->] Ht]. contradiction.
    + split.
      * intros [= ->]. split; [reflexivity|]. now destruct (decide (copy_into 32 (ToBytes (GeScalarMult P (IP2F q))) = one32)).
      * intros [[= ->] _]. reflexivity.
  - split; [discriminate|]. intros [[=] _].
Qed.

Lemma le_val_IP2F_q : le_val (IP2F q) = q.
Proof. vm_compute. reflexivity. Qed.

Lemma length_IP2F b : length (IP2F b) = 32%nat.
Proof. apply length_copy_into. Qed.

(** C6.  [ECVRF_hash_to_curve] runs the counter through 0, 1, ..., 9999 as a
    four-byte big-endian string, hashes [m ‖ pk ‖ counter] with SHA-256 and
    returns the first point that [OS2ECP] accepts, sign 0 before sign 1; it
    panics when no counter below the limit gives one, and never returns an
    error.  [OS2ECP] accepts exactly the digests that decode with the given
    sign bit and pass the subgroup check (the point times [q] encodes as the
    neutral element), and the scalar it multiplies by is [q]. *)
Theorem hash_to_curve_first_point m pk :
  match ECVRF_hash_to_curve m pk with
  | Ok P => ∃ i, 0 <= i < 10000 ∧ attempt m pk i = Some P
                 ∧ ∀ j, 0 <= j < i → attempt m pk j = None
  | Err _ | Loops => False
  | Panic msg => msg = "ECVRF_hash_to_curve: couldn't make a point on curve"%string
                 ∧ ∀ j, 0 <= j < 10000 → attempt m pk j = None
  end
  ∧ (∀ i, 0 <= i < 10000 → I2OSP i 4 = be_bytes 4 i)
  ∧ (∀ digest sign P,
       OS2ECP digest sign = Some P →
       FromBytes (alter (fun b => byte_of_Z (Z.lor (byte_to_Z (byte_shl sign 7))
                                                   (byte_to_Z (byte_and b 0x7f))))
                        31%nat (copy_into 32 digest)) = (P, true)
       ∧ copy_into 32 (ToBytes (GeScalarMult P (IP2F q))) = one32)
  ∧ le_val (IP2F q) = q.
Proof.
  split; [|split; [|split]].
  - unfold ECVRF_hash_to_curve.
    pose proof (hash_to_curve_loop_spec (Z.to_nat limit) 0 m pk ltac:(lia)) as H.
    change (0 + Z.of_nat (Z.to_nat limit)) with 10000 in H.
    specialize (H ltac:(lia)).
    destruct (hash_to_curve_loop (Z.to_nat limit) 0 m pk) as [P| |msg|] eqn:E; try assumption.
    split; [|assumption].
    clear H. revert E. generalize 0. generalize (Z.to_nat limit).
    induction n as [|n IH]; intros i; cbn [hash_to_curve_loop].
    + now intros [= <-].
    + destruct (OS2ECP _ x00); [discriminate|]. destruct (OS2ECP _ x01); [discriminate|].
      apply IH.
  - intros i Hi. apply I2OSP_be. cbn. lia.
  - intros digest sign P H. now apply OS2ECP_Some.
  - apply le_val_IP2F_q.
Qed.

(** C7.  A proof returned by [ECVRF_prove] has exactly 81 bytes: the sign
    octet (2 or 3) and the 32-byte encoding of Gamma = h^x, then [c] as 16
    big-endian bytes, then [s = k - c*x mod q] as 32 big-endian bytes. *)
Theorem prove_length_layout rand pk sk m pi :
  ECVRF_prove rand pk sk m = Ok pi →
  ∃ x h sign kp ks k c s,
    expandSecret sk = Ok x ∧ ECVRF_hash_to_curve m pk = Ok h ∧
    GenerateKey rand = Ok (kp, ks) ∧ expandSecret ks = Ok k ∧
    s = (F2IP k - c * F2IP x) mod q ∧
    length pi = 81%nat ∧
    pi = (sign :: copy_into 32 (ToBytes (GeScalarMult h x))) ++ I2OSP c N ++ I2OSP s N2 ∧
    (sign = x02 ∨ sign = x03) ∧
    length (copy_into 32 (ToBytes (GeScalarMult h x))) = 32%nat ∧
    0 <= c < 2 ^ 128 ∧ I2OSP c N = be_bytes 16 c ∧ OS2IP (I2OSP c N) = c ∧
    0 <= s < q ∧ I2OSP s N2 = be_bytes 32 s ∧ OS2IP (I2OSP s N2) = s.
Proof.
  intros H. apply prove_Ok in H
    as (x & h & r & kp & ks & k & og & oh & opk & okp & ohk &
        Hx & Hh & Hr & Hkey & Hk & Hog & Hoh & Hopk & Hokp & Hohk & Hpi).
  cbv zeta in Hpi.
  set (c := ECVRF_hash_points [og; oh; opk; r; okp; ohk]) in *.
  set (s := (F2IP k - c * F2IP x) mod q) in *.
  apply S2OS_Ok in Hr as (b31 & _ & Hr).
  assert (0 <= c < 256 ^ Z.of_nat N) as Hc by apply hash_points_range.
  assert (0 <= s < q) as Hs by (apply Z.mod_pos_bound; reflexivity).
  assert (0 <= s < 256 ^ Z.of_nat N2) as Hs' by (pose proof q_lt_256_32; lia).
  exists x, h, (byte_add (byte_shr b31 7) 2), kp, ks, k, c, s.
  repeat match goal with |- _ ∧ _ => split end; try assumption; try reflexivity.
  - rewrite Hpi, Hr, !length_app, !I2OSP_length by assumption.
    cbn [length]. rewrite length_copy_into. reflexivity.
  - rewrite Hpi, Hr. reflexivity.
  - apply sign_octet.
  - apply length_copy_into.
  - apply Hc.
  - apply Hc.
  - now apply I2OSP_be.
  - now apply OS2IP_I2OSP.
  - apply Hs.
  - apply Hs.
  - now apply I2OSP_be.
  - now apply OS2IP_I2OSP.
Qed.

(** C2.  For fixed [pk], [sk] and [m], any two successful runs of
    [ECVRF_prove], whatever ephemeral randomness each draws, give proofs with
    the same [ECVRF_proof2hash]: bytes 1..33 of the proof, the 32-byte
    encoding of Gamma = h^x. *)
Theorem proof2hash_deterministic rand1 rand2 pk sk m pi1 pi2 :
  ECVRF_prove rand1 pk sk m = Ok pi1 →
  ECVRF_prove rand2 pk sk m = Ok pi2 →
  ∃ x h,
    expandSecret sk = Ok x ∧ ECVRF_hash_to_curve m pk = Ok h ∧
    ECVRF_proof2hash pi1 = Ok (copy_into 32 (ToBytes (GeScalarMult h x))) ∧
    ECVRF_proof2hash pi2 = ECVRF_proof2hash pi1 ∧
    ECVRF_proof2hash pi1 = Ok (take 32 (drop 1 pi1)).
Proof.
  intros H1 H2.
  apply prove_Ok in H1
    as (x & h & r & kp1 & ks1 & k1 & og1 & oh1 & opk1 & okp1 & ohk1 &
        Hx & Hh & Hr & _ & _ & _ & _ & _ & _ & _ & Hpi1).
  apply prove_Ok in H2
    as (x' & h' & r' & kp2 & ks2 & k2 & og2 & oh2 & opk2 & okp2 & ohk2 &
        Hx' & Hh' & Hr' & _ & _ & _ & _ & _ & _ & _ & Hpi2).
  rewrite Hx in Hx'. injection Hx' as <-. rewrite Hh in Hh'. injection Hh' as <-.
  rewrite Hr in Hr'. injection Hr' as <-.
  apply S2OS_Ok in Hr as (b31 & _ & ->). cbv zeta in Hpi1, Hpi2.
  set (gamma := copy_into 32 (ToBytes (GeScalarMult h x))) in *.
  assert (∀ rest, ECVRF_proof2hash ((byte_add (byte_shr b31 7) 2 :: gamma) ++ rest)
                  = Ok gamma) as Hgen.
  { intros rest. unfold ECVRF_proof2hash, slice.
    assert (length gamma = 32%nat) as Hl by apply length_copy_into.
    destruct (decide _) as [_|Hn].
    - f_equal. rewrite <- app_comm_cons, skipn_cons, drop_0.
      change (N2 + 1 - 1)%nat with 32%nat. now apply take_app_length'.
    - exfalso. apply Hn. rewrite length_app. cbn [length]. unfold N2. lia. }
  exists x, h. split; [assumption|]. split; [assumption|].
  rewrite Hpi1, Hpi2, !Hgen. repeat split.
  f_equal. rewrite <- app_comm_cons, skipn_cons, drop_0.
  symmetry. apply take_app_length'. symmetry. apply length_copy_into.
Qed.

End Code.
End VRFFacts.

(** ** Correctness of the VRF, relative to the group the library implements *)

Module VRFCorrect.
Import VRF BytesFacts VRFFacts.

(** The edwards25519 package is vendored in the repository but is not part
    of the sources at hand.  Its contract is stated against an abstract
    commutative group: [el] and [elP] give the point a well-formed
    ([valid]) representation stands for, [enc] is the 32-byte compressed
    encoding of a point, [Bpt] the base point. *)
Class Model (L : Library) : Type := {
  grp : Type;
  gadd : grp → grp → grp;
  gzero : grp;
  Bpt : grp;
  valid : ExtendedGroupElement → Prop;
  validP : ProjectiveGroupElement → Prop;
  el : ExtendedGroupElement → grp;
  elP : ProjectiveGroupElement → grp;
  enc : grp → list byte;
}.

(** [n] times [P], for a scalar [n >= 0]. *)
Definition smul {L} {M : Model L} (n : Z) (P : grp) : grp :=
  Nat.iter (Z.to_nat n) (gadd P) gzero.

Class Laws (L : Library) (M : Model L) : Prop := {
  gadd_assoc : ∀ a b c : grp, gadd a (gadd b c) = gadd (gadd a b) c;
  gadd_comm : ∀ a b : grp, gadd a b = gadd b a;
  gadd_zero_l : ∀ a : grp, gadd gzero a = a;
  (* the base point generates the subgroup of order q *)
  order_Bpt : smul q Bpt = gzero;
  (* the encoding: 32 bytes, the neutral element is y = 1 *)
  enc_length : ∀ g : grp, length (enc g) = 32%nat;
  enc_zero : enc gzero = one32;
  ToBytes_enc : ∀ p, valid p → ToBytes p = enc (el p);
  ProjToBytes_enc : ∀ r, validP r → ProjToBytes r = enc (elP r);
  FromBytes_valid : ∀ s p, FromBytes s = (p, true) → valid p;
  FromBytes_enc : ∀ g : grp, ∃ p, FromBytes (enc g) = (p, true) ∧ el p = g;
  (* a*A + b*B, scalars little-endian *)
  GeDoubleScalarMultVartime_sound : ∀ a A b,
    valid A → length a = 32%nat → length b = 32%nat →
    validP (GeDoubleScalarMultVartime a A b)
    ∧ elP (GeDoubleScalarMultVartime a A b)
      = gadd (smul (le_val a) (el A)) (smul (le_val b) Bpt);
  GeScalarMultBase_sound : ∀ a,
    length a = 32%nat →
    valid (GeScalarMultBase a) ∧ el (GeScalarMultBase a) = smul (le_val a) Bpt;
  (* the addition formulas of the package, which GeAdd copies *)
  GeAdd_sound : ∀ p q,
    valid p → valid q → valid (GeAdd p q) ∧ el (GeAdd p q) = gadd (el p) (el q);
}.

Section Group.
Context {L : Library} {M : Model L} {HL : Laws L M}.

Lemma gadd_zero_r (a : grp) : gadd a gzero = a.
Proof. rewrite gadd_comm. apply gadd_zero_l. Qed.

Lemma smul_0 (P : grp) : smul 0 P = gzero.
Proof. reflexivity. Qed.

Lemma smul_succ n (P : grp) : 0 <= n → smul (n + 1) P = gadd P (smul n P).
Proof.
  intros Hn. unfold smul. rewrite Z2Nat.inj_add by lia.
  rewrite Nat.add_comm. reflexivity.
Qed.

Lemma smul_add a b (P : grp) :
  0 <= a → 0 <= b → smul (a + b) P = gadd (smul a P) (smul b P).
Proof.
  intros Ha Hb. unfold smul. rewrite Z2Nat.inj_add by lia.
  induction (Z.to_nat a) as [|n IH]; simpl.
  - now rewrite gadd_zero_l.
  - rewrite IH. apply gadd_assoc.
Qed.


Lemma smul_gadd n (P Q : grp) : smul n (gadd P Q) = gadd (smul n P) (smul n Q).
Proof.
  unfold smul. induction (Z.to_nat n) as [|k IH]; simpl.
  - now rewrite gadd_zero_l.
  - rewrite IH. rewrite !gadd_assoc. f_equal.
    rewrite <- !gadd_assoc. f_equal. apply gadd_comm.
Qed.



Lemma enc_inj (a b : grp) : enc a = enc b → a = b.
Proof.
  intros H. destruct (FromBytes_enc a) as (p & Hp & <-).
  destruct (FromBytes_enc b) as (p' & Hp' & <-).
  rewrite H in Hp. rewrite Hp in Hp'. now injection Hp' as <-.
Qed.

Lemma GeScalarMult_sound h a :
  valid h → length a = 32%nat →
  valid (GeScalarMult h a) ∧ el (GeScalarMult h a) = smul (le_val a) (el h).
Proof.
  intros Hh Ha. unfold GeScalarMult.
  destruct (GeDoubleScalarMultVartime_sound a h (zeros 32) Hh Ha (length_zeros 32))
    as [Hv He].
  rewrite le_val_zeros, smul_0, gadd_zero_r in He.
  rewrite (ProjToBytes_enc _ Hv), copy_into_id by apply enc_length.
  destruct (FromBytes_enc (elP (GeDoubleScalarMultVartime a h (zeros 32))))
    as (p & Hp & Hel).
  rewrite Hp. cbn [fst]. split; [eapply FromBytes_valid; eassumption|].
  now rewrite Hel.
Qed.

Lemma ECP2OS_enc P : valid P → ECP2OS P = S2OS (enc (el P)).
Proof.
  intros HP. unfold ECP2OS. now rewrite ToBytes_enc, copy_into_id by (auto using enc_length).
Qed.

Lemma ECP2OSProj_enc P : validP P → ECP2OSProj P = S2OS (enc (elP P)).
Proof.
  intros HP. unfold ECP2OSProj.
  now rewrite ProjToBytes_enc, copy_into_id by (auto using enc_length).
Qed.

Lemma OS2ECP_sound os sign P :
  OS2ECP os sign = Some P → valid P ∧ smul q (el P) = gzero.
Proof.
  intros H. apply OS2ECP_Some in H as [Hfrom Hsub].
  assert (valid P) as HP by (eapply FromBytes_valid; eassumption).
  split; [assumption|].
  destruct (GeScalarMult_sound P (IP2F q) HP (length_IP2F q)) as [Hv He].
  rewrite (ToBytes_enc _ Hv), copy_into_id in Hsub by apply enc_length.
  rewrite He, le_val_IP2F_q, <- enc_zero in Hsub. now apply enc_inj.
Qed.

Lemma alter_fixed {A} (f : A → A) (l : list A) (i : nat) :
  (∀ x, l !! i = Some x → f x = x) → alter f i l = l.
Proof.
  revert i. induction l as [|a l IH]; intros i H; [reflexivity|].
  destruct i as [|i]; cbn.
  - f_equal. apply H. reflexivity.
  - f_equal. apply IH. intros x Hx. apply H. exact Hx.
Qed.

(** Decoding the encoding of a point of the prime-order subgroup, with the
    sign read from the encoding itself, gives the point back. *)
Lemma OS2ECP_enc (g : grp) b31 :
  smul q g = gzero → enc g !! 31%nat = Some b31 →
  ∃ P, OS2ECP (enc g) (byte_shr b31 7) = Some P ∧ valid P ∧ el P = g.
Proof.
  intros Hq Hb. destruct (FromBytes_enc g) as (P & HP & Hel).
  assert (valid P) as Hv by (eapply FromBytes_valid; eassumption).
  exists P. split; [|split; assumption].
  apply OS2ECP_Some. rewrite copy_into_id by apply enc_length.
  rewrite alter_fixed.
  2:{ intros x Hx. rewrite Hb in Hx. injection Hx as <-. apply sign_restore. }
  split; [assumption|].
  destruct (GeScalarMult_sound P (IP2F q) Hv (length_IP2F q)) as [Hv' He].
  rewrite (ToBytes_enc _ Hv'), copy_into_id by apply enc_length.
  now rewrite He, le_val_IP2F_q, Hel, Hq, enc_zero.
Qed.

Lemma hash_to_curve_sound m pk h :
  ECVRF_hash_to_curve m pk = Ok h → valid h ∧ smul q (el h) = gzero.
Proof.
  intros H. unfold ECVRF_hash_to_curve in H.
  pose proof (hash_to_curve_loop_spec (Z.to_nat limit) 0 m pk ltac:(lia)) as Hs.
  change (0 + Z.of_nat (Z.to_nat limit)) with 10000 in Hs.
  specialize (Hs ltac:(lia)). rewrite H in Hs.
  destruct Hs as (j & _ & Hatt & _). unfold attempt in Hatt.
  destruct (OS2ECP _ x00) as [P|] eqn:E0.
  - injection Hatt as <-. eapply OS2ECP_sound; eassumption.
  - eapply OS2ECP_sound; eassumption.
Qed.


Lemma F2IP_le f : length f = 32%nat → F2IP f = le_val f.
Proof.
  intros Hf. unfold F2IP, OS2IP. rewrite copy_into_id by assumption. apply SetBytes_rev.
Qed.

Lemma le_val_rev l : le_val (rev l) = SetBytes l.
Proof. rewrite <- SetBytes_rev. now rewrite rev_involutive. Qed.

(** The key schedule of [ed25519.GenerateKey]: the secret key is the seed
    followed by the public key, and the public key encodes [x*B] for the
    clamped scalar [x] that [expandSecret] recovers. *)
Lemma GenerateKey_Ok rand pk sk :
  GenerateKey rand = Ok (pk, sk) →
  ∃ x, expandSecret sk = Ok x ∧ length x = 32%nat ∧ length pk = 32%nat
       ∧ pk = enc (smul (le_val x) Bpt).
Proof.
  unfold GenerateKey, ReadFull. destruct (decide _) as [Hlen|]; [|discriminate].
  cbn. intros [= <- <-].
  set (seed := take 32 rand).
  assert (length seed = 32%nat) as Hseed by (unfold seed; rewrite length_take; lia).
  set (x := copy_into 32 (clamp (sha512_Sum512 seed))).
  assert (length x = 32%nat) as Hx by apply length_copy_into.
  destruct (GeScalarMultBase_sound x Hx) as [Hv He].
  exists x. repeat split.
  - unfold expandSecret, slice. destruct (decide _) as [_|Hn].
    + cbn [go_bind]. change (32 - 0)%nat with 32%nat.
      rewrite drop_0, (take_app_length' seed _ 32 (eq_sym Hseed)). reflexivity.
    + exfalso. apply Hn. rewrite length_app. lia.
  - assumption.
  - apply length_copy_into.
  - now rewrite (ToBytes_enc _ Hv), copy_into_id, He by apply enc_length.
Qed.




End Group.
End VRFCorrect.

(** ** A small model of the library contract

    The contract [Laws] is satisfiable: the cyclic group of order [q],
    written additively as [Zmod q], is realised by the points
    [(0 : 1 + g·ε : 1 : 0)] over the dual numbers [Zmod q [ε]/(ε²)], on
    which the addition formulas that [GeAdd] copies multiply the second
    coordinate: [(1 + g·ε)(1 + g'·ε) = 1 + (g + g')·ε].  The hash functions
    of the model are checksums. *)

Module Toy.
Import VRF BytesFacts VRFFacts VRFCorrect.

Abbreviation Fq := (Zmod q).
Definition dual : Type := (Fq * Fq)%type.

Definition toD (a : FieldElement) : dual :=
  (Zmod.of_Z q (nth 0 a 0), Zmod.of_Z q (nth 1 a 0)).
Definition ofD (d : dual) : FieldElement := [Zmod.to_Z (fst d); Zmod.to_Z (snd d)].

Definition dadd (a b : dual) : dual := (Zmod.add (fst a) (fst b), Zmod.add (snd a) (snd b)).
Definition dsub (a b : dual) : dual := (Zmod.sub (fst a) (fst b), Zmod.sub (snd a) (snd b)).
Definition dmul (a b : dual) : dual :=
  (Zmod.mul (fst a) (fst b),
   Zmod.add (Zmod.mul (fst a) (snd b)) (Zmod.mul (snd a) (fst b))).

(** 1/4 in [Zmod q]. *)
Definition inv4 : Fq := Zmod.of_Z q ((3 * q + 1) / 4).

Definition pt (g : Fq) : ExtendedGroupElement :=
  {| geX := ofD (Zmod.zero, Zmod.zero); geY := ofD (Zmod.one, g);
     geZ := ofD (Zmod.one, Zmod.zero); geT := ofD (Zmod.zero, Zmod.zero) |}.
Definition ppt (g : Fq) : ProjectiveGroupElement :=
  {| pgX := ofD (Zmod.zero, Zmod.zero); pgY := ofD (Zmod.one, g);
     pgZ := ofD (Zmod.one, Zmod.zero) |}.

Definition toy_el (p : ExtendedGroupElement) : Fq := snd (toD (geY p)).
Definition toy_elP (p : ProjectiveGroupElement) : Fq := snd (toD (pgY p)).

Definition toy_enc (g : Fq) : list byte := rev (be_bytes 32 (Zmod.to_Z g + 1)).

Definition toy_FromBytes (s : list byte) : ExtendedGroupElement * bool :=
  let v := le_val s in
  if (1 <=? v) && (v <=? q) then (pt (Zmod.of_Z q (v - 1)), true)
  else (pt Zmod.zero, false).

#[local] Instance toy_library : Library := {|
  sha256_Sum x := copy_into 32 (rev (be_bytes 31 (SetBytes x mod (2 ^ 248 - 1))));
  sha512_Sum512 x := copy_into 64 x;
  FeAdd a b := ofD (dadd (toD a) (toD b));
  FeSub a b := ofD (dsub (toD a) (toD b));
  FeMul a b := ofD (dmul (toD a) (toD b));
  FeCopy a := a;
  FeOne := ofD (Zmod.one, Zmod.zero);
  FeToBytes a := rev (be_bytes 32 (Zmod.to_Z (fst (toD a))));
  FromBytes := toy_FromBytes;
  ToBytes p := toy_enc (toy_el p);
  ProjToBytes p := toy_enc (toy_elP p);
  ToExtended c :=
    let scale a := ofD (dmul (toD a) (inv4, Zmod.zero)) in
    {| geX := ofD (dmul (toD (cgX c)) (toD (cgT c)));
       geY := scale (ofD (dmul (toD (cgY c)) (toD (cgZ c))));
       geZ := scale (ofD (dmul (toD (cgZ c)) (toD (cgT c))));
       geT := ofD (dmul (toD (cgX c)) (toD (cgY c))) |};
  GeDoubleScalarMultVartime a A b :=
    ppt (Zmod.add (Zmod.mul (Zmod.of_Z q (le_val a)) (toy_el A)) (Zmod.of_Z q (le_val b)));
  GeScalarMultBase a := pt (Zmod.of_Z q (le_val a));
|}.

#[local] Instance toy_model : Model toy_library := {|
  grp := Fq;
  gadd := Zmod.add;
  gzero := Zmod.zero;
  Bpt := Zmod.one;
  valid p := ∃ g, p = pt g;
  validP p := ∃ g, p = ppt g;
  el := toy_el;
  elP := toy_elP;
  enc := toy_enc;
|}.

Lemma toD_ofD d : toD (ofD d) = d.
Proof.
  destruct d as [u v]. unfold toD, ofD. cbn [nth fst snd].
  now rewrite !Zmod.of_Z_to_Z.
Qed.

Lemma toy_el_pt g : toy_el (pt g) = g.
Proof. unfold toy_el, pt. cbn [geY]. now rewrite toD_ofD. Qed.

Lemma toy_elP_ppt g : toy_elP (ppt g) = g.
Proof. unfold toy_elP, ppt. cbn [pgY]. now rewrite toD_ofD. Qed.

Lemma four_inv4 : Zmod.mul (Zmod.of_Z q 4) inv4 = Zmod.one.
Proof. apply Zmod.to_Z_inj. vm_compute. reflexivity. Qed.

Lemma toy_smul n (g : Fq) : 0 <= n → smul n g = Zmod.mul (Zmod.of_Z q n) g.
Proof.
  intros Hn. pattern n. apply natlike_ind; [| |assumption].
  - rewrite smul_0. cbn [gzero toy_model]. now rewrite Zmod.of_Z_0, Zmod.mul_0_l.
  - intros k Hk IH. replace (Z.succ k) with (k + 1) by lia.
    rewrite smul_succ, IH by assumption. cbn [gadd toy_model].
    rewrite Zmod.of_Z_add, Zmod.of_Z_1, Zmod.mul_add_l, Zmod.mul_1_l.
    apply Zmod.add_comm.
Qed.

Add Ring toy_Fq_ring : (Zmod.ring_theory q).

Lemma toy_GeAdd g g' : GeAdd (pt g) (pt g') = pt (Zmod.add g g').
Proof.
  unfold GeAdd, ToCached, pt. cbn [geX geY geZ geT yPlusX yMinusX cachedZ T2d
    FeAdd FeSub FeMul FeCopy ToExtended toy_library cgX cgY cgZ cgT].
  rewrite !toD_ofD.
  destruct (toD d2) as [d2r d2d].
  unfold dmul, dadd, dsub. cbn [fst snd].
  assert (∀ a : Fq, Zmod.mul (Zmod.add (Zmod.add a a) (Zmod.add a a)) inv4 = a) as Hq.
  { intros a. transitivity (Zmod.mul a (Zmod.mul (Zmod.of_Z q 4) inv4)).
    - change 4 with (1 + 1 + 1 + 1). rewrite !Zmod.of_Z_add, !Zmod.of_Z_1.
      generalize inv4. intros i. ring.
    - rewrite four_inv4. ring. }
  f_equal; f_equal; f_equal.
  - ring.
  - etransitivity; [|apply (Hq (Zmod.add g g'))]. generalize inv4. intros i. ring.
  - ring.
Qed.

Lemma toy_laws : Laws toy_library toy_model.
Proof.
  assert (0 < q) as Hq by reflexivity.
  split.
  - intros a b c. apply Zmod.add_assoc.
  - intros a b. apply Zmod.add_comm.
  - intros a. apply Zmod.add_0_l.
  - rewrite toy_smul by lia. cbn [Bpt toy_model]. rewrite Zmod.mul_1_r.
    apply Zmod.to_Z_inj. now rewrite Zmod.to_Z_of_Z, Z_mod_same_full, Zmod.to_Z_0.
  - intros g. cbn [enc toy_model]. unfold toy_enc.
    now rewrite length_rev, length_be_bytes.
  - vm_compute. reflexivity.
  - intros p _. reflexivity.
  - intros r _. reflexivity.
  - intros s p. cbn [FromBytes toy_library valid toy_model]. unfold toy_FromBytes.
    destruct (_ && _); intros [= <-]; eexists; reflexivity.
  - intros g. exists (pt g). cbn [FromBytes toy_library enc el toy_model].
    unfold toy_FromBytes, toy_enc.
    pose proof (Zmod.unsigned_pos_bound g Hq) as Hg.
    pose proof q_lt_256_32 as Hq32. change (Z.of_nat N2) with (Z.of_nat 32) in Hq32.
    rewrite le_val_rev, SetBytes_be_bytes, Z.mod_small by lia.
    replace ((1 <=? Zmod.to_Z g + 1) && (Zmod.to_Z g + 1 <=? q)) with true
      by (symmetry; apply andb_true_intro; split; apply Z.leb_le; lia).
    now rewrite Z.add_simpl_r, Zmod.of_Z_to_Z, toy_el_pt.
  - intros a A b _ _ _. split; [eexists; reflexivity|].
    cbn [GeDoubleScalarMultVartime toy_library elP el gadd Bpt toy_model].
    rewrite toy_elP_ppt, !toy_smul by apply le_val_range.
    now rewrite Zmod.mul_1_r.
  - intros a _. split; [eexists; reflexivity|].
    cbn [GeScalarMultBase toy_library el Bpt toy_model].
    rewrite toy_el_pt, toy_smul by apply le_val_range.
    now rewrite Zmod.mul_1_r.
  - intros p p' [g ->] [g' ->]. rewrite toy_GeAdd.
    split; [eexists; reflexivity|].
    cbn [el gadd toy_model]. now rewrite !toy_el_pt.
Qed.

(** Concrete inputs: a seed, the entropy of two provers, a message. *)
Definition seed0 : list byte := repeat x07 32.
Definition rand1 : list byte := repeat x09 32.
Definition rand2 : list byte := repeat x0b 40.
Definition msg0 : list byte := list_byte_of_string "alice@example".

Definition keys0 : list byte * list byte :=
  Eval vm_compute in
    match GenerateKey seed0 with Ok ks => ks | _ => ([], []) end.
Definition pk0 : list byte := fst keys0.
Definition sk0 : list byte := snd keys0.
Definition pi1 : list byte :=
  Eval vm_compute in
    match ECVRF_prove rand1 pk0 sk0 msg0 with Ok pi => pi | _ => [] end.
Definition pi2 : list byte :=
  Eval vm_compute in
    match ECVRF_prove rand2 pk0 sk0 msg0 with Ok pi => pi | _ => [] end.

Example pi1_pi2_differ : pi1 ≠ pi2 ∧ length pi1 = 81%nat.
Proof. split; [discriminate|reflexivity]. Qed.

(** The model runs: the verifier accepts the proof for the message it was
    made for and rejects it for another one. *)
Example verify_runs :
  ECVRF_verify pk0 pi1 msg0 = Ok true
  ∧ ECVRF_verify pk0 pi1 (list_byte_of_string "mallory@example") = Ok false.
Proof. split; vm_compute; reflexivity. Qed.


Lemma prove_length_layout_witness :
  ECVRF_prove rand1 pk0 sk0 msg0 = Ok pi1 ∧ length pi1 = 81%nat.
Proof.
  assert (ECVRF_prove rand1 pk0 sk0 msg0 = Ok pi1) as Hp by (vm_compute; reflexivity).
  split; [exact Hp|].
  destruct (@prove_length_layout toy_library rand1 pk0 sk0 msg0 pi1 Hp)
    as (x & h & sign & kp & ks & k & c & s & _ & _ & _ & _ & _ & Hlen & _).
  exact Hlen.
Defined.

Lemma proof2hash_deterministic_witness :
  ECVRF_prove rand1 pk0 sk0 msg0 = Ok pi1
  ∧ ECVRF_prove rand2 pk0 sk0 msg0 = Ok pi2
  ∧ ECVRF_proof2hash pi2 = ECVRF_proof2hash pi1.
Proof.
  assert (ECVRF_prove rand1 pk0 sk0 msg0 = Ok pi1) as H1 by (vm_compute; reflexivity).
  assert (ECVRF_prove rand2 pk0 sk0 msg0 = Ok pi2) as H2 by (vm_compute; reflexivity).
  split; [exact H1|]. split; [exact H2|].
  destruct (@proof2hash_deterministic toy_library rand1 rand2 pk0 sk0 msg0 pi1 pi2 H1 H2)
    as (x & h & _ & _ & _ & Heq & _).
  exact Heq.
Defined.

End Toy.

(** ** Facts about the store and the keys *)

Module RaftlogFacts.
Import Raftlog BytesFacts.

Lemma bytes_leb_refl a : bytes_leb a a = true.
Proof.
  induction a as [|x a IH]; [reflexivity|].
  cbn. now rewrite Z.ltb_irrefl, Z.eqb_refl.
Qed.

Lemma bytes_leb_total a b : bytes_leb a b = true ∨ bytes_leb b a = true.
Proof.
  revert b. induction a as [|x a IH]; intros [|y b]; cbn; auto.
  destruct (Z.ltb_spec (byte_to_Z x) (byte_to_Z y)); [auto|].
  destruct (Z.ltb_spec (byte_to_Z y) (byte_to_Z x)); [auto|].
  destruct (Z.eqb_spec (byte_to_Z x) (byte_to_Z y)); [|lia].
  destruct (Z.eqb_spec (byte_to_Z y) (byte_to_Z x)); [|lia].
  apply IH.
Qed.

Lemma bytes_leb_trans a b c :
  bytes_leb a b = true → bytes_leb b c = true → bytes_leb a c = true.
Proof.
  revert b c. induction a as [|x a IH]; intros [|y b] [|z c]; cbn; try congruence.
  destruct (Z.ltb_spec (byte_to_Z x) (byte_to_Z y)),
           (Z.ltb_spec (byte_to_Z y) (byte_to_Z z)),
           (Z.ltb_spec (byte_to_Z x) (byte_to_Z z)),
           (Z.eqb_spec (byte_to_Z x) (byte_to_Z y)),
           (Z.eqb_spec (byte_to_Z y) (byte_to_Z z)),
           (Z.eqb_spec (byte_to_Z x) (byte_to_Z z));
    try congruence; try lia.
  apply IH.
Qed.

Lemma bytes_leb_antisym a b :
  bytes_leb a b = true → bytes_leb b a = true → a = b.
Proof.
  revert b. induction a as [|x a IH]; intros [|y b]; cbn; try congruence.
  destruct (Z.ltb_spec (byte_to_Z x) (byte_to_Z y)),
           (Z.ltb_spec (byte_to_Z y) (byte_to_Z x)),
           (Z.eqb_spec (byte_to_Z x) (byte_to_Z y)),
           (Z.eqb_spec (byte_to_Z y) (byte_to_Z x));
    try congruence; try lia.
  intros H1 H2. f_equal; [now apply byte_to_Z_inj|now apply IH].
Qed.

Lemma bytes_leb_app p a b : bytes_leb (p ++ a) (p ++ b) = bytes_leb a b.
Proof.
  induction p as [|x p IH]; [reflexivity|].
  cbn. now rewrite Z.ltb_irrefl, Z.eqb_refl.
Qed.

(** On strings of one length the byte order is the order of the big-endian
    values. *)
Lemma bytes_leb_SetBytes x y :
  length x = length y → bytes_leb x y = (SetBytes x <=? SetBytes y).
Proof.
  revert y. induction x as [|a x IH]; intros [|b y] Hl; try discriminate; [reflexivity|].
  injection Hl as Hl. cbn [bytes_leb]. rewrite !SetBytes_cons, Hl.
  pose proof (SetBytes_range x) as Hx. pose proof (SetBytes_range y) as Hy.
  rewrite Hl in Hx. set (M := 256 ^ Z.of_nat (length y)) in *.
  destruct (Z.ltb_spec (byte_to_Z a) (byte_to_Z b)).
  - symmetry. apply Z.leb_le. nia.
  - destruct (Z.eqb_spec (byte_to_Z a) (byte_to_Z b)) as [->|Hne].
    + rewrite (IH y Hl).
      destruct (Z.leb_spec (SetBytes x) (SetBytes y));
        symmetry; [apply Z.leb_le|apply Z.leb_gt]; lia.
    + symmetry. apply Z.leb_gt. nia.
Qed.

Lemma bytes_leb_be n a b :
  0 <= a < 256 ^ Z.of_nat n → 0 <= b < 256 ^ Z.of_nat n →
  bytes_leb (be_bytes n a) (be_bytes n b) = (a <=? b).
Proof.
  intros Ha Hb. rewrite bytes_leb_SetBytes by now rewrite !length_be_bytes.
  now rewrite !SetBytes_be_bytes, !Z.mod_small.
Qed.

Lemma has_prefix_spec p k : has_prefix p k = true ↔ ∃ r, k = p ++ r.
Proof.
  revert k. induction p as [|x p IH]; intros k; cbn.
  - split; [eauto|reflexivity].
  - destruct k as [|y k].
    + split; [discriminate|]. intros (r & Hr). discriminate.
    + destruct (decide (x = y)) as [->|Hne].
      * rewrite IH. split; intros (r & Hr); exists r; [now rewrite Hr|now injection Hr].
      * split; [discriminate|]. intros (r & Hr). injection Hr as -> _. contradiction.
Qed.

(** A key between two keys that share a prefix has that prefix. *)
Lemma Range_prefix p a b k :
  Range (p ++ a) (p ++ b) k = true → ∃ r, k = p ++ r ∧ Range a b r = true.
Proof.
  revert k. induction p as [|x p IH]; intros k H; [eauto|].
  unfold Range in H. apply andb_true_iff in H as [H1 H2].
  apply negb_true_iff in H2.
  destruct k as [|y k]; [discriminate|]. cbn in H1, H2.
  destruct (Z.ltb_spec (byte_to_Z x) (byte_to_Z y)); [|].
  - destruct (Z.eqb_spec (byte_to_Z x) (byte_to_Z y)); [lia|discriminate].
  - destruct (Z.eqb_spec (byte_to_Z x) (byte_to_Z y)) as [Heq|]; [|discriminate].
    apply byte_to_Z_inj in Heq as <-.
    destruct (IH k) as (r & -> & Hr).
    { unfold Range. now rewrite H1, H2. }
    exists r. split; [reflexivity|assumption].
Qed.

Lemma Range_app p a b r : Range (p ++ a) (p ++ b) (p ++ r) = Range a b r.
Proof. unfold Range. now rewrite !bytes_leb_app. Qed.

Lemma pow_256_8 : 256 ^ Z.of_nat 8 = 2 ^ 64.
Proof. reflexivity. Qed.

Lemma Range_PutUint64 lo hi i :
  0 <= lo < 2 ^ 64 → 0 <= hi < 2 ^ 64 → 0 <= i < 2 ^ 64 →
  Range (PutUint64 lo) (PutUint64 hi) (PutUint64 i) = true ↔ lo <= i < hi.
Proof.
  intros Hlo Hhi Hi. unfold Range. rewrite !PutUint64_be.
  rewrite !bytes_leb_be by (rewrite pow_256_8; assumption).
  rewrite andb_true_iff, negb_true_iff, Z.leb_le, Z.leb_gt. reflexivity.
Qed.

Lemma length_PutUint64 v : length (PutUint64 v) = 8%nat.
Proof. reflexivity. Qed.

Lemma PutUint64_inj a b :
  0 <= a < 2 ^ 64 → 0 <= b < 2 ^ 64 → PutUint64 a = PutUint64 b → a = b.
Proof.
  intros Ha Hb. rewrite !PutUint64_be. apply be_bytes_inj; now rewrite pow_256_8.
Qed.

Lemma Uint64_PutUint64 {E} v : 0 <= v < 2 ^ 64 → Uint64 (E:=E) (PutUint64 v) = Ok v.
Proof.
  intros Hv. unfold Uint64. rewrite length_PutUint64.
  destruct (decide _) as [_|Hn]; [|lia]. f_equal.
  rewrite take_ge by (rewrite length_PutUint64; lia).
  now rewrite PutUint64_be, SetBytes_be_bytes, pow_256_8, Z.mod_small.
Qed.

#[global] Instance item_le_total : Total item_le.
Proof. intros x y. apply bytes_leb_total. Qed.

#[global] Instance item_le_trans : Transitive item_le.
Proof. intros x y z. apply bytes_leb_trans. Qed.

(** What an iterator over a healthy store gives. *)
Lemma NewIterator_healthy db r items e :
  readFault db = None → NewIterator db r = (items, e) →
  e = None ∧ StronglySorted item_le items ∧ NoDup (items.*1)
  ∧ ∀ k v, (k, v) ∈ items ↔ store db !! k = Some v ∧ r k = true.
Proof.
  unfold NewIterator. intros -> [= <- <-].
  set (l := filter (λ kv, r kv.1 = true) (map_to_list (store db))).
  pose proof (merge_sort_Permutation item_le l) as Hperm.
  split; [reflexivity|]. split; [apply StronglySorted_merge_sort; apply _|]. split.
  - rewrite Hperm. unfold l.
    eapply sublist_NoDup; [apply (NoDup_fst_map_to_list (store db))|].
    apply fmap_sublist, sublist_filter.
  - intros k v. rewrite Hperm. unfold l.
    rewrite list_elem_of_filter, elem_of_map_to_list. cbn. tauto.
Qed.

(** An increasing list of indices is determined by its elements. *)
Lemma sorted_lt_unique (l1 l2 : list Z) :
  StronglySorted Z.lt l1 → StronglySorted Z.lt l2 →
  (∀ i, i ∈ l1 ↔ i ∈ l2) → l1 = l2.
Proof.
  intros H1. revert l2. induction H1 as [|a l1 H1 IH Ha]; intros l2 H2 Hmem.
  - destruct l2 as [|b l2]; [reflexivity|].
    exfalso. eapply elem_of_nil. apply Hmem. left.
  - destruct H2 as [|b l2 H2 Hb].
    { exfalso. eapply elem_of_nil. apply Hmem. left. }
    rewrite Forall_forall in Ha, Hb.
    assert (a = b) as <-.
    { pose proof (proj1 (Hmem a) ltac:(left)) as Hal2.
      pose proof (proj2 (Hmem b) ltac:(left)) as Hbl1.
      apply elem_of_cons in Hal2 as [?|Hal2]; [assumption|].
      apply elem_of_cons in Hbl1 as [?|Hbl1]; [congruence|].
      specialize (Ha _ Hbl1). specialize (Hb _ Hal2). lia. }
    f_equal. apply IH; [assumption|]. intros i. split; intros Hi.
    + pose proof (proj1 (Hmem i) ltac:(now right)) as Hi2.
      apply elem_of_cons in Hi2 as [->|]; [|assumption].
      specialize (Ha _ Hi). lia.
    + pose proof (proj2 (Hmem i) ltac:(now right)) as Hi1.
      apply elem_of_cons in Hi1 as [->|]; [|assumption].
      specialize (Hb _ Hi). lia.
Qed.

Section Storage.
Context {PB : RaftPB}.

(** The bytes stored for the log entry with index [i]. *)
Definition stored (s : raftStorage) (db : DB) (i : Z) : option (list byte) :=
  store db !! getEntryKey s i.

(** The layout of the store: the keys below the entry prefix are entry keys,
    the prefix followed by a [uint64]. *)
Definition entries_wf (s : raftStorage) (db : DB) : Prop :=
  ∀ k, is_Some (store db !! k) → has_prefix (entryKeyPrefix s) k = true →
       ∃ i, 0 <= i < 2 ^ 64 ∧ k = getEntryKey s i.

Lemma getEntryKey_inj s a b :
  0 <= a < 2 ^ 64 → 0 <= b < 2 ^ 64 → getEntryKey s a = getEntryKey s b → a = b.
Proof.
  intros Ha Hb H. unfold getEntryKey in H. apply app_inv_head in H.
  now apply PutUint64_inj.
Qed.

Lemma getEntryKey_le s a b :
  0 <= a < 2 ^ 64 → 0 <= b < 2 ^ 64 →
  bytes_leb (getEntryKey s a) (getEntryKey s b) = (a <=? b).
Proof.
  intros Ha Hb. unfold getEntryKey. rewrite bytes_leb_app, !PutUint64_be.
  apply bytes_leb_be; now rewrite pow_256_8.
Qed.

(** Items in key order whose keys are entry keys have increasing indices. *)
Lemma sorted_items_indices s (items : list (list byte * list byte)) :
  (∀ kv, kv ∈ items → ∃ i, 0 <= i < 2 ^ 64 ∧ kv.1 = getEntryKey s i) →
  StronglySorted item_le items → NoDup (items.*1) →
  ∃ idxs, items.*1 = getEntryKey s <$> idxs ∧ StronglySorted Z.lt idxs
          ∧ Forall (λ i, 0 <= i < 2 ^ 64) idxs.
Proof.
  induction items as [|[k v] items IH]; intros Hkeys Hsorted Hnd.
  - exists []. repeat split; constructor.
  - apply StronglySorted_inv in Hsorted as [Hsorted Hhd].
    cbn [fmap list_fmap fst] in Hnd. apply NoDup_cons in Hnd as [Hnotin Hnd].
    destruct IH as (idxs & Hidx & Hs & Hr); [|assumption|assumption|].
    { intros kv Hkv. apply Hkeys. now right. }
    destruct (Hkeys (k, v)) as (i & Hi & Hk); [left|]. cbn in Hk. subst k.
    exists (i :: idxs). split; [cbn; now rewrite <- Hidx|]. split; [|now constructor].
    constructor; [assumption|].
    rewrite Forall_forall. intros j Hj.
    rewrite Forall_forall in Hr. specialize (Hr j Hj).
    assert (getEntryKey s j ∈ items.*1) as Hin by (rewrite Hidx; now apply list_elem_of_fmap_2).
    apply list_elem_of_fmap in Hin as ([k' v'] & Hk' & Hin). cbn in Hk'.
    rewrite Forall_forall in Hhd. specialize (Hhd _ Hin).
    unfold item_le in Hhd. cbn in Hhd. rewrite <- Hk', getEntryKey_le in Hhd by assumption.
    apply Z.leb_le in Hhd.
    destruct (Z.eq_dec i j) as [->|Hne]; [|lia].
    exfalso. apply Hnotin. rewrite Hidx. now apply list_elem_of_fmap_2.
Qed.

(** The iterator of [Entries] over a well-formed store: the stored entries
    with an index in [[lo, hi)], by increasing index. *)
Lemma range_iterator s db lo hi items e :
  entries_wf s db → readFault db = None →
  0 <= lo < 2 ^ 64 → 0 <= hi < 2 ^ 64 →
  NewIterator db (Range (getEntryKey s lo) (getEntryKey s hi)) = (items, e) →
  e = None ∧
  ∃ idxs, StronglySorted Z.lt idxs
    ∧ (∀ i, i ∈ idxs ↔ lo <= i < hi ∧ is_Some (stored s db i))
    ∧ Forall2 (λ i kv, stored s db i = Some kv.2) idxs items.
Proof.
  intros Hwf Hrf Hlo Hhi Hit.
  destruct (NewIterator_healthy _ _ _ _ Hrf Hit) as (-> & Hsorted & Hnd & Hmem).
  split; [reflexivity|].
  assert (∀ k v, (k, v) ∈ items →
            ∃ i, (0 <= i < 2 ^ 64 ∧ lo <= i < hi) ∧ k = getEntryKey s i
                 ∧ stored s db i = Some v) as Hitem.
  { intros k v Hkv. apply Hmem in Hkv as [Hst Hrange].
    unfold getEntryKey in Hrange. apply Range_prefix in Hrange as (r & -> & Hr).
    destruct (Hwf (entryKeyPrefix s ++ r)) as (i & Hi & Hk).
    - rewrite Hst. eauto.
    - apply has_prefix_spec. eauto.
    - unfold getEntryKey in Hk. apply app_inv_head in Hk. subst r.
      apply Range_PutUint64 in Hr; try assumption.
      exists i. repeat split; try lia. unfold stored, getEntryKey. exact Hst. }
  destruct (sorted_items_indices s items) as (idxs & Hidx & Hs & Hr); try assumption.
  { intros [k v] Hkv. destruct (Hitem k v Hkv) as (i & [Hi _] & Hk & _). eauto. }
  rewrite Forall_forall in Hr.
  exists idxs. split; [assumption|]. split.
  - intros i. split.
    + intros Hin. assert (getEntryKey s i ∈ items.*1) as Hk
        by (rewrite Hidx; now apply list_elem_of_fmap_2).
      apply list_elem_of_fmap in Hk as ([k v] & Hk & Hkv). cbn in Hk. subst k.
      destruct (Hitem _ _ Hkv) as (j & [Hj Hjr] & Hk & Hst).
      assert (i = j) as <- by (apply (getEntryKey_inj s); [now apply Hr|assumption|exact Hk]).
      split; [assumption|]. rewrite Hst. eauto.
    + intros [Hi [v Hv]].
      assert ((getEntryKey s i, v) ∈ items) as Hkv.
      { apply Hmem. split; [exact Hv|]. unfold getEntryKey. rewrite Range_app.
        apply Range_PutUint64; try assumption; lia. }
      assert (getEntryKey s i ∈ items.*1) as Hk.
      { apply list_elem_of_fmap. exists (getEntryKey s i, v). split; [reflexivity|assumption]. }
      rewrite Hidx in Hk. apply list_elem_of_fmap in Hk as (j & Hk & Hj).
      assert (i = j) as -> by (apply (getEntryKey_inj s); [lia|now apply Hr|exact Hk]).
      assumption.
  - assert (∀ k v, (k, v) ∈ items → store db !! k = Some v) as Hst
      by (intros k v Hkv; now apply Hmem in Hkv).
    clear -Hidx Hst. revert idxs Hidx.
    induction items as [|[k v] items IH]; intros [|i idxs] Hidx; try discriminate; [constructor|].
    cbn in Hidx. injection Hidx as Hk Hidx. constructor.
    + cbn. unfold stored. rewrite <- Hk. apply Hst. now left.
    + apply IH; [|assumption]. intros k' v' Hin. apply Hst. now right.
Qed.

Fixpoint total_size (es : list Entry) : Z :=
  match es with
  | [] => 0
  | e :: es' => Entry_Size e + total_size es'
  end.

(** The specification's accumulation: entries are taken while the running
    size, the new entry included, does not exceed [maxSize]; the first
    entry is always taken. *)
Fixpoint accumulate_from (running maxSize : Z) (es : list Entry) : list Entry :=
  match es with
  | [] => []
  | e :: es' =>
      if maxSize <? running + Entry_Size e then []
      else e :: accumulate_from (running + Entry_Size e) maxSize es'
  end.

Definition accumulate (maxSize : Z) (es : list Entry) : list Entry :=
  match es with
  | [] => []
  | e :: es' => e :: accumulate_from (Entry_Size e) maxSize es'
  end.

(** [entry.Size()] counts at least the three fixed fields of an entry. *)
Hypothesis Entry_Size_pos : ∀ e, 0 < Entry_Size e.

Lemma total_size_nonneg es : 0 <= total_size es.
Proof.
  induction es as [|e es IH]; cbn; [lia|]. pose proof (Entry_Size_pos e). lia.
Qed.

Lemma total_size_app a b : total_size (a ++ b) = total_size a + total_size b.
Proof. induction a as [|e a IH]; cbn; [reflexivity|]. rewrite IH. lia. Qed.

Lemma accumulate_from_full running maxSize es :
  maxSize <= running → accumulate_from running maxSize es = [].
Proof.
  intros H. destruct es as [|e es]; [reflexivity|]. cbn.
  pose proof (Entry_Size_pos e).
  destruct (Z.ltb_spec maxSize (running + Entry_Size e)); [reflexivity|lia].
Qed.

Lemma accumulate_from_spec running maxSize es :
  ∃ rest, es = accumulate_from running maxSize es ++ rest
    ∧ (accumulate_from running maxSize es ≠ [] →
       running + total_size (accumulate_from running maxSize es) <= maxSize)
    ∧ (∀ e rest', rest = e :: rest' →
       maxSize < running + total_size (accumulate_from running maxSize es) + Entry_Size e).
Proof.
  revert running. induction es as [|e es IH]; intros running.
  - exists []. cbn. split; [reflexivity|]. split; [intros H; now destruct H|discriminate].
  - cbn [accumulate_from]. destruct (Z.ltb_spec maxSize (running + Entry_Size e)) as [Hlt|Hge].
    + exists (e :: es). split; [reflexivity|]. split; [intros H; now destruct H|].
      intros e' rest' [= <- <-]. cbn. lia.
    + destruct (IH (running + Entry_Size e)) as (rest & Hes & Hin & Hout).
      exists rest. split; [cbn; now rewrite <- Hes|]. split.
      * intros _. cbn.
        destruct (accumulate_from (running + Entry_Size e) maxSize es) eqn:E.
        { cbn. lia. }
        { rewrite <- E in *. specialize (Hin ltac:(rewrite E; discriminate)). lia. }
      * intros e' rest' Hr. specialize (Hout e' rest' Hr). cbn. lia.
Qed.

Lemma Entries_loop_acc items es acc sz maxSize :
  Forall2 (λ kv e, Entry_Unmarshal kv.2 = Done e) items es →
  acc ≠ [] → 0 <= sz < maxSize → sz + total_size es < 2 ^ 64 →
  Entries_loop items acc sz maxSize = (acc ++ accumulate_from sz maxSize es, None).
Proof.
  intros HF. revert acc sz. induction HF as [|[k v] e items es Hdec HF IH];
    intros acc sz Hacc Hsz Hsum.
  - cbn. now rewrite app_nil_r.
  - cbn [Entries_loop accumulate_from]. cbn in Hdec. rewrite Hdec.
    cbn in Hsum.
    pose proof (Entry_Size_pos e) as He. pose proof (total_size_nonneg es) as Hes.
    unfold wrap64. rewrite Z.mod_small by lia.
    assert ((0 <? Z.of_nat (length acc)) = true) as ->
      by (apply Z.ltb_lt; destruct acc; [congruence|cbn; lia]).
    rewrite andb_true_r.
    destruct (Z.ltb_spec maxSize (sz + Entry_Size e)) as [Hlt|Hge].
    + now rewrite app_nil_r.
    + destruct (Z.leb_spec maxSize (sz + Entry_Size e)) as [Hle|Hgt].
      * rewrite accumulate_from_full by lia. reflexivity.
      * rewrite IH; [now rewrite <- app_assoc| |lia|lia].
        destruct acc; discriminate.
Qed.

Lemma Entries_loop_accumulate items es maxSize :
  Forall2 (λ kv e, Entry_Unmarshal kv.2 = Done e) items es →
  total_size es < 2 ^ 64 →
  Entries_loop items [] 0 maxSize = (accumulate maxSize es, None).
Proof.
  intros HF Hsum. destruct HF as [|[k v] e items es Hdec HF]; [reflexivity|].
  cbn [Entries_loop accumulate]. cbn in Hdec. rewrite Hdec.
  cbn in Hsum.
  pose proof (Entry_Size_pos e) as He. pose proof (total_size_nonneg es) as Hes.
  unfold wrap64. rewrite Z.add_0_l, Z.mod_small by lia.
  cbn [length Z.of_nat]. rewrite Z.ltb_irrefl, andb_false_r. cbn [app].
  destruct (Z.leb_spec maxSize (Entry_Size e)) as [Hle|Hgt].
  - now rewrite accumulate_from_full.
  - apply (Entries_loop_acc items es [e]); [assumption|discriminate|lia|lia].
Qed.

Lemma accumulate_spec maxSize es :
  ∃ rest, es = accumulate maxSize es ++ rest
    ∧ (es ≠ [] → accumulate maxSize es ≠ [])
    ∧ ((1 < length (accumulate maxSize es))%nat → total_size (accumulate maxSize es) <= maxSize)
    ∧ (∀ e rest', rest = e :: rest' →
       maxSize < total_size (accumulate maxSize es) + Entry_Size e).
Proof.
  destruct es as [|e es].
  - exists []. cbn. repeat split; [congruence|lia|discriminate].
  - cbn [accumulate]. destruct (accumulate_from_spec (Entry_Size e) maxSize es)
      as (rest & Hes & Hin & Hout).
    exists rest. split; [cbn; now rewrite <- Hes|]. split; [discriminate|]. split.
    + intros Hlen. cbn. apply Hin. destruct (accumulate_from _ _ _); [cbn in Hlen; lia|discriminate].
    + intros e' rest' Hr. specialize (Hout e' rest' Hr). cbn. lia.
Qed.

(** C5.  On a well-formed, readable store, [Entries(lo, hi, maxSize)] walks
    the stored entries with an index in [[lo, hi)] by increasing index and
    returns a prefix [taken] of their decoded forms: never empty when the
    range holds an entry, of total size at most [maxSize] as soon as it has
    a second entry, and cut exactly where the next entry would take the
    running size strictly above [maxSize]. *)
Theorem Entries_accumulates s db lo hi maxSize :
  entries_wf s db → readFault db = None →
  0 <= lo < 2 ^ 64 → 0 <= hi < 2 ^ 64 →
  ∃ idxs,
    StronglySorted Z.lt idxs
    ∧ (∀ i, i ∈ idxs ↔ lo <= i < hi ∧ is_Some (stored s db i))
    ∧ ∀ es,
        Forall2 (λ i e, ∃ v, stored s db i = Some v ∧ Entry_Unmarshal v = Done e) idxs es →
        total_size es < 2 ^ 64 →
        ∃ taken rest,
          Entries s db lo hi maxSize = (taken, None)
          ∧ taken = accumulate maxSize es
          ∧ es = taken ++ rest
          ∧ (es ≠ [] → taken ≠ [])
          ∧ ((1 < length taken)%nat → total_size taken <= maxSize)
          ∧ (∀ e rest', rest = e :: rest' → maxSize < total_size taken + Entry_Size e).
Proof.
  intros Hwf Hrf Hlo Hhi.
  destruct (NewIterator db (Range (getEntryKey s lo) (getEntryKey s hi)))
    as [items e] eqn:Hit.
  destruct (range_iterator s db lo hi items e Hwf Hrf Hlo Hhi Hit)
    as (-> & idxs & Hsorted & Hmem & Hvals).
  exists idxs. split; [assumption|]. split; [assumption|].
  intros es Hes Hsum.
  assert (Forall2 (λ kv e, Entry_Unmarshal kv.2 = Done e) items es) as Hdec.
  { clear -Hvals Hes. revert es Hes.
    induction Hvals as [|i kv idxs items Hi Hvals IH]; intros es Hes.
    - inversion Hes. constructor.
    - inversion Hes as [|i' e idxs' es' (v & Hv & He) Hes']; subst.
      constructor; [|now apply IH]. rewrite Hi in Hv. now injection Hv as <-. }
  destruct (accumulate_spec maxSize es) as (rest & Hsplit & Hne & Hin & Hout).
  exists (accumulate maxSize es), rest.
  split; [|repeat split; assumption].
  unfold Entries. rewrite Hit. now rewrite (Entries_loop_accumulate items es maxSize Hdec Hsum).
Qed.

(** *** [save] *)

Lemma LastIndex_range s db lastIndex :
  LastIndex s db = Ok lastIndex → 0 <= lastIndex < 2 ^ 64.
Proof.
  unfold LastIndex. destruct (NewIterator db _) as [items itError].
  destruct (last items) as [[k v]|].
  - unfold Uint64. destruct (decide _) as [Hl|]; [|discriminate]. cbn.
    destruct itError; [discriminate|]. intros [= <-].
    pose proof (SetBytes_range (take 8 (drop (length (entryKeyPrefix s)) k))) as Hr.
    rewrite length_take in Hr.
    replace (8 `min` length (drop (length (entryKeyPrefix s)) k))%nat with 8%nat in Hr by lia.
    exact Hr.
  - destruct itError; [discriminate|]. intros [= <-]. lia.
Qed.

(** With nothing stored at [2^64 - 1], the clearing loop deletes the keys of
    [ix .. lastIndex] and ends, whatever fuel it is given beyond the number
    of its iterations. *)
Lemma clear_loop_ends s fuel ix lastIndex wb :
  0 <= ix → lastIndex < MaxUint64 → ix <= lastIndex + 1 →
  (Z.to_nat (lastIndex - ix + 1) ≤ fuel)%nat →
  clear_loop s fuel ix lastIndex wb
  = Some (wb ++ ((λ i, Delete (getEntryKey s i)) <$> seqZ ix (lastIndex - ix + 1))).
Proof.
  unfold MaxUint64. revert ix wb. induction fuel as [|fuel IH]; intros ix wb Hix Hmax Hle Hfuel.
  - cbn [clear_loop]. destruct (Z.leb_spec ix lastIndex); [lia|].
    rewrite seqZ_nil by lia. cbn. now rewrite app_nil_r.
  - cbn [clear_loop]. destruct (Z.leb_spec ix lastIndex).
    + unfold wrap64. rewrite Z.mod_small by lia.
      rewrite IH by lia. rewrite (seqZ_cons ix) by lia. cbn [fmap list_fmap].
      rewrite <- app_assoc. cbn [app].
      replace (lastIndex - (ix + 1) + 1) with (Z.pred (lastIndex - ix + 1)) by lia.
      replace (ix + 1) with (Z.succ ix) by lia. reflexivity.
    + rewrite seqZ_nil by lia. cbn. now rewrite app_nil_r.
Qed.

(** With an entry stored at [2^64 - 1], [ix <= lastIndex] holds for every
    [uint64]: the loop does not end. *)
Lemma clear_loop_diverges s fuel ix wb :
  0 <= ix < 2 ^ 64 → clear_loop s fuel ix MaxUint64 wb = None.
Proof.
  revert ix wb. induction fuel as [|fuel IH]; intros ix wb Hix; cbn [clear_loop];
    (destruct (Z.leb_spec ix MaxUint64) as [_|Hgt]; [|unfold MaxUint64 in Hgt; lia]).
  - reflexivity.
  - apply IH. unfold wrap64. apply Z.mod_pos_bound. lia.
Qed.

Lemma clear_loop_keys s fuel ix lastIndex wb wb' :
  0 <= ix → 0 <= lastIndex < 2 ^ 64 →
  clear_loop s fuel ix lastIndex wb = Some wb' →
  ∃ js, wb' = wb ++ ((λ i, Delete (getEntryKey s i)) <$> js)
        ∧ Forall (λ j, ix <= j <= lastIndex) js.
Proof.
  revert ix wb. induction fuel as [|fuel IH]; intros ix wb Hix Hlast; cbn [clear_loop];
    destruct (Z.leb_spec ix lastIndex) as [Hle|Hgt]; try discriminate.
  - intros [= <-]. exists []. cbn. now rewrite app_nil_r.
  - destruct (Z.eq_dec lastIndex MaxUint64) as [->|Hne].
    { rewrite clear_loop_diverges; [discriminate|].
      unfold wrap64. apply Z.mod_pos_bound. lia. }
    unfold MaxUint64 in Hne. unfold wrap64. rewrite Z.mod_small by lia.
    intros H. apply IH in H as (js & -> & Hjs); [|lia|lia].
    exists (ix :: js). split; [now rewrite <- app_assoc|].
    constructor; [lia|]. eapply Forall_impl; [exact Hjs|]. cbn. intros j Hj. lia.
  - intros [= <-]. exists []. cbn. now rewrite app_nil_r.
Qed.

(** All entries marshalled, or the first error. *)
Fixpoint marshal_all (entries : list Entry) : result (list (list byte)) :=
  match entries with
  | [] => Done []
  | e :: entries' =>
      match Entry_Marshal e with
      | Done b =>
          match marshal_all entries' with
          | Done bs => Done (b :: bs)
          | Failed err => Failed err
          end
      | Failed err => Failed err
      end
  end.

Definition puts (s : raftStorage) (entries : list Entry) (bs : list (list byte)) : list op :=
  zip_with (λ e b, Put (getEntryKey s (Index e)) b) entries bs.

Lemma append_loop_spec s entries wb :
  append_loop s entries wb
  = match marshal_all entries with
    | Done bs => Ok (wb ++ puts s entries bs)
    | Failed err => Err err
    end.
Proof.
  revert wb. induction entries as [|e entries IH]; intros wb; cbn [append_loop marshal_all].
  - cbn. now rewrite app_nil_r.
  - destruct (Entry_Marshal e) as [b|err]; cbn; [|reflexivity].
    rewrite IH. destruct (marshal_all entries) as [bs|err]; [|reflexivity].
    unfold puts. cbn. now rewrite <- app_assoc.
Qed.

(** [s.db.Write(wb)] as [save] ends with it. *)
Definition commit (db : DB) (wb : list op) : go error unit * DB :=
  match writeFault db with
  | Some err => (Err err, db)
  | None =>
      (Ok tt, {| store := fold_left apply_op wb (store db);
                 readFault := readFault db; writeFault := writeFault db |})
  end.

(** The batch of [save] in the words of the specification: the hard state,
    the deletion of the entries [first .. last], the new entries. *)
Definition batch (s : raftStorage) (stateBytes : list byte) (first last : Z)
    (entries : list Entry) (bs : list (list byte)) : list op :=
  [Put (hardStateKey s) stateBytes]
  ++ ((λ i, Delete (getEntryKey s i)) <$> seqZ first (last - first + 1))
  ++ puts s entries bs.

(** Whatever [save] does short of returning nil, the store is untouched. *)
Lemma save_unchanged s db state entries r db' :
  save s db state entries = (r, db') → r ≠ Ok tt → db' = db.
Proof.
  unfold save, Write. destruct (HardState_Marshal state) as [stateBytes|e]; [|now intros [= <- <-]].
  match goal with |- context [match ?f with Ok _ => _ | _ => _ end] => destruct f as [wb|e|msg|] end;
    try now intros [= <- <-].
  destruct (writeFault db); intros [= <- <-]; [reflexivity|congruence].
Qed.

Lemma save_Write db wb :
  match Write db wb with
  | (Some err, db') => (Err err, db')
  | (None, db') => (Ok tt, db')
  end = commit db wb.
Proof. unfold Write, commit. now destruct (writeFault db). Qed.

Lemma save_cases s db state entries :
  Forall (λ e, 0 <= Index e < 2 ^ 64) entries →
  (∀ lastIndex, entries ≠ [] → LastIndex s db = Ok lastIndex → lastIndex < MaxUint64) →
  match HardState_Marshal state with
  | Failed err => save s db state entries = (Err err, db)
  | Done stateBytes =>
      match entries with
      | [] => save s db state entries = commit db [Put (hardStateKey s) stateBytes]
      | entry0 :: _ =>
          match LastIndex s db with
          | Ok lastIndex =>
              if lastIndex + 1 <? Index entry0
              then ∃ msg, save s db state entries = (Panic msg, db)
              else
                match marshal_all entries with
                | Done bs =>
                    save s db state entries
                    = commit db (batch s stateBytes (Index entry0) lastIndex entries bs)
                | Failed err => save s db state entries = (Err err, db)
                end
          | Err err => save s db state entries = (Err err, db)
          | Panic msg => save s db state entries = (Panic msg, db)
          | Loops => save s db state entries = (Loops, db)
          end
      end
  end.
Proof.
  intros Htyped Hlast.
  unfold save. destruct (HardState_Marshal state) as [stateBytes|err]; [|reflexivity].
  destruct entries as [|entry0 entries]; [apply save_Write|].
  destruct (LastIndex s db) as [lastIndex|err|msg|] eqn:HLI; cbn [go_bind]; try reflexivity.
  pose proof (LastIndex_range _ _ _ HLI) as Hrange.
  specialize (Hlast lastIndex ltac:(discriminate) eq_refl). unfold MaxUint64 in Hlast.
  apply Forall_cons in Htyped as [H0 _].
  unfold wrap64. rewrite Z.mod_small by lia.
  destruct (Z.ltb_spec (lastIndex + 1) (Index entry0)) as [Hgap|Hok]; [eauto|].
  rewrite clear_loop_ends by (unfold MaxUint64; lia).
  rewrite append_loop_spec.
  destruct (marshal_all (entry0 :: entries)) as [bs|err]; [|reflexivity].
  rewrite save_Write. unfold batch. cbn [app]. reflexivity.
Qed.


Definition op_key (o : op) : list byte :=
  match o with
  | Put k _ => k
  | Delete k => k
  end.

Lemma fold_apply_other (wb : list op) (m : gmap (list byte) (list byte)) k :
  (∀ o, o ∈ wb → op_key o ≠ k) → fold_left apply_op wb m !! k = m !! k.
Proof.
  revert m. induction wb as [|o wb IH]; intros m H; [reflexivity|].
  cbn [fold_left]. rewrite IH by (intros o' Ho'; apply H; now right).
  specialize (H o ltac:(left)). destruct o as [k' v|k']; cbn in *.
  - now apply lookup_insert_ne.
  - now apply lookup_delete_ne.
Qed.

Lemma puts_keys s entries bs o :
  o ∈ puts s entries bs → ∃ e, e ∈ entries ∧ op_key o = getEntryKey s (Index e).
Proof.
  unfold puts. revert bs. induction entries as [|e entries IH]; intros [|b bs] Ho;
    cbn in Ho; try now apply elem_of_nil in Ho.
  apply elem_of_cons in Ho as [->|Ho].
  - exists e. split; [left|reflexivity].
  - destruct (IH bs Ho) as (e' & He' & Hk). exists e'. split; [now right|assumption].
Qed.

(** The store after [save]: the old one, or the old one with the hard
    state put, some entries at or above [entries[0].Index] deleted, and the
    new entries put. *)
Lemma save_result s db state entries r db' :
  Forall (λ e, 0 <= Index e < 2 ^ 64) entries →
  save s db state entries = (r, db') →
  db' = db
  ∨ ∃ stateBytes js bs,
      HardState_Marshal state = Done stateBytes
      ∧ store db' = fold_left apply_op
                      ([Put (hardStateKey s) stateBytes]
                       ++ ((λ i, Delete (getEntryKey s i)) <$> js)
                       ++ puts s entries bs) (store db)
      ∧ (entries = [] → js = [])
      ∧ (∀ e0 tl, entries = e0 :: tl → Forall (λ j, Index e0 <= j < 2 ^ 64) js).
Proof.
  intros Htyped. unfold save.
  destruct (HardState_Marshal state) as [stateBytes|err]; [|intros [= <- <-]; now left].
  destruct entries as [|entry0 entries].
  - rewrite save_Write. unfold commit. destruct (writeFault db); intros [= <- <-]; [now left|].
    right. exists stateBytes, [], []. cbn. repeat split; try reflexivity. discriminate.
  - destruct (LastIndex s db) as [lastIndex|err|msg|] eqn:HLI; cbn [go_bind];
      try (intros [= <- <-]; now left).
    pose proof (LastIndex_range _ _ _ HLI) as Hrange.
    apply Forall_cons in Htyped as [H0 _].
    destruct (_ <? _); [intros [= <- <-]; now left|].
    destruct (clear_loop _ _ _ _ _) as [wb|] eqn:Hclear; [|intros [= <- <-]; now left].
    apply clear_loop_keys in Hclear as (js & -> & Hjs); [|lia|assumption].
    rewrite append_loop_spec.
    destruct (marshal_all (entry0 :: entries)) as [bs|err]; [|intros [= <- <-]; now left].
    rewrite save_Write. unfold commit. destruct (writeFault db); intros [= <- <-]; [now left|].
    right. exists stateBytes, js, bs. cbn [store]. split; [reflexivity|].
    split; [reflexivity|]. split; [discriminate|].
    intros e0 tl [= <- <-]. eapply Forall_impl; [exact Hjs|]. cbn. intros j Hj. lia.
Qed.

Lemma openRaftStorage_keys prefix ic i :
  let s := openRaftStorage prefix ic in
  confStateKey s ≠ hardStateKey s
  ∧ confStateKey s ≠ getEntryKey s i
  ∧ hardStateKey s ≠ getEntryKey s i.
Proof.
  cbn. unfold getEntryKey. cbn [entryKeyPrefix openRaftStorage].
  rewrite <- !app_assoc.
  repeat split; intros H; apply app_inv_head in H; discriminate H.
Qed.

(** Whatever its bounds, the clearing loop only adds deletions of entry
    keys to the batch. *)
Lemma clear_loop_deletes s fuel ix lastIndex wb wb' :
  clear_loop s fuel ix lastIndex wb = Some wb' →
  ∃ js, wb' = wb ++ ((λ i, Delete (getEntryKey s i)) <$> js).
Proof.
  revert ix wb. induction fuel as [|fuel IH]; intros ix wb; cbn [clear_loop];
    destruct (ix <=? lastIndex); try discriminate.
  - intros [= <-]. exists []. cbn. now rewrite app_nil_r.
  - intros H. apply IH in H as (js & ->). exists (ix :: js). now rewrite <- app_assoc.
  - intros [= <-]. exists []. cbn. now rewrite app_nil_r.
Qed.

(** The store after any call of [save]: the old one, or the old one with
    the hard state put, some entry keys deleted and the entries of the batch
    put; nothing is deleted when the batch is empty. *)
Lemma save_writes s db state entries r db' :
  save s db state entries = (r, db') →
  db' = db
  ∨ ∃ stateBytes js bs,
      HardState_Marshal state = Done stateBytes
      ∧ store db' = fold_left apply_op
                      ([Put (hardStateKey s) stateBytes]
                       ++ ((λ i, Delete (getEntryKey s i)) <$> js)
                       ++ puts s entries bs) (store db)
      ∧ (entries = [] → js = []).
Proof.
  unfold save.
  destruct (HardState_Marshal state) as [stateBytes|err]; [|intros [= <- <-]; now left].
  destruct entries as [|entry0 entries].
  - rewrite save_Write. unfold commit. destruct (writeFault db); intros [= <- <-]; [now left|].
    right. exists stateBytes, [], []. cbn. repeat split; reflexivity.
  - destruct (LastIndex s db) as [lastIndex|err|msg|]; cbn [go_bind];
      try (intros [= <- <-]; now left).
    destruct (_ <? _); [intros [= <- <-]; now left|].
    destruct (clear_loop _ _ _ _ _) as [wb|] eqn:Hclear; [|intros [= <- <-]; now left].
    apply clear_loop_deletes in Hclear as (js & ->).
    rewrite append_loop_spec.
    destruct (marshal_all (entry0 :: entries)) as [bs|err]; [|intros [= <- <-]; now left].
    rewrite save_Write. unfold commit. destruct (writeFault db); intros [= <- <-]; [now left|].
    right. exists stateBytes, js, bs. cbn [store]. split; [reflexivity|].
    split; [reflexivity|discriminate].
Qed.

(** C10 (amended).  Every call of [save] leaves the ConfState key as it was,
    whatever the batch and whatever the outcome.  When no entry of the batch
    has an index below [entries[0].Index], every stored entry with an index
    below [entries[0].Index] is as it was too.  With no entries [save]
    changes nothing or only puts the hard state. *)
Theorem save_frame prefix ic db state entries r db' :
  let s := openRaftStorage prefix ic in
  save s db state entries = (r, db') →
  store db' !! confStateKey s = store db !! confStateKey s
  ∧ (Forall (λ e, 0 <= Index e < 2 ^ 64) entries →
     (∀ e0 tl e, entries = e0 :: tl → e ∈ tl → Index e0 <= Index e) →
     ∀ e0 tl i, entries = e0 :: tl → 0 <= i < Index e0 →
       stored s db' i = stored s db i)
  ∧ (entries = [] →
       db' = db
       ∨ ∃ stateBytes, HardState_Marshal state = Done stateBytes
           ∧ store db' = <[hardStateKey s := stateBytes]> (store db)).
Proof.
  intros s Hsave. split; [|split].
  - destruct (save_writes s db state entries r db' Hsave)
      as [->|(stateBytes & js & bs & _ & Hstore & _)]; [reflexivity|].
    rewrite Hstore. apply fold_apply_other. intros o Ho.
    rewrite !elem_of_app in Ho. destruct Ho as [Ho|[Ho|Ho]].
    + apply list_elem_of_singleton in Ho as ->. cbn [op_key]. intros H. symmetry in H.
      revert H. apply (openRaftStorage_keys prefix ic 0).
    + apply list_elem_of_fmap in Ho as (j & -> & _). cbn [op_key]. intros H. symmetry in H.
      revert H. apply (openRaftStorage_keys prefix ic j).
    + apply puts_keys in Ho as (e & _ & ->). intros H. symmetry in H.
      revert H. apply (openRaftStorage_keys prefix ic (Index e)).
  - intros Htyped Hmono e0 tl i -> Hi.
    destruct (save_result s db state (e0 :: tl) r db' Htyped Hsave)
      as [->|(stateBytes & js & bs & _ & Hstore & _ & Hjs)]; [reflexivity|].
    unfold stored. rewrite Hstore. apply fold_apply_other. intros o Ho.
    specialize (Hjs e0 tl eq_refl). rewrite Forall_forall in Hjs.
    rewrite Forall_forall in Htyped.
    pose proof (Htyped e0 ltac:(left)) as He0.
    rewrite !elem_of_app in Ho. destruct Ho as [Ho|[Ho|Ho]].
    + apply list_elem_of_singleton in Ho as ->. cbn [op_key].
      apply (openRaftStorage_keys prefix ic i).
    + apply list_elem_of_fmap in Ho as (j & -> & Hj). cbn [op_key].
      specialize (Hjs j Hj). intros H. apply getEntryKey_inj in H; lia.
    + apply puts_keys in Ho as (e & He & ->).
      pose proof (Htyped e He) as Het.
      assert (Index e0 <= Index e) as Hle.
      { apply elem_of_cons in He as [->|He]; [lia|]. eapply Hmono; [reflexivity|exact He]. }
      intros H. apply getEntryKey_inj in H; lia.
  - intros ->.
    destruct (save_writes s db state [] r db' Hsave)
      as [->|(stateBytes & js & bs & Hst & Hstore & Hnil)]; [now left|].
    right. exists stateBytes. split; [assumption|].
    rewrite Hstore, (Hnil eq_refl). reflexivity.
Qed.


Lemma IsInitialized_false_Get s db :
  IsInitialized s db = Ok false → Get db (hardStateKey s) = Err ErrNotFound.
Proof.
  unfold IsInitialized. destruct (Get db (hardStateKey s)) as [v|e|msg|]; try discriminate.
  destruct e; try discriminate. reflexivity.
Qed.


(** *** The layout is an invariant of the storage *)

Lemma entries_wf_empty s db : store db = ∅ → entries_wf s db.
Proof. intros H k [v Hv]. rewrite H, lookup_empty in Hv. discriminate. Qed.

Lemma entries_wf_fold s (wb : list op) db db' :
  (∀ o, o ∈ wb →
     match o with
     | Delete _ => True
     | Put k _ => has_prefix (entryKeyPrefix s) k = true → ∃ i, 0 <= i < 2 ^ 64 ∧ k = getEntryKey s i
     end) →
  store db' = fold_left apply_op wb (store db) →
  entries_wf s db → entries_wf s db'.
Proof.
  unfold entries_wf. intros Hops ->. generalize (store db). clear db.
  induction wb as [|o wb IH]; intros m Hwf; [exact Hwf|].
  cbn [fold_left]. apply IH; [intros o' Ho'; apply Hops; now right|].
  specialize (Hops o ltac:(left)). intros k [v Hv] Hp.
  destruct o as [k' v'|k']; cbn [apply_op] in Hv.
  - destruct (decide (k' = k)) as [->|Hne]; [now apply Hops|].
    rewrite lookup_insert_ne in Hv by assumption. apply Hwf; eauto.
  - destruct (decide (k' = k)) as [->|Hne].
    + rewrite lookup_delete_eq in Hv. discriminate.
    + rewrite lookup_delete_ne in Hv by assumption. apply Hwf; eauto.
Qed.

Lemma entries_wf_save prefix ic db state entries r db' :
  let s := openRaftStorage prefix ic in
  Forall (λ e, 0 <= Index e < 2 ^ 64) entries →
  save s db state entries = (r, db') →
  entries_wf s db → entries_wf s db'.
Proof.
  intros s Htyped Hsave Hwf.
  destruct (save_result s db state entries r db' Htyped Hsave)
    as [->|(stateBytes & js & bs & _ & Hstore & _ & _)]; [assumption|].
  eapply entries_wf_fold; [|exact Hstore|exact Hwf].
  intros o Ho. rewrite !elem_of_app in Ho. destruct Ho as [Ho|[Ho|Ho]].
  - apply list_elem_of_singleton in Ho as ->. intros Hp. exfalso.
    apply has_prefix_spec in Hp as (rest & Hp). cbn in Hp.
    rewrite <- app_assoc in Hp. apply app_inv_head in Hp. discriminate Hp.
  - apply list_elem_of_fmap in Ho as (j & -> & _). exact I.
  - destruct (puts_keys _ _ _ _ Ho) as (e & He & Hk).
    destruct o as [k v|k]; [|exact I]. cbn in Hk. intros _.
    rewrite Forall_forall in Htyped. exists (Index e). split; [now apply Htyped|assumption].
Qed.

End Storage.
End RaftlogFacts.

(** ** A small codec, and the storage at work *)

Module RaftToy.
Import Raftlog RaftlogFacts BytesFacts.

(** A fixed-width stand-in for the protobuf encoding of raftpb. *)
#[local] Instance toy_raftpb : RaftPB := {|
  Entry_Marshal e :=
    Done (be_bytes 8 (Type_ e) ++ be_bytes 8 (Term e) ++ be_bytes 8 (Index e) ++ Data e);
  Entry_Unmarshal b :=
    if decide (24 ≤ length b)%nat then
      Done {| Type_ := SetBytes (take 8 b); Term := SetBytes (take 8 (drop 8 b));
              Index := SetBytes (take 8 (drop 16 b)); Data := drop 24 b |}
    else Failed (ErrCodec "unexpected EOF");
  Entry_Size e := 24 + Z.of_nat (length (Data e));
  HardState_Marshal h :=
    Done (be_bytes 8 (hsTerm h) ++ be_bytes 8 (hsVote h) ++ be_bytes 8 (hsCommit h));
  HardState_Unmarshal b :=
    if decide (24 ≤ length b)%nat then
      Done {| hsTerm := SetBytes (take 8 b); hsVote := SetBytes (take 8 (drop 8 b));
              hsCommit := SetBytes (take 8 (drop 16 b)) |}
    else Failed (ErrCodec "unexpected EOF");
  ConfState_Unmarshal cs b := Done {| Nodes := Nodes cs ++ map byte_to_Z b |};
|}.

Lemma toy_Entry_Size_pos : ∀ e, 0 < Entry_Size e.
Proof. intros e. cbn. lia. Qed.

(** The storage of the tests: no prefix. *)
Definition s0 : raftStorage := openRaftStorage [] zeroConfState.
Definition db0 : DB := {| store := ∅; readFault := None; writeFault := None |}.

Definition entry (i : Z) (data : string) : Entry :=
  {| Type_ := 0; Term := 1; Index := i; Data := list_byte_of_string data |}.

Definition cfg0 : Config :=
  {| ID := 1; ElectionTick := 10; HeartbeatTick := 1; Storage := None; Applied := 0;
     MaxSizePerMsg := 4096; MaxInflightMsgs := 256 |}.
Definition l0 : raftLog :=
  {| config := cfg0; initialNodes := [{| peerID := 1 |}]; storage := s0;
     node := None; serving := false; running := false |}.

(** The store after three entries were saved. *)
Definition db3 : DB :=
  snd (save s0 db0 zeroHardState [entry 1 "a"; entry 2 "bb"; entry 3 "ccc"]).

Example Entries_runs :
  Entries s0 db3 1 4 100 = ([entry 1 "a"; entry 2 "bb"; entry 3 "ccc"], None)
  ∧ Entries s0 db3 1 4 51 = ([entry 1 "a"; entry 2 "bb"], None)
  ∧ Entries s0 db3 1 4 52 = ([entry 1 "a"; entry 2 "bb"], None)
  ∧ Entries s0 db3 2 4 10 = ([entry 2 "bb"], None)
  ∧ Entries s0 db3 4 9 10 = ([], None)
  ∧ LastIndex s0 db3 = Ok 3.
Proof. repeat split; vm_compute; reflexivity. Qed.

Definition typed (entries : list Entry) : Prop :=
  Forall (λ e, 0 <= Index e < 2 ^ 64) entries.

Lemma db3_wf : entries_wf s0 db3.
Proof.
  unfold db3.
  apply (entries_wf_save [] zeroConfState db0 zeroHardState
           [entry 1 "a"; entry 2 "bb"; entry 3 "ccc"]
           (fst (save s0 db0 zeroHardState [entry 1 "a"; entry 2 "bb"; entry 3 "ccc"]))).
  - repeat constructor; cbn; lia.
  - apply surjective_pairing.
  - now apply entries_wf_empty.
Qed.

Definition log3 : list Entry := [entry 1 "a"; entry 2 "bb"; entry 3 "ccc"].

Lemma Entries_accumulates_witness :
  entries_wf s0 db3 ∧ readFault db3 = None
  ∧ Entries s0 db3 1 4 51 = (accumulate 51 log3, None)
  ∧ accumulate 51 log3 = [entry 1 "a"; entry 2 "bb"].
Proof.
  split; [exact db3_wf|]. split; [reflexivity|].
  destruct (@Entries_accumulates toy_raftpb toy_Entry_Size_pos s0 db3 1 4 51
              db3_wf eq_refl ltac:(lia) ltac:(lia)) as (idxs & Hs & Hm & Hes).
  assert (idxs = [1; 2; 3]) as ->.
  { apply sorted_lt_unique; [assumption|repeat constructor; lia|].
    intros i. rewrite Hm, !elem_of_cons, elem_of_nil. split.
    - intros [Hi _]. lia.
    - intros [->|[->|[->|[]]]]; (split; [lia|vm_compute; eauto]). }
  destruct (Hes log3) as (taken & rest & HE & -> & _).
  - repeat constructor; eexists; split; vm_compute; reflexivity.
  - vm_compute. reflexivity.
  - split; [exact HE|]. vm_compute. reflexivity.
Defined.

(** Saving entries 3 and 4 over a log that ends at 3 truncates the tail. *)
Definition tail : list Entry := [entry 3 "x"; entry 4 "y"].

Lemma LastIndex_db3 : LastIndex s0 db3 = Ok 3.
Proof. vm_compute. reflexivity. Qed.


Example save_truncates :
  save s0 db3 zeroHardState tail
  = commit db3 (batch s0 (be_bytes 24 0) 3 3 tail
                  [be_bytes 8 0 ++ be_bytes 8 1 ++ be_bytes 8 3 ++ list_byte_of_string "x";
                   be_bytes 8 0 ++ be_bytes 8 1 ++ be_bytes 8 4 ++ list_byte_of_string "y"]).
Proof. vm_compute. reflexivity. Qed.



(** C10, as stated, fails for a batch whose later entry has a smaller index:
    saving entries 2 and 1, in this order, rewrites the stored entry 1,
    whose index is below [entries[0].Index = 2]. *)
Definition db1 : DB := snd (save s0 db0 zeroHardState [entry 1 "a"]).

Lemma save_rewrites_lower_entry :
  fst (save s0 db1 zeroHardState [entry 2 "b"; entry 1 "c"]) = Ok tt
  ∧ 1 < Index (entry 2 "b")
  ∧ stored s0 (snd (save s0 db1 zeroHardState [entry 2 "b"; entry 1 "c"])) 1
    ≠ stored s0 db1 1.
Proof.
  split; [vm_compute; reflexivity|]. split; [reflexivity|].
  intros H. vm_compute in H. discriminate H.
Qed.

Lemma save_frame_witness :
  typed tail
  ∧ store (snd (save s0 db3 zeroHardState tail)) !! confStateKey s0
    = store db3 !! confStateKey s0
  ∧ stored s0 (snd (save s0 db3 zeroHardState tail)) 2 = stored s0 db3 2.
Proof.
  assert (typed tail) as H1 by (repeat constructor; cbn; lia).
  assert (∀ e0 tl e, tail = e0 :: tl → e ∈ tl → Index e0 <= Index e) as H2.
  { intros e0 tl e [= <- <-] He. apply list_elem_of_singleton in He as ->. cbn. lia. }
  destruct (@save_frame toy_raftpb [] zeroConfState db3 zeroHardState tail
              (fst (save s0 db3 zeroHardState tail)) (snd (save s0 db3 zeroHardState tail))
              (surjective_pairing _)) as (Hcs & Hlow & _).
  split; [exact H1|]. split; [exact Hcs|].
  apply (Hlow H1 H2 (entry 3 "x") [entry 4 "y"] 2 eq_refl). cbn. lia.
Defined.



End RaftToy.

(** ** Facts about the preserved encoding *)

Module ProtoFacts.
Import Proto.

Section PreserveEncoding.
Context {G : Generated}.

Lemma copy_full n src : length src = n → copy (zeros n) src = (src, n).
Proof.
  intros <-. unfold copy. rewrite BytesFacts.length_zeros, Nat.min_id.
  rewrite firstn_all. unfold zeros. rewrite drop_ge by (now rewrite repeat_length).
  now rewrite app_nil_r.
Qed.

Lemma Marshal_preserved m : Marshal m = Ok (PreservedEncoding m).
Proof.
  unfold Marshal, MarshalTo, Size. rewrite copy_full by reflexivity.
  unfold slice. destruct (decide _) as [_|Hn]; [|exfalso; apply Hn; lia].
  now rewrite drop_0, Nat.sub_0_r, firstn_all.
Qed.

(** C4.  After [Unmarshal(b)], accepted or not, [Marshal] gives back exactly
    [b], whatever the generated [Marshal] would make of the decoded view;
    [Equal] and [VerboseEqual] are those of the decoded views and do not
    look at the preserved bytes. *)
Theorem preserved_encoding m b :
  Marshal (fst (Unmarshal m b)) = Ok b
  ∧ (decoded (fst (Unmarshal m b)), snd (Unmarshal m b))
    = SignedEntryUpdate_Unmarshal (decoded m) b
  ∧ ∀ d1 d2 p1 p2,
      let this := {| decoded := d1; PreservedEncoding := p1 |} in
      let that := {| decoded := d2; PreservedEncoding := p2 |} in
      Equal this (Pointer (Some that)) = Ok (SignedEntryUpdate_Equal d1 d2)
      ∧ Equal this (Value that) = Ok (SignedEntryUpdate_Equal d1 d2)
      ∧ VerboseEqual this (Pointer (Some that)) = Ok (SignedEntryUpdate_VerboseEqual d1 d2)
      ∧ VerboseEqual this (Value that) = Ok (SignedEntryUpdate_VerboseEqual d1 d2).
Proof.
  split; [|split].
  - rewrite Marshal_preserved. unfold Unmarshal.
    now destruct (SignedEntryUpdate_Unmarshal (decoded m) b).
  - unfold Unmarshal. now destruct (SignedEntryUpdate_Unmarshal (decoded m) b).
  - intros d1 d2 p1 p2. repeat split.
Qed.

End PreserveEncoding.
End ProtoFacts.

(** ** The UpdateProfile stub *)

Module ServerFacts.
Import Server.

Section Keyserver.
Variables (Keyserver Context SignedEntryUpdate LookupProof : Type).

(** C9.  For every request [UpdateProfile] returns a nil proof and a
    non-nil error whose message ends in "not implemented", and the
    keyserver is as before. *)
Theorem UpdateProfile_not_implemented (ks : Keyserver) (ctx : Context)
    (req : option SignedEntryUpdate) :
  ∃ msg,
    UpdateProfile Keyserver Context SignedEntryUpdate LookupProof ks ctx req
    = (ks, (None, Some msg))
    ∧ msg = "UpdateProfile not implemented"%string
    ∧ String.substring 14 15 msg = "not implemented"%string.
Proof. eexists. repeat split. Qed.

End Keyserver.
End ServerFacts.

(** * Part III: further properties *)

(** ** Octet strings, integers and scalars *)

Module OctetFacts.
Import VRF BytesFacts VRFFacts.

Lemma SetBytes_take n l :
  SetBytes (take n l) = SetBytes l / 256 ^ Z.of_nat (length l - n).
Proof.
  rewrite <- (take_drop n l) at 2. rewrite SetBytes_app, length_drop.
  pose proof (SetBytes_range (drop n l)) as H. rewrite length_drop in H.
  apply Z.div_unique with (r := SetBytes (drop n l)); [left; lia|lia].
Qed.

Lemma big_Bytes_abs b : big_Bytes (Z.abs b) = big_Bytes b.
Proof. unfold big_Bytes. now rewrite Z.abs_idemp. Qed.

Lemma SetBytes_big_Bytes_abs b : SetBytes (big_Bytes b) = Z.abs b.
Proof. rewrite <- big_Bytes_abs. apply SetBytes_big_Bytes. lia. Qed.

Lemma le_val_take n l : le_val (take n l) = le_val l mod 256 ^ Z.of_nat n.
Proof.
  destruct (Nat.le_gt_cases n (length l)) as [Hle|Hgt].
  - rewrite <- (take_drop n l) at 2. rewrite le_val_app, length_take_le by assumption.
    pose proof (le_val_range (take n l)) as H. rewrite length_take_le in H by assumption.
    rewrite Z.mul_comm, Z_mod_plus_full. symmetry. now apply Z.mod_small.
  - rewrite take_ge by lia. symmetry. apply Z.mod_small.
    pose proof (le_val_range l) as H. split; [lia|].
    eapply Z.lt_le_trans; [apply H|]. apply Z.pow_le_mono_r; lia.
Qed.

Lemma le_val_inj a b : length a = length b → le_val a = le_val b → a = b.
Proof.
  intros Hl Hv. rewrite <- (rev_involutive a), <- (rev_involutive b). f_equal.
  apply SetBytes_inj; [now rewrite !length_rev|now rewrite !SetBytes_rev].
Qed.

Lemma le_val_IP2F b : le_val (IP2F b) = Z.abs b mod 2 ^ 256.
Proof.
  unfold IP2F, copy_into. rewrite le_val_app, le_val_zeros, le_val_take.
  rewrite VRFCorrect.le_val_rev, SetBytes_big_Bytes_abs. change (256 ^ Z.of_nat 32) with (2 ^ 256). lia.
Qed.

(** X1.  [I2OSP] always gives [n] octets.  It inverts [OS2IP] on strings of [n]
    octets; [OS2IP] gives back [b] when [b] fits, and the leading [n] octets
    of [b], not the trailing ones, when it does not. *)
Theorem I2OSP_octets (b : Z) (n : nat) (os : list byte) :
  length (I2OSP b n) = n
  ∧ OS2IP (I2OSP b n) = Z.abs b / 256 ^ Z.of_nat (length (big_Bytes b) - n)
  ∧ I2OSP (OS2IP os) (length os) = os.
Proof.
  split; [|split].
  - unfold I2OSP. destruct (decide _) as [Hlt|Hge].
    + rewrite length_app, length_zeros. lia.
    + rewrite length_take. lia.
  - unfold I2OSP, OS2IP. destruct (decide _) as [Hlt|Hge].
    + rewrite SetBytes_zeros_app, SetBytes_big_Bytes_abs.
      replace (length (big_Bytes b) - n)%nat with 0%nat by lia.
      now rewrite Z.pow_0_r, Z.div_1_r.
    + now rewrite SetBytes_take, SetBytes_big_Bytes_abs.
  - pose proof (SetBytes_range os) as Hr. apply SetBytes_inj.
    + now apply I2OSP_length.
    + now apply OS2IP_I2OSP.
Qed.

(** X2.  [IP2F] and [F2IP] are inverse to each other on 32-byte field numbers
    and on integers below [2^256]; a larger integer is reduced modulo
    [2^256]. *)
Theorem F2IP_IP2F_inverse (f : list byte) (b : Z) :
  length f = 32%nat → 0 <= b →
  IP2F (F2IP f) = f
  ∧ 0 <= F2IP f < 2 ^ 256
  ∧ length (IP2F b) = 32%nat
  ∧ F2IP (IP2F b) = b mod 2 ^ 256.
Proof.
  intros Hf Hb.
  pose proof (le_val_range f) as Hr. rewrite Hf in Hr. change (256 ^ Z.of_nat 32) with (2 ^ 256) in Hr.
  rewrite (VRFCorrect.F2IP_le f Hf).
  rewrite (VRFCorrect.F2IP_le (IP2F b) (length_IP2F b)), le_val_IP2F, Z.abs_eq by assumption.
  repeat split; try lia; [|apply length_IP2F].
  apply le_val_inj; [now rewrite length_IP2F|].
  rewrite le_val_IP2F, Z.abs_eq, Z.mod_small; lia.
Qed.

Lemma clamp_low (b : byte) : byte_to_Z (byte_and b 248) mod 8 = 0.
Proof. destruct b; reflexivity. Qed.

Lemma clamp_high (b : byte) : 64 <= byte_to_Z (byte_or (byte_and b 127) 64) < 128.
Proof. destruct b; vm_compute; split; congruence. Qed.

Section Code.
Context {L : Library}.

(** X3.  [expandSecret] reads the first 32 bytes of the key and returns a
    clamped scalar: 32 bytes, a multiple of 8, with bit 254 the highest bit
    set. *)
Theorem expandSecret_clamps (sk : list byte) :
  (32 ≤ length sk)%nat →
  length (sha512_Sum512 (take 32 sk)) = 64%nat →
  ∃ x, expandSecret sk = Ok x
       ∧ x = take 32 (clamp (sha512_Sum512 (take 32 sk)))
       ∧ length x = 32%nat
       ∧ F2IP x mod 8 = 0
       ∧ 2 ^ 254 <= F2IP x < 2 ^ 255.
Proof.
  intros Hsk Hd. unfold expandSecret, slice.
  destruct (decide _) as [_|Hn]; [|exfalso; apply Hn; lia].
  cbn [go_bind]. rewrite drop_0. change (32 - 0)%nat with 32%nat.
  set (d := sha512_Sum512 (take 32 sk)) in *.
  eexists. split; [reflexivity|].
  assert (length (clamp d) = 64%nat) as Hc by (unfold clamp; now rewrite !length_alter).
  assert (copy_into 32 (clamp d) = take 32 (clamp d)) as ->.
  { unfold copy_into. rewrite Hc. cbn. apply app_nil_r. }
  set (x := take 32 (clamp d)).
  assert (length x = 32%nat) as Hx by (unfold x; rewrite length_take; lia).
  split; [reflexivity|]. split; [assumption|].
  rewrite (VRFCorrect.F2IP_le x Hx).
  destruct (lookup_lt_is_Some_2 d 0) as [d0 Hd0]; [lia|].
  destruct (lookup_lt_is_Some_2 d 31) as [d31 Hd31]; [lia|].
  assert (x !! 0%nat = Some (byte_and d0 248)) as H0.
  { unfold x, clamp. rewrite lookup_take_lt by lia.
    rewrite !list_lookup_alter_ne by lia. now rewrite list_lookup_alter_eq, Hd0. }
  assert (x !! 31%nat = Some (byte_or (byte_and d31 127) 64)) as H31.
  { unfold x, clamp. rewrite lookup_take_lt by lia.
    rewrite !list_lookup_alter_eq, list_lookup_alter_ne, Hd31 by lia. reflexivity. }
  split.
  - destruct x as [|b0 x']; [discriminate|]. injection H0 as ->.
    cbn [le_val].
    replace (256 * le_val x') with (32 * le_val x' * 8) by lia.
    rewrite Z_mod_plus_full. apply clamp_low.
  - rewrite <- (take_drop 31 x), le_val_app, length_take_le by lia.
    pose proof (le_val_range (take 31 x)) as Hlow. rewrite length_take_le in Hlow by lia.
    assert (drop 31 x = [byte_or (byte_and d31 127) 64]) as ->.
    { apply list_eq. intros i. rewrite lookup_drop. destruct i as [|i].
      - now rewrite Nat.add_0_r, H31.
      - cbn. apply lookup_ge_None. lia. }
    cbn [le_val]. pose proof (clamp_high d31) as Hh.
    change (256 ^ Z.of_nat 31) with (2 ^ 248) in *. lia.
Qed.

End Code.
End OctetFacts.

(** ** What the prover and the verifier accept *)

Module ProofFacts.
Import VRF BytesFacts VRFFacts.

Lemma slice_app_l {E} (s t : list byte) lo hi :
  (hi ≤ length s)%nat → slice (E:=E) (s ++ t) lo hi = slice s lo hi.
Proof.
  intros Hhi. unfold slice.
  destruct (decide (lo ≤ hi ∧ hi ≤ length (s ++ t))%nat) as [[H1 H2]|Hn];
    destruct (decide (lo ≤ hi ∧ hi ≤ length s)%nat) as [[H3 H4]|Hn']; try reflexivity.
  - rewrite drop_app_le by lia. rewrite take_app_le by (rewrite length_drop; lia). reflexivity.
  - exfalso. apply Hn'. lia.
  - exfalso. apply Hn. rewrite length_app. lia.
Qed.

Lemma slice_Ok {E} (s : list byte) lo hi :
  (lo ≤ hi)%nat → (hi ≤ length s)%nat → slice (E:=E) s lo hi = Ok (take (hi - lo) (drop lo s)).
Proof. intros H1 H2. unfold slice. destruct (decide _) as [_|Hn]; [reflexivity|]. exfalso. apply Hn. lia. Qed.

Lemma slice_Panic {E} (s : list byte) lo hi :
  (length s < hi)%nat → slice (E:=E) s lo hi = Panic "slice bounds out of range".
Proof. intros H. unfold slice. destruct (decide _) as [[_ Hn]|_]; [lia|reflexivity]. Qed.

Lemma index_Ok {E} (s : list byte) i b : s !! i = Some b → index (E:=E) s i = Ok b.
Proof. unfold index. now intros ->. Qed.

Lemma index_Panic {E} (s : list byte) i :
  (length s ≤ i)%nat → index (E:=E) s i = Panic "index out of range".
Proof. intros H. unfold index. now rewrite (proj2 (lookup_ge_None s i) H). Qed.

Section Code.
Context {L : Library}.

(** [ECVRF_decode_proof] as one case distinction. *)
Lemma decode_proof_eq (pi : list byte) :
  ECVRF_decode_proof pi
  = match pi !! 0%nat with
    | None => Panic "index out of range"
    | Some sign =>
        if decide (sign ≠ x02 ∧ sign ≠ x03) then Err ErrDecodeError
        else if decide (length pi < 33)%nat then Panic "slice bounds out of range"
        else
          match OS2ECP (take 32 (drop 1 pi)) (byte_sub sign 2) with
          | None => Err ErrDecodeError
          | Some r =>
              if decide (length pi < 81)%nat then Panic "slice bounds out of range"
              else Ok (r, copy_into 32 (rev (take 16 (drop 33 pi))),
                       rev (take 32 (drop 49 pi)))
          end
    end.
Proof.
  unfold ECVRF_decode_proof, index.
  destruct (pi !! 0%nat) as [sign|]; [|reflexivity]. cbn [go_bind].
  destruct (decide (sign ≠ x02 ∧ sign ≠ x03)) as [Hbad|Hgood]; [reflexivity|].
  unfold N2, N.
  destruct (decide (length pi < 33)%nat) as [Hl|Hl]; [now rewrite slice_Panic by lia|].
  rewrite slice_Ok by lia. cbn [go_bind]. change (1 + 32 - 1)%nat with 32%nat.
  destruct (OS2ECP (take 32 (drop 1 pi)) (byte_sub sign 2)) as [r|]; [|reflexivity].
  destruct (decide (length pi < 81)%nat) as [Hl3|Hl3].
  - destruct (Nat.lt_ge_cases (length pi) 49) as [Hl2|Hl2].
    + now rewrite slice_Panic by lia.
    + rewrite slice_Ok by lia. cbn [go_bind]. now rewrite slice_Panic by lia.
  - rewrite slice_Ok by lia. cbn [go_bind]. rewrite slice_Ok by lia. reflexivity.
Qed.

Lemma sign_cases (sign : byte) :
  ¬ (sign ≠ x02 ∧ sign ≠ x03) → sign = x02 ∨ sign = x03.
Proof.
  intros Hgood. destruct (decide (sign = x02)); [now left|].
  destruct (decide (sign = x03)); [now right|]. exfalso. apply Hgood. now split.
Qed.

(** X4. What [ECVRF_decode_proof] makes of a byte string: the sign octet
    must be 2 or 3 and the next 32 bytes decode with that sign, else it is a
    decode error; the 16 bytes of [c] and the 32 bytes of [s] are read
    big-endian into little-endian field numbers; a string with a good sign
    octet that is shorter than 81 bytes, or the empty string, makes it
    panic.  (As everywhere, a slice is taken to have no capacity beyond its
    length.) *)
Theorem decode_proof_outcomes (pi : list byte) :
  match ECVRF_decode_proof pi with
  | Ok (r, c, s) =>
      (81 ≤ length pi)%nat
      ∧ ∃ sign, pi !! 0%nat = Some sign ∧ (sign = x02 ∨ sign = x03)
          ∧ OS2ECP (take 32 (drop 1 pi)) (byte_sub sign 2) = Some r
          ∧ length c = 32%nat ∧ F2IP c = OS2IP (take 16 (drop 33 pi))
          ∧ length s = 32%nat ∧ F2IP s = OS2IP (take 32 (drop 49 pi))
  | Err e =>
      e = ErrDecodeError
      ∧ ∃ sign, pi !! 0%nat = Some sign
          ∧ ((sign ≠ x02 ∧ sign ≠ x03)
             ∨ ((33 ≤ length pi)%nat
                ∧ OS2ECP (take 32 (drop 1 pi)) (byte_sub sign 2) = None))
  | Panic _ =>
      (length pi < 81)%nat
      ∧ (pi = []
         ∨ ∃ sign, pi !! 0%nat = Some sign ∧ (sign = x02 ∨ sign = x03)
             ∧ ((length pi < 33)%nat
                ∨ ∃ r, OS2ECP (take 32 (drop 1 pi)) (byte_sub sign 2) = Some r))
  | Loops => False
  end.
Proof.
  rewrite decode_proof_eq.
  destruct (pi !! 0%nat) as [sign|] eqn:H0.
  2:{ apply lookup_ge_None in H0. destruct pi; [|cbn in H0; lia]. cbn. split; [lia|now left]. }
  destruct (decide (sign ≠ x02 ∧ sign ≠ x03)) as [Hbad|Hgood].
  { split; [reflexivity|]. exists sign. split; [reflexivity|]. now left. }
  apply sign_cases in Hgood as Hsign.
  destruct (decide (length pi < 33)%nat) as [Hl|Hl].
  { split; [lia|]. right. exists sign. repeat split; auto. }
  destruct (OS2ECP (take 32 (drop 1 pi)) (byte_sub sign 2)) as [r|] eqn:Hr.
  2:{ split; [reflexivity|]. exists sign. split; [reflexivity|]. right. split; [lia|exact Hr]. }
  destruct (decide (length pi < 81)%nat) as [Hl3|Hl3].
  { split; [lia|]. right. exists sign. repeat split; eauto. }
  split; [lia|]. exists sign.
  assert (length (take 16 (drop 33 pi)) = 16%nat) as Hlc
    by (rewrite length_take, length_drop; lia).
  assert (length (take 32 (drop 49 pi)) = 32%nat) as Hls
    by (rewrite length_take, length_drop; lia).
  repeat split; try assumption.
  - apply length_copy_into.
  - unfold F2IP, OS2IP. rewrite copy_into_id by apply length_copy_into.
    rewrite SetBytes_rev. unfold copy_into.
    rewrite take_ge by (rewrite length_rev; lia).
    rewrite le_val_app, le_val_zeros, VRFCorrect.le_val_rev. lia.
  - now rewrite length_rev.
  - unfold F2IP, OS2IP. rewrite copy_into_id by now rewrite length_rev.
    now rewrite rev_involutive.
Qed.

(** X5.  Bytes after the 81st are not looked at: a proof with anything appended
    decodes, verifies and hashes as the proof itself. *)
Theorem trailing_bytes_ignored (pk pi m junk : list byte) :
  (81 ≤ length pi)%nat →
  ECVRF_decode_proof (pi ++ junk) = ECVRF_decode_proof pi
  ∧ ECVRF_verify pk (pi ++ junk) m = ECVRF_verify pk pi m
  ∧ ECVRF_proof2hash (pi ++ junk) = ECVRF_proof2hash pi.
Proof.
  intros Hl.
  assert (ECVRF_decode_proof (pi ++ junk) = ECVRF_decode_proof pi) as Hdec.
  { unfold ECVRF_decode_proof.
    assert (index (E:=error) (pi ++ junk) 0 = index pi 0) as ->.
    { unfold index. rewrite lookup_app_l by lia. reflexivity. }
    unfold N2, N. rewrite !slice_app_l by lia. reflexivity. }
  split; [exact Hdec|]. split.
  - unfold ECVRF_verify. now rewrite Hdec.
  - unfold ECVRF_proof2hash, N2. apply slice_app_l. lia.
Qed.

Lemma hash_to_curve_loop_outcome n i m pk :
  (∃ h, hash_to_curve_loop n i m pk = Ok h)
  ∨ hash_to_curve_loop n i m pk
    = Panic "ECVRF_hash_to_curve: couldn't make a point on curve".
Proof.
  revert i. induction n as [|n IH]; intros i; cbn [hash_to_curve_loop]; [now right|].
  destruct (OS2ECP _ x00); [left; eauto|]. destruct (OS2ECP _ x01); [left; eauto|]. apply IH.
Qed.

Lemma expandSecret_outcome sk :
  if decide (32 ≤ length sk)%nat
  then ∃ x, expandSecret sk = Ok x ∧ length x = 32%nat
  else expandSecret sk = Panic "slice bounds out of range".
Proof.
  unfold expandSecret. destruct (decide _) as [Hl|Hl].
  - rewrite slice_Ok by lia. cbn. eexists. split; [reflexivity|apply length_copy_into].
  - rewrite slice_Panic by lia. reflexivity.
Qed.

Lemma S2OS_outcome s :
  if decide (32 ≤ length s)%nat
  then ∃ r, S2OS s = Ok r
  else S2OS s = Panic "index out of range".
Proof.
  unfold S2OS. destruct (decide _) as [Hl|Hl].
  - destruct (lookup_lt_is_Some_2 s 31) as [b Hb]; [lia|].
    rewrite (index_Ok s 31 b Hb). cbn. eauto.
  - rewrite index_Panic by lia. reflexivity.
Qed.

(** X6.  The outcomes of [ECVRF_prove]: it returns a proof exactly when the
    secret key, the entropy and the public key have at least 32 bytes and
    [ECVRF_hash_to_curve] finds a point; its only error is the failure of
    the entropy source; a short secret or public key and an exhausted
    search for a point are panics.  (A slice is taken to have no capacity
    beyond its length.) *)
Theorem prove_outcomes (rand pk sk m : list byte) :
  match ECVRF_prove rand pk sk m with
  | Ok pi =>
      (32 ≤ length sk)%nat ∧ (∃ h, ECVRF_hash_to_curve m pk = Ok h)
      ∧ (32 ≤ length rand)%nat ∧ (32 ≤ length pk)%nat
  | Err e =>
      e = ErrUnexpectedEOF
      ∧ (32 ≤ length sk)%nat ∧ (∃ h, ECVRF_hash_to_curve m pk = Ok h)
      ∧ (length rand < 32)%nat
  | Panic _ =>
      (length sk < 32)%nat
      ∨ ((32 ≤ length sk)%nat
         ∧ ECVRF_hash_to_curve m pk
           = Panic "ECVRF_hash_to_curve: couldn't make a point on curve")
      ∨ ((32 ≤ length sk)%nat ∧ (∃ h, ECVRF_hash_to_curve m pk = Ok h)
         ∧ (32 ≤ length rand)%nat ∧ (length pk < 32)%nat)
  | Loops => False
  end.
Proof.
  unfold ECVRF_prove.
  pose proof (expandSecret_outcome sk) as Hx.
  destruct (decide (32 ≤ length sk)%nat) as [Hsk|Hsk].
  2:{ rewrite Hx. cbn. left. lia. }
  destruct Hx as (x & -> & Hlx). cbn [go_bind].
  destruct (hash_to_curve_loop_outcome (Z.to_nat limit) 0 m pk) as [[h Hh]|Hh];
    fold (ECVRF_hash_to_curve m pk) in Hh; rewrite Hh; cbn [go_bind].
  2:{ right. left. now split. }
  destruct (ECP2OS_total (GeScalarMult h x)) as (r & ->). cbn [go_bind].
  unfold GenerateKey, ReadFull.
  destruct (decide (32 ≤ length rand)%nat) as [Hrand|Hrand]; cbn [go_bind].
  2:{ repeat split; eauto. lia. }
  set (kp := copy_into 32 (ToBytes _)). set (ks := take 32 rand ++ kp).
  pose proof (expandSecret_outcome ks) as Hk.
  destruct (decide (32 ≤ length ks)%nat) as [_|Hks].
  2:{ exfalso. apply Hks. unfold ks. rewrite length_app, length_take. lia. }
  destruct Hk as (k & -> & Hlk). cbn [go_bind].
  destruct (ECP2OS_total G) as (og & ->). cbn [go_bind].
  destruct (ECP2OS_total h) as (oh & ->). cbn [go_bind].
  pose proof (S2OS_outcome pk) as Hpk.
  destruct (decide (32 ≤ length pk)%nat) as [Hlpk|Hlpk].
  2:{ rewrite Hpk. cbn. right. right. repeat split; eauto. lia. }
  destruct Hpk as (opk & ->). cbn [go_bind].
  destruct (S2OS_total kp (length_copy_into _ _)) as (okp & ->). cbn [go_bind].
  destruct (ECP2OS_total (GeScalarMult h k)) as (ohk & ->). cbn [go_bind].
  repeat split; eauto.
Qed.

(** X7.  The outcomes of [ECVRF_verify]: a verdict needs a proof that decodes, a
    key of at least 32 bytes that decodes, and a point for the message; the
    errors are the decode error of the proof and the malformed key, never
    the internal error; a proof that makes [ECVRF_decode_proof] panic, a
    key shorter than 32 bytes and an exhausted search are panics. *)
Theorem verify_outcomes (pk pi m : list byte) :
  match ECVRF_verify pk pi m with
  | Ok b =>
      (81 ≤ length pi)%nat ∧ (32 ≤ length pk)%nat
      ∧ (∃ d, ECVRF_decode_proof pi = Ok d)
      ∧ (∃ b31 P, pk !! 31%nat = Some b31 ∧ OS2ECP pk (byte_shr b31 7) = Some P)
      ∧ (∃ h, ECVRF_hash_to_curve m pk = Ok h)
  | Err e =>
      (e = ErrDecodeError ∧ ECVRF_decode_proof pi = Err ErrDecodeError)
      ∨ (e = ErrMalformedInput ∧ (81 ≤ length pi)%nat ∧ (32 ≤ length pk)%nat
         ∧ ∃ b31, pk !! 31%nat = Some b31 ∧ OS2ECP pk (byte_shr b31 7) = None)
  | Panic _ =>
      ((length pi < 81)%nat ∧ ∃ msg, ECVRF_decode_proof pi = Panic msg)
      ∨ ((81 ≤ length pi)%nat ∧ (length pk < 32)%nat)
      ∨ ((81 ≤ length pi)%nat ∧ (32 ≤ length pk)%nat
         ∧ ECVRF_hash_to_curve m pk
           = Panic "ECVRF_hash_to_curve: couldn't make a point on curve")
  | Loops => False
  end.
Proof.
  unfold ECVRF_verify.
  assert (match ECVRF_decode_proof pi with
          | Ok _ => (81 ≤ length pi)%nat
          | Err e => e = ErrDecodeError
          | Panic _ => (length pi < 81)%nat
          | Loops => False
          end) as Hd.
  { rewrite decode_proof_eq. destruct (pi !! 0%nat) as [sign|] eqn:H0.
    - destruct (decide (_ ∧ _)); [reflexivity|].
      destruct (decide (length pi < 33)%nat); [lia|].
      destruct (OS2ECP _ _); [|reflexivity]. destruct (decide (length pi < 81)%nat); lia.
    - apply lookup_ge_None in H0. lia. }
  destruct (ECVRF_decode_proof pi) as [[[r c] s]|e|msg|] eqn:Hdec; cbn [go_bind].
  2:{ subst e. left. now split. }
  2:{ left. split; [assumption|]. eauto. }
  2:{ assumption. }
  destruct (decide (32 ≤ length pk)%nat) as [Hlpk|Hlpk].
  2:{ rewrite index_Panic by lia. cbn. right. left. lia. }
  destruct (lookup_lt_is_Some_2 pk 31) as [b31 Hb31]; [lia|].
  rewrite (index_Ok pk 31 b31 Hb31). cbn [go_bind].
  destruct (OS2ECP pk (byte_shr b31 7)) as [P|] eqn:HP.
  2:{ right. repeat split; try assumption. eauto. }
  destruct (hash_to_curve_loop_outcome (Z.to_nat limit) 0 m pk) as [[h Hh]|Hh];
    fold (ECVRF_hash_to_curve m pk) in Hh; rewrite Hh; cbn [go_bind].
  2:{ right. right. repeat split; assumption. }
  destruct (ECP2OS_total G) as (og & ->). cbn [go_bind].
  destruct (ECP2OS_total h) as (oh & ->). cbn [go_bind].
  pose proof (S2OS_outcome pk) as Hpk.
  destruct (decide (32 ≤ length pk)%nat) as [_|]; [|contradiction].
  destruct Hpk as (opk & ->). cbn [go_bind].
  destruct (ECP2OS_total r) as (or & ->). cbn [go_bind].
  assert (∃ ou, ECP2OSProj (GeDoubleScalarMultVartime c P s) = Ok ou) as (ou & ->)
    by apply S2OS_total, length_copy_into.
  cbn [go_bind].
  destruct (ECP2OS_total (GeAdd (GeScalarMult r c) (GeScalarMult h s))) as (ov & ->).
  cbn [go_bind]. repeat split; eauto.
Qed.

Lemma OS2ECP_top_bit (os : list byte) (b b' sign : byte) :
  length os = 32%nat → os !! 31%nat = Some b →
  byte_and b' 0x7f = byte_and b 0x7f →
  OS2ECP (<[31%nat := b']> os) sign = OS2ECP os sign.
Proof.
  intros Hl Hb Hlow. unfold OS2ECP.
  rewrite !copy_into_id by (try rewrite length_insert; assumption).
  match goal with |- context [alter ?f 31%nat (<[31%nat := b']> os)] =>
    assert (alter f 31%nat (<[31%nat := b']> os) = alter f 31%nat os) as ->
  end; [|reflexivity].
  apply list_eq. intros i. destruct (decide (i = 31%nat)) as [->|Hne].
  - rewrite !list_lookup_alter_eq, list_lookup_insert_eq, Hb by lia. cbn. now rewrite Hlow.
  - rewrite !list_lookup_alter_ne, list_lookup_insert_ne by congruence. reflexivity.
Qed.

(** X8.  [ECVRF_decode_proof] overwrites the top bit of the last byte of the
    encoded point with the sign from the first octet, so [ECVRF_verify]
    does not see that bit, while [ECVRF_proof2hash] returns it: flipping it
    in a proof gives a proof with the same verdict and another hash. *)
Theorem verify_ignores_encoded_sign (pk pi m : list byte) (b b' : byte) :
  pi !! 32%nat = Some b →
  byte_and b' 0x7f = byte_and b 0x7f → b' ≠ b →
  ECVRF_verify pk (<[32%nat := b']> pi) m = ECVRF_verify pk pi m
  ∧ ECVRF_proof2hash (<[32%nat := b']> pi) ≠ ECVRF_proof2hash pi.
Proof.
  intros Hb Hlow Hne.
  pose proof (lookup_lt_Some _ _ _ Hb) as Hlen.
  set (os := take 32 (drop 1 pi)).
  assert (length os = 32%nat) as Hlos by (unfold os; rewrite length_take, length_drop; lia).
  assert (os !! 31%nat = Some b) as Hos
    by (unfold os; rewrite lookup_take_lt, lookup_drop by lia; exact Hb).
  assert (take 32 (drop 1 (<[32%nat := b']> pi)) = <[31%nat := b']> os) as Hos'.
  { rewrite drop_insert_ge by lia. rewrite take_insert_lt by lia. reflexivity. }
  split.
  - unfold ECVRF_verify. f_equal. rewrite !decode_proof_eq.
    rewrite list_lookup_insert_ne by lia. rewrite length_insert, Hos'.
    rewrite !drop_insert_lt by lia. fold os.
    destruct (pi !! 0%nat) as [sign|]; [|reflexivity].
    now rewrite (OS2ECP_top_bit os b b' _ Hlos Hos Hlow).
  - unfold ECVRF_proof2hash, N2. rewrite !slice_Ok by (try rewrite length_insert; lia).
    change (32 + 1 - 1)%nat with 32%nat. rewrite Hos'. fold os.
    intros [= H]. apply (f_equal (λ l, l !! 31%nat)) in H.
    rewrite list_lookup_insert_eq, Hos in H by lia. congruence.
Qed.

(** X9.  Neither hash frames its inputs: [ECVRF_hash_to_curve] depends on the
    message and the key only through their concatenation, and
    [ECVRF_hash_points] on its strings only through theirs. *)
Theorem hash_inputs_unframed (m a pk b : list byte) (ps : list (list byte)) :
  ECVRF_hash_to_curve (m ++ a) pk = ECVRF_hash_to_curve m (a ++ pk)
  ∧ ECVRF_hash_points (a :: b :: ps) = ECVRF_hash_points ((a ++ b) :: ps).
Proof.
  split.
  - unfold ECVRF_hash_to_curve. generalize 0. generalize (Z.to_nat limit).
    induction n as [|n IH]; intros i; cbn [hash_to_curve_loop]; [reflexivity|].
    rewrite <- !app_assoc. rewrite IH. reflexivity.
  - unfold ECVRF_hash_points. cbn [concat]. now rewrite app_assoc.
Qed.

End Code.
End ProofFacts.

(** ** The VRF in terms of the group *)

Module GroupFacts.
Import VRF BytesFacts VRFFacts VRFCorrect ProofFacts.

Section Group.
Context {L : Library} {M : Model L} {HL : Laws L M}.

Lemma smul_plus_q n (P : grp) : smul q P = gzero → 0 <= n → smul (n + q) P = smul n P.
Proof.
  intros Hq Hn. rewrite smul_add by (try assumption; vm_compute; discriminate).
  rewrite Hq. apply gadd_zero_r.
Qed.

(** X10. A point of the subgroup of order [q], encoded by [ECP2OS], is read
    back by [OS2ECP] from the 32 bytes after the sign octet, with the sign
    taken from the octet. *)
Theorem ECP2OS_OS2ECP_inverse (P : ExtendedGroupElement) :
  valid P → smul q (el P) = gzero →
  ∃ sign os P',
    ECP2OS P = Ok (sign :: os)
    ∧ (sign = x02 ∨ sign = x03) ∧ os = enc (el P)
    ∧ OS2ECP os (byte_sub sign 2) = Some P'
    ∧ valid P' ∧ el P' = el P.
Proof.
  intros Hv Hq. rewrite (ECP2OS_enc P Hv).
  destruct (S2OS_total (enc (el P)) (enc_length _)) as (r & Hr).
  rewrite Hr. apply S2OS_Ok in Hr as (b31 & Hb31 & ->).
  destruct (OS2ECP_enc (el P) b31 Hq Hb31) as (P' & HP' & Hv' & He').
  exists (byte_add (byte_shr b31 7) 2), (enc (el P)), P'.
  split; [reflexivity|]. split; [apply sign_octet|]. split; [reflexivity|].
  rewrite sign_octet_sub. repeat split; assumption.
Qed.

(** X11.  The value of the VRF: for a key pair of the Ed25519 key schedule, with
    [x] the clamped scalar of the secret key, the public key encodes [x·B]
    and the hash of a proof for [m] encodes [x·h], where [h] is the point
    [ECVRF_hash_to_curve] finds for [m] and the public key. *)
Theorem proof2hash_value (seed rand pk sk m pi : list byte) :
  GenerateKey seed = Ok (pk, sk) →
  ECVRF_prove rand pk sk m = Ok pi →
  ∃ x h,
    expandSecret sk = Ok x ∧ ECVRF_hash_to_curve m pk = Ok h
    ∧ smul q (el h) = gzero
    ∧ pk = enc (smul (F2IP x) Bpt)
    ∧ ECVRF_proof2hash pi = Ok (enc (smul (F2IP x) (el h))).
Proof.
  intros Hkeys Hprove.
  apply GenerateKey_Ok in Hkeys as (x & Hx & Hlx & Hlpk & Hpk).
  apply prove_Ok in Hprove
    as (x' & h & r & kp & ks & k & og & oh & opk & okp & ohk &
        Hx' & Hh & Hr & _ & _ & _ & _ & _ & _ & _ & Hpi).
  rewrite Hx in Hx'. injection Hx' as <-.
  destruct (hash_to_curve_sound m pk h Hh) as [Hvh Hqh].
  destruct (GeScalarMult_sound h x Hvh Hlx) as [HvG HeG].
  rewrite (ECP2OS_enc _ HvG), HeG in Hr.
  apply S2OS_Ok in Hr as (b31 & _ & ->).
  exists x, h. rewrite (F2IP_le x Hlx). repeat split; try assumption.
  cbv zeta in Hpi. rewrite Hpi. unfold ECVRF_proof2hash, N2.
  rewrite <- app_comm_cons.
  rewrite slice_Ok; [|lia|cbn [length]; rewrite length_app, enc_length; lia].
  cbn [drop]. rewrite drop_0. change (32 + 1 - 1)%nat with 32%nat.
  f_equal. apply take_app_length'. symmetry. apply enc_length.
Qed.

(** X12.  Whenever [ECVRF_verify] returns a verdict, the three points it
    computes with, Gamma of the proof, the point of the public key and the
    point [h] of the message, are valid points of order dividing [q]: what
    [OS2ECP] lets through lies in the subgroup that the base point
    generates. *)
Theorem verified_points_in_subgroup (pk pi m : list byte) (b : bool) :
  ECVRF_verify pk pi m = Ok b →
  ∃ r c s pk31 P h,
    ECVRF_decode_proof pi = Ok (r, c, s)
    ∧ pk !! 31%nat = Some pk31 ∧ OS2ECP pk (byte_shr pk31 7) = Some P
    ∧ ECVRF_hash_to_curve m pk = Ok h
    ∧ (valid r ∧ smul q (el r) = gzero)
    ∧ (valid P ∧ smul q (el P) = gzero)
    ∧ (valid h ∧ smul q (el h) = gzero).
Proof.
  unfold ECVRF_verify. intros H.
  destruct (ECVRF_decode_proof pi) as [[[r c] s]| | |] eqn:Hdec; try discriminate.
  cbn [go_bind] in H. unfold index in H.
  destruct (pk !! 31%nat) as [pk31|] eqn:Hpk; [|discriminate]. cbn [go_bind] in H.
  destruct (OS2ECP pk (byte_shr pk31 7)) as [P|] eqn:HP; [|discriminate].
  destruct (ECVRF_hash_to_curve m pk) as [h| | |] eqn:Hh; try discriminate.
  assert (valid r ∧ smul q (el r) = gzero) as Hr.
  { rewrite decode_proof_eq in Hdec.
    destruct (pi !! 0%nat) as [sign|]; [|discriminate].
    destruct (decide (sign ≠ x02 ∧ sign ≠ x03)); [discriminate|].
    destruct (decide (length pi < 33)%nat); [discriminate|].
    destruct (OS2ECP (take 32 (drop 1 pi)) (byte_sub sign 2)) as [r'|] eqn:Hr; [|discriminate].
    destruct (decide (length pi < 81)%nat); [discriminate|]. injection Hdec as <- _ _.
    apply (OS2ECP_sound _ _ _ Hr). }
  exists r, c, s, pk31, P, h.
  do 4 (split; [first [reflexivity|assumption]|]). split; [exact Hr|]. split.
  - apply (OS2ECP_sound _ _ _ HP).
  - apply (hash_to_curve_sound _ _ _ Hh).
Qed.

(** The rest of [ECVRF_verify], after the proof is decoded. *)
Definition verify_decoded (pk m : list byte) (r : ExtendedGroupElement) (c s : list byte)
  : go error bool :=
  let* pk31 := index pk 31 in
  match OS2ECP pk (byte_shr pk31 7) with
  | None => Err ErrMalformedInput
  | Some P =>
      let u := GeDoubleScalarMultVartime c P s in
      let* h := ECVRF_hash_to_curve m pk in
      let v := GeAdd (GeScalarMult r c) (GeScalarMult h s) in
      let* og := ECP2OS G in
      let* oh := ECP2OS h in
      let* opk := S2OS pk in
      let* or := ECP2OS r in
      let* ou := ECP2OSProj u in
      let* ov := ECP2OS v in
      let c2 := ECVRF_hash_points [og; oh; opk; or; ou; ov] in
      Ok (c2 =? F2IP c)
  end.

Lemma verify_decoded_eq pk pi m :
  ECVRF_verify pk pi m
  = let* (r, c, s) := ECVRF_decode_proof pi in verify_decoded pk m r c s.
Proof.
  unfold ECVRF_verify. destruct (ECVRF_decode_proof pi) as [[[r c] s]| | |]; reflexivity.
Qed.

(** The verifier sees the scalar [s] only through [s·B] and [s·h]. *)
Lemma verify_decoded_plus_q pk m r c s s' :
  length c = 32%nat → length s = 32%nat → length s' = 32%nat →
  le_val s' = le_val s + q →
  verify_decoded pk m r c s' = verify_decoded pk m r c s.
Proof.
  intros Hlc Hls Hls' Hval. unfold verify_decoded.
  destruct (index pk 31) as [pk31| | |]; cbn [go_bind]; try reflexivity.
  destruct (OS2ECP pk (byte_shr pk31 7)) as [P|] eqn:HP; [|reflexivity].
  destruct (OS2ECP_sound _ _ _ HP) as [HvP _].
  destruct (ECVRF_hash_to_curve m pk) as [h| | |] eqn:Hh; cbn [go_bind]; try reflexivity.
  destruct (hash_to_curve_sound m pk h Hh) as [Hvh Hqh].
  pose proof (le_val_range s) as Hs.
  assert (GeScalarMult h s' = GeScalarMult h s) as ->.
  { unfold GeScalarMult.
    destruct (GeDoubleScalarMultVartime_sound s' h (zeros 32) Hvh Hls' (length_zeros 32))
      as [Hv' He'].
    destruct (GeDoubleScalarMultVartime_sound s h (zeros 32) Hvh Hls (length_zeros 32))
      as [Hv He].
    rewrite (ProjToBytes_enc _ Hv'), (ProjToBytes_enc _ Hv), He', He, Hval.
    rewrite (smul_plus_q _ _ Hqh) by lia. reflexivity. }
  assert (ECP2OSProj (GeDoubleScalarMultVartime c P s')
          = ECP2OSProj (GeDoubleScalarMultVartime c P s)) as ->.
  { destruct (GeDoubleScalarMultVartime_sound c P s' HvP Hlc Hls') as [Hv' He'].
    destruct (GeDoubleScalarMultVartime_sound c P s HvP Hlc Hls) as [Hv He].
    rewrite (ECP2OSProj_enc _ Hv'), (ECP2OSProj_enc _ Hv), He', He, Hval.
    rewrite (smul_plus_q _ _ order_Bpt) by lia. reflexivity. }
  reflexivity.
Qed.

(** X13.  [ECVRF_verify] does not ask for [s < q]: the proof with [s + q] in
    place of [s] is another byte string with the same verdict (and the
    same hash, which is read from the first 33 bytes). *)
Theorem verify_s_plus_q (pk m gamma cb : list byte) (s : Z) :
  length gamma = 33%nat → length cb = 16%nat →
  0 <= s → s + q < 2 ^ 256 →
  ECVRF_verify pk (gamma ++ cb ++ I2OSP (s + q) N2) m
  = ECVRF_verify pk (gamma ++ cb ++ I2OSP s N2) m
  ∧ ECVRF_proof2hash (gamma ++ cb ++ I2OSP (s + q) N2)
    = ECVRF_proof2hash (gamma ++ cb ++ I2OSP s N2)
  ∧ gamma ++ cb ++ I2OSP (s + q) N2 ≠ gamma ++ cb ++ I2OSP s N2.
Proof.
  intros Hlg Hlc Hs Hsq.
  assert (0 < q) as Hq by reflexivity.
  assert (∀ t, 0 <= t < 2 ^ 256 → length (I2OSP t N2) = 32%nat) as Hlen
    by (intros t Ht; apply I2OSP_length; exact Ht).
  assert (∀ t, 0 <= t < 2 ^ 256 → le_val (rev (I2OSP t N2)) = t) as Hval.
  { intros t Ht. rewrite le_val_rev. apply (OS2IP_I2OSP t N2). exact Ht. }
  assert (∀ t, 0 <= t < 2 ^ 256 →
            ECVRF_decode_proof (gamma ++ cb ++ I2OSP t N2)
            = match gamma !! 0%nat with
              | None => Panic "index out of range"
              | Some sign =>
                  if decide (sign ≠ x02 ∧ sign ≠ x03) then Err ErrDecodeError
                  else
                    match OS2ECP (drop 1 gamma) (byte_sub sign 2) with
                    | None => Err ErrDecodeError
                    | Some r => Ok (r, copy_into 32 (rev cb), rev (I2OSP t N2))
                    end
              end) as Hdec.
  { intros t Ht. specialize (Hlen t Ht). rewrite decode_proof_eq.
    rewrite lookup_app_l by lia.
    assert (length (gamma ++ cb ++ I2OSP t N2) = 81%nat) as Hl
      by (rewrite !length_app; lia).
    rewrite Hl.
    assert (take 32 (drop 1 (gamma ++ cb ++ I2OSP t N2)) = drop 1 gamma) as ->.
    { rewrite drop_app_le by lia. apply take_app_length'. rewrite length_drop. lia. }
    assert (drop 33 (gamma ++ cb ++ I2OSP t N2) = cb ++ I2OSP t N2) as ->
      by (apply drop_app_length'; lia).
    rewrite (take_app_length' cb _ 16) by lia.
    assert (drop 49 (gamma ++ cb ++ I2OSP t N2) = I2OSP t N2) as ->.
    { rewrite app_assoc. apply drop_app_length'. rewrite length_app. lia. }
    rewrite (take_ge (I2OSP t N2)) by lia.
    destruct (gamma !! 0%nat) as [sign|]; [|reflexivity].
    destruct (decide (sign ≠ x02 ∧ sign ≠ x03)); [reflexivity|].
    destruct (decide (81 < 33)%nat); [lia|].
    destruct (OS2ECP _ _); [|reflexivity].
    destruct (decide (81 < 81)%nat); [lia|reflexivity]. }
  split; [|split].
  - rewrite !verify_decoded_eq, !Hdec by lia.
    destruct (gamma !! 0%nat) as [sign|]; [|reflexivity].
    destruct (decide (sign ≠ x02 ∧ sign ≠ x03)); [reflexivity|].
    destruct (OS2ECP _ _) as [r|]; [|reflexivity]. cbn [go_bind].
    apply verify_decoded_plus_q.
    + apply length_copy_into.
    + rewrite length_rev. apply Hlen. lia.
    + rewrite length_rev. apply Hlen. lia.
    + rewrite !Hval by lia. reflexivity.
  - unfold ECVRF_proof2hash, N2. rewrite !slice_app_l by lia. reflexivity.
  - intros Heq. apply app_inv_head in Heq. apply app_inv_head in Heq.
    apply (f_equal OS2IP) in Heq.
    rewrite !(OS2IP_I2OSP _ N2) in Heq by (change (256 ^ Z.of_nat N2) with (2 ^ 256); lia).
    lia.
Qed.

End Group.
End GroupFacts.

(** ** The VRF facts at work in the small model *)

Module ToyRuns.
Import VRF BytesFacts VRFFacts VRFCorrect Toy OctetFacts ProofFacts GroupFacts.

#[local] Existing Instances toy_library toy_model.

Lemma F2IP_IP2F_inverse_witness :
  length (IP2F q) = 32%nat ∧ 0 <= q
  ∧ IP2F (F2IP (IP2F q)) = IP2F q ∧ F2IP (IP2F q) = q.
Proof.
  assert (length (IP2F q) = 32%nat) as H1 by (vm_compute; reflexivity).
  assert (0 <= q) as H2 by (vm_compute; discriminate).
  destruct (F2IP_IP2F_inverse (IP2F q) q H1 H2) as (Ha & _ & _ & Hb).
  split; [exact H1|]. split; [exact H2|]. split; [exact Ha|].
  rewrite Hb. vm_compute. reflexivity.
Defined.

Lemma expandSecret_clamps_witness :
  (32 ≤ length sk0)%nat
  ∧ length (sha512_Sum512 (take 32 sk0)) = 64%nat
  ∧ ∃ x, expandSecret sk0 = Ok x ∧ F2IP x mod 8 = 0 ∧ 2 ^ 254 <= F2IP x < 2 ^ 255.
Proof.
  assert (32 ≤ length sk0)%nat as H1 by (vm_compute; repeat constructor).
  assert (length (sha512_Sum512 (take 32 sk0)) = 64%nat) as H2 by (vm_compute; reflexivity).
  split; [exact H1|]. split; [exact H2|].
  destruct (@expandSecret_clamps toy_library sk0 H1 H2) as (x & Hx & _ & _ & Hm & Hr).
  exists x. split; [exact Hx|]. split; [exact Hm|exact Hr].
Defined.

Lemma trailing_bytes_ignored_witness :
  (81 ≤ length pi1)%nat
  ∧ ECVRF_verify pk0 (pi1 ++ [x2a; x2a]) msg0 = Ok true
  ∧ ECVRF_proof2hash (pi1 ++ [x2a; x2a]) = ECVRF_proof2hash pi1.
Proof.
  assert (81 ≤ length pi1)%nat as H1 by (vm_compute; repeat constructor).
  destruct (@trailing_bytes_ignored toy_library pk0 pi1 msg0 [x2a; x2a] H1) as (_ & Hv & Hh).
  split; [exact H1|]. split; [|exact Hh].
  rewrite Hv. vm_compute. reflexivity.
Defined.

Lemma toy_order (g : Fq) : smul q g = gzero.
Proof.
  rewrite toy_smul by (vm_compute; discriminate).
  assert (Zmod.of_Z q q = Zmod.zero) as ->.
  { apply Zmod.to_Z_inj. now rewrite Zmod.to_Z_of_Z, Z_mod_same_full, Zmod.to_Z_0. }
  apply Zmod.mul_0_l.
Qed.

Lemma ECP2OS_OS2ECP_inverse_witness :
  valid G ∧ smul q (el G) = gzero
  ∧ ∃ sign os P', ECP2OS G = Ok (sign :: os) ∧ OS2ECP os (byte_sub sign 2) = Some P'
                  ∧ el P' = el G.
Proof.
  assert (valid G) as H1 by (eexists; reflexivity).
  assert (smul q (el G) = gzero) as H2 by apply toy_order.
  split; [exact H1|]. split; [exact H2|].
  destruct (@ECP2OS_OS2ECP_inverse toy_library toy_model toy_laws G H1 H2)
    as (sign & os & P' & HE & _ & _ & HO & _ & Hel).
  exists sign, os, P'. split; [exact HE|]. split; [exact HO|exact Hel].
Defined.

Lemma proof2hash_value_witness :
  GenerateKey seed0 = Ok (pk0, sk0)
  ∧ ECVRF_prove rand1 pk0 sk0 msg0 = Ok pi1
  ∧ ∃ x h, expandSecret sk0 = Ok x ∧ ECVRF_hash_to_curve msg0 pk0 = Ok h
           ∧ pk0 = enc (smul (F2IP x) Bpt)
           ∧ ECVRF_proof2hash pi1 = Ok (enc (smul (F2IP x) (el h))).
Proof.
  assert (GenerateKey seed0 = Ok (pk0, sk0)) as Hk by (vm_compute; reflexivity).
  assert (ECVRF_prove rand1 pk0 sk0 msg0 = Ok pi1) as Hp by (vm_compute; reflexivity).
  split; [exact Hk|]. split; [exact Hp|].
  destruct (@proof2hash_value toy_library toy_model toy_laws seed0 rand1 pk0 sk0 msg0 pi1 Hk Hp)
    as (x & h & Hx & Hh & _ & Hpk & Hout).
  exists x, h. repeat split; assumption.
Defined.

Lemma verified_points_in_subgroup_witness :
  ECVRF_verify pk0 pi1 msg0 = Ok true
  ∧ ∃ r c s, ECVRF_decode_proof pi1 = Ok (r, c, s) ∧ valid r ∧ smul q (el r) = gzero.
Proof.
  assert (ECVRF_verify pk0 pi1 msg0 = Ok true) as H1 by (vm_compute; reflexivity).
  destruct (@verified_points_in_subgroup toy_library toy_model toy_laws pk0 pi1 msg0 true H1)
    as (r & c & s & _ & _ & _ & Hdec & _ & _ & _ & (Hv & Hq) & _).
  split; [exact H1|]. exists r, c, s. split; [exact Hdec|]. split; [exact Hv|exact Hq].
Defined.

(** The parts of the proof [pi1]. *)
Definition gamma1 : list byte := take 33 pi1.
Definition cb1 : list byte := take 16 (drop 33 pi1).
Definition s1 : Z := OS2IP (drop 49 pi1).

Lemma verify_s_plus_q_witness :
  length gamma1 = 33%nat ∧ length cb1 = 16%nat ∧ 0 <= s1 ∧ s1 + q < 2 ^ 256
  ∧ gamma1 ++ cb1 ++ I2OSP s1 N2 = pi1
  ∧ gamma1 ++ cb1 ++ I2OSP (s1 + q) N2 ≠ pi1
  ∧ ECVRF_verify pk0 (gamma1 ++ cb1 ++ I2OSP (s1 + q) N2) msg0 = Ok true.
Proof.
  assert (length gamma1 = 33%nat) as H1 by (vm_compute; reflexivity).
  assert (length cb1 = 16%nat) as H2 by (vm_compute; reflexivity).
  assert (0 <= s1) as H3 by (vm_compute; discriminate).
  assert (s1 + q < 2 ^ 256) as H4 by (vm_compute; reflexivity).
  assert (gamma1 ++ cb1 ++ I2OSP s1 N2 = pi1) as H5 by (vm_compute; reflexivity).
  destruct (@verify_s_plus_q toy_library toy_model toy_laws pk0 msg0 gamma1 cb1 s1 H1 H2 H3 H4)
    as (Hv & _ & Hne).
  split; [exact H1|]. split; [exact H2|]. split; [exact H3|]. split; [exact H4|].
  split; [exact H5|]. split.
  - rewrite <- H5. exact Hne.
  - rewrite Hv, H5. vm_compute. reflexivity.
Defined.

(** The last byte of the encoded point in [pi1], and the same byte with its
    top bit flipped. *)
Definition top1 : byte :=
  Eval vm_compute in match pi1 !! 32%nat with Some b => b | None => x00 end.
Definition top1' : byte := Eval vm_compute in byte_of_Z (Z.lxor (byte_to_Z top1) 128).

Lemma verify_ignores_encoded_sign_witness :
  pi1 !! 32%nat = Some top1 ∧ byte_and top1' 0x7f = byte_and top1 0x7f ∧ top1' ≠ top1
  ∧ ECVRF_verify pk0 (<[32%nat := top1']> pi1) msg0 = Ok true
  ∧ ECVRF_proof2hash (<[32%nat := top1']> pi1) ≠ ECVRF_proof2hash pi1.
Proof.
  assert (pi1 !! 32%nat = Some top1) as H1 by reflexivity.
  assert (byte_and top1' 0x7f = byte_and top1 0x7f) as H2 by reflexivity.
  assert (top1' ≠ top1) as H3 by discriminate.
  destruct (@verify_ignores_encoded_sign toy_library pk0 pi1 msg0 top1 top1' H1 H2 H3)
    as (Hv & Hh).
  split; [exact H1|]. split; [exact H2|]. split; [exact H3|]. split; [|exact Hh].
  rewrite Hv. vm_compute. reflexivity.
Defined.

End ToyRuns.

(** ** The log: reading back what was saved *)

Module LogFacts.
Import Raftlog BytesFacts RaftlogFacts.

(** No key lies in a range whose limit is not above its start. *)
Lemma Range_empty a b k : bytes_leb b a = true → Range a b k = false.
Proof.
  intros Hba. unfold Range. destruct (bytes_leb a k) eqn:Hak; [|reflexivity].
  now rewrite (bytes_leb_trans _ _ _ Hba Hak).
Qed.

Lemma NewIterator_none db r :
  readFault db = None → (∀ k, is_Some (store db !! k) → r k = false) →
  NewIterator db r = ([], None).
Proof.
  intros Hrf Hr. destruct (NewIterator db r) as [items e] eqn:Hit.
  destruct (NewIterator_healthy _ _ _ _ Hrf Hit) as (-> & _ & _ & Hmem).
  destruct items as [|[k v] items]; [reflexivity|].
  destruct (proj1 (Hmem k v) ltac:(left)) as [Hst Hk].
  rewrite Hr in Hk by (rewrite Hst; eauto). discriminate.
Qed.

Lemma StronglySorted_seqZ m n : StronglySorted Z.lt (seqZ m n).
Proof.
  destruct (Z_le_gt_dec n 0) as [Hn|Hn]; [rewrite seqZ_nil by lia; constructor|].
  rewrite <- (Z2Nat.id n) by lia. generalize (Z.to_nat n). clear. intros k. revert m.
  induction k as [|k IH]; intros m; [constructor|].
  rewrite seqZ_cons by lia. replace (Z.pred (Z.of_nat (S k))) with (Z.of_nat k) by lia.
  constructor; [apply IH|].
  rewrite Forall_forall. intros j Hj. apply elem_of_seqZ in Hj. lia.
Qed.

Section Storage.
Context {PB : RaftPB}.

(** X14.  The key of a log entry: the prefix and the index in eight big-endian
    bytes, so that keys are ordered as their indices are and the index can
    be read back from the key. *)
Theorem getEntryKey_order (s : raftStorage) (a b : Z) :
  0 <= a < 2 ^ 64 → 0 <= b < 2 ^ 64 →
  length (getEntryKey s a) = (length (entryKeyPrefix s) + 8)%nat
  ∧ has_prefix (entryKeyPrefix s) (getEntryKey s a) = true
  ∧ Uint64 (E:=error) (drop (length (entryKeyPrefix s)) (getEntryKey s a)) = Ok a
  ∧ (bytes_leb (getEntryKey s a) (getEntryKey s b) = true ↔ a <= b)
  ∧ (getEntryKey s a = getEntryKey s b ↔ a = b).
Proof.
  intros Ha Hb. unfold getEntryKey. split; [|split; [|split; [|split]]].
  - now rewrite length_app, length_PutUint64.
  - apply has_prefix_spec. eauto.
  - rewrite drop_app_length. now apply Uint64_PutUint64.
  - fold (getEntryKey s a) (getEntryKey s b). rewrite getEntryKey_le by assumption.
    apply Z.leb_le.
  - split; [|now intros ->]. apply (getEntryKey_inj s); assumption.
Qed.

(** [LastIndex] on a well-formed, readable store. *)
Lemma LastIndex_spec s db :
  entries_wf s db → readFault db = None →
  ∃ n, LastIndex s db = Ok n ∧ 0 <= n < 2 ^ 64
       ∧ (∀ i, 0 <= i < 2 ^ 64 → is_Some (stored s db i) → i <= n)
       ∧ (is_Some (stored s db n)
          ∨ (n = 0 ∧ ∀ i, 0 <= i < 2 ^ 64 → stored s db i = None)).
Proof.
  intros Hwf Hrf. unfold LastIndex.
  destruct (NewIterator db (BytesPrefix (entryKeyPrefix s))) as [items e] eqn:Hit.
  destruct (NewIterator_healthy _ _ _ _ Hrf Hit) as (-> & Hsorted & _ & Hmem).
  assert (∀ i v, stored s db i = Some v → (getEntryKey s i, v) ∈ items) as Hin.
  { intros i v Hv. apply Hmem. split; [exact Hv|]. apply has_prefix_spec.
    unfold getEntryKey. eauto. }
  destruct (last items) as [[k v]|] eqn:Hlast.
  - apply last_Some in Hlast as (items' & ->).
    destruct (proj1 (Hmem k v)) as [Hst Hp]; [apply elem_of_app; right; left|].
    destruct (Hwf k) as (n & Hn & ->); [rewrite Hst; eauto|exact Hp|].
    exists n. unfold getEntryKey at 1. rewrite drop_app_length.
    rewrite Uint64_PutUint64 by assumption. cbn [go_bind].
    split; [reflexivity|]. split; [assumption|]. split.
    + intros i Hi [v' Hv']. specialize (Hin i v' Hv').
      apply elem_of_app in Hin as [Hin|Hin].
      * pose proof (StronglySorted_app_1_elem_of _ _ _ _ _ Hsorted Hin ltac:(left)) as Hle.
        unfold item_le in Hle. cbn in Hle. rewrite getEntryKey_le in Hle by assumption.
        now apply Z.leb_le in Hle.
      * apply list_elem_of_singleton in Hin. injection Hin as Hk _.
        apply getEntryKey_inj in Hk; lia.
    + left. unfold stored. rewrite Hst. eauto.
  - apply last_None in Hlast as ->.
    exists 0. split; [reflexivity|]. split; [lia|].
    assert (∀ i, stored s db i = None) as Hnone.
    { intros i. destruct (stored s db i) as [v|] eqn:Hv; [|reflexivity].
      apply Hin in Hv. now apply elem_of_nil in Hv. }
    split.
    + intros i _ [v Hv]. rewrite Hnone in Hv. discriminate.
    + right. split; [reflexivity|]. intros i _. apply Hnone.
Qed.

(** X15. On a well-formed, readable store [LastIndex] returns the greatest
    index under which an entry is stored, and 0 when none is: the empty log
    and the log that holds only index 0 look alike. *)
Theorem LastIndex_greatest s db :
  entries_wf s db → readFault db = None →
  ∃ n, LastIndex s db = Ok n ∧ 0 <= n < 2 ^ 64
       ∧ (∀ i, 0 <= i < 2 ^ 64 → is_Some (stored s db i) → i <= n)
       ∧ (is_Some (stored s db n)
          ∨ (n = 0 ∧ ∀ i, 0 <= i < 2 ^ 64 → stored s db i = None))
       ∧ ∀ n', 0 <= n' < 2 ^ 64 →
           (∀ i, 0 <= i < 2 ^ 64 → is_Some (stored s db i) → i <= n') →
           is_Some (stored s db n') → n' = n.
Proof.
  intros Hwf Hrf.
  destruct (LastIndex_spec s db Hwf Hrf) as (n & HLI & Hn & Hgreatest & Hthere).
  exists n. repeat split; try assumption; try lia.
  intros n' Hn' Hgreatest' Hthere'.
  pose proof (Hgreatest n' Hn' Hthere') as Hle.
  destruct Hthere as [Hsome|[-> Hnone]].
  - pose proof (Hgreatest' n Hn Hsome). lia.
  - rewrite Hnone in Hthere' by assumption. now destruct Hthere'.
Qed.

(** The entries of a one-index range. *)
Lemma Entries_one s db i maxSize :
  entries_wf s db → readFault db = None → 0 <= i → i + 1 < 2 ^ 64 →
  Entries s db i (i + 1) maxSize
  = match stored s db i with
    | None => ([], None)
    | Some v =>
        match Entry_Unmarshal v with
        | Done e => ([e], None)
        | Failed err => ([], Some err)
        end
    end.
Proof.
  intros Hwf Hrf Hi Hi1. unfold Entries.
  destruct (NewIterator db _) as [items e] eqn:Hit.
  destruct (range_iterator s db i (i + 1) items e Hwf Hrf ltac:(lia) ltac:(lia) Hit)
    as (-> & idxs & Hsorted & Hmem & Hvals).
  destruct (stored s db i) as [v|] eqn:Hv.
  - assert (idxs = [i]) as ->.
    { apply sorted_lt_unique; [assumption|repeat constructor|].
      intros j. rewrite Hmem, list_elem_of_singleton. split.
      - intros [Hj _]. lia.
      - intros ->. split; [lia|]. rewrite Hv. eauto. }
    inversion Hvals as [|? [k v'] ? items' Hkv Hrest]; subst.
    inversion Hrest; subst. cbn in Hkv. rewrite Hv in Hkv. injection Hkv as <-.
    cbn [Entries_loop]. destruct (Entry_Unmarshal v) as [en|err]; [|reflexivity].
    cbn [length Z.of_nat]. rewrite Z.ltb_irrefl, andb_false_r. cbn [app].
    destruct (_ <=? _); reflexivity.
  - assert (idxs = []) as ->.
    { destruct idxs as [|j idxs]; [reflexivity|].
      destruct (proj1 (Hmem j) ltac:(left)) as [Hj [v Hv']].
      assert (j = i) as -> by lia. rewrite Hv in Hv'. discriminate. }
    inversion Hvals; subst. reflexivity.
Qed.

(** X16.  [Term(i)] on a well-formed, readable store: the term of the entry
    stored under [i], the error of its [Unmarshal], or a panic when nothing
    is stored there.  For [i = 2^64 - 1] the upper bound [i+1] wraps to 0,
    the range is empty and [Term] panics whatever is stored. *)
Theorem Term_of_stored s db i :
  entries_wf s db → readFault db = None → 0 <= i < 2 ^ 64 →
  raftStorage_Term s db i
  = if decide (i = MaxUint64) then Panic "number of entries with index %d not 1: %d"
    else
      match stored s db i with
      | None => Panic "number of entries with index %d not 1: %d"
      | Some v =>
          match Entry_Unmarshal v with
          | Done e => Ok (Term e)
          | Failed err => Err err
          end
      end.
Proof.
  intros Hwf Hrf Hi. unfold raftStorage_Term.
  destruct (decide (i = MaxUint64)) as [->|Hne].
  - change (wrap64 (MaxUint64 + 1)) with 0. unfold Entries.
    rewrite NewIterator_none; [reflexivity|assumption|].
    intros k _. apply Range_empty. rewrite getEntryKey_le by (unfold MaxUint64; lia).
    reflexivity.
  - unfold MaxUint64 in Hne. unfold wrap64. rewrite Z.mod_small by lia.
    rewrite Entries_one by (try assumption; lia).
    destruct (stored s db i) as [v|]; [|reflexivity].
    destruct (Entry_Unmarshal v) as [e|err]; reflexivity.
Qed.


(** *** After [save] *)

Lemma marshal_all_lookup entries bs k e :
  marshal_all entries = Done bs → entries !! k = Some e →
  ∃ b, Entry_Marshal e = Done b ∧ bs !! k = Some b.
Proof.
  revert bs k. induction entries as [|e' entries IH]; intros bs k Hm Hk; [discriminate|].
  cbn [marshal_all] in Hm. destruct (Entry_Marshal e') as [b'|] eqn:Hb'; [|discriminate].
  destruct (marshal_all entries) as [bs'|]; [|discriminate]. injection Hm as <-.
  destruct k as [|k]; cbn in Hk.
  - injection Hk as <-. exists b'. now split.
  - destruct (IH bs' k eq_refl Hk) as (b & Hb & Hbs). exists b. now split.
Qed.

Lemma marshal_all_length entries bs :
  marshal_all entries = Done bs → length bs = length entries.
Proof.
  revert bs. induction entries as [|e entries IH]; intros bs Hm; cbn [marshal_all] in Hm.
  - now injection Hm as <-.
  - destruct (Entry_Marshal e); [|discriminate].
    destruct (marshal_all entries) as [bs'|]; [|discriminate]. injection Hm as <-.
    cbn. now rewrite (IH bs').
Qed.

(** What a [save] that returned nil has done. *)
Lemma save_Ok_inv s db state entries db' :
  Forall (λ e, 0 <= Index e < 2 ^ 64) entries →
  save s db state entries = (Ok tt, db') →
  ∃ sb js bs,
    HardState_Marshal state = Done sb ∧ marshal_all entries = Done bs
    ∧ writeFault db = None
    ∧ db' = {| store := fold_left apply_op
                          ([Put (hardStateKey s) sb]
                           ++ ((λ i, Delete (getEntryKey s i)) <$> js)
                           ++ puts s entries bs) (store db);
               readFault := readFault db; writeFault := writeFault db |}
    ∧ match entries with
      | [] => js = []
      | e0 :: _ =>
          ∃ lastIndex, LastIndex s db = Ok lastIndex ∧ lastIndex < MaxUint64
            ∧ Index e0 <= lastIndex + 1
            ∧ js = seqZ (Index e0) (lastIndex - Index e0 + 1)
      end.
Proof.
  intros Htyped. unfold save.
  destruct (HardState_Marshal state) as [sb|err]; [|discriminate].
  destruct entries as [|e0 entries].
  - rewrite save_Write. unfold commit. destruct (writeFault db) eqn:Hwf; [discriminate|].
    intros [= <-]. exists sb, [], []. repeat split; reflexivity.
  - destruct (LastIndex s db) as [lastIndex|err|msg|] eqn:HLI; cbn [go_bind]; try discriminate.
    pose proof (LastIndex_range _ _ _ HLI) as Hrange.
    apply Forall_cons in Htyped as [H0 _].
    destruct (Z.eq_dec lastIndex MaxUint64) as [->|Hne].
    { destruct (_ <? _); [discriminate|].
      rewrite clear_loop_diverges by assumption. discriminate. }
    unfold MaxUint64 in Hne. unfold wrap64. rewrite Z.mod_small by lia.
    destruct (Z.ltb_spec (lastIndex + 1) (Index e0)) as [Hgap|Hok]; [discriminate|].
    rewrite clear_loop_ends by (unfold MaxUint64; lia).
    rewrite append_loop_spec.
    destruct (marshal_all (e0 :: entries)) as [bs|err]; [|discriminate].
    rewrite save_Write. unfold commit. destruct (writeFault db) eqn:Hwf; [discriminate|].
    intros [= <-]. exists sb, (seqZ (Index e0) (lastIndex - Index e0 + 1)), bs.
    repeat split; try reflexivity.
    exists lastIndex. unfold MaxUint64. repeat split; try reflexivity; lia.
Qed.

Lemma fold_delete_keys (s : raftStorage) (js : list Z) (m : gmap (list byte) (list byte)) k :
  k ∈ (getEntryKey s <$> js) →
  fold_left apply_op ((λ j, Delete (getEntryKey s j)) <$> js) m !! k = None.
Proof.
  revert m. induction js as [|j js IH]; intros m Hin; [now apply elem_of_nil in Hin|].
  cbn [fmap list_fmap fold_left apply_op].
  destruct (decide (k ∈ (getEntryKey s <$> js))) as [Hin'|Hnot]; [now apply IH|].
  cbn in Hin. apply elem_of_cons in Hin as [->|]; [|contradiction].
  rewrite fold_apply_other; [apply lookup_delete_eq|].
  intros o Ho. apply list_elem_of_fmap in Ho as (j' & -> & Hj'). cbn [op_key].
  intros H. apply Hnot. rewrite <- H. now apply list_elem_of_fmap_2.
Qed.

(** On the keys a batch writes, the outcome does not depend on the store. *)
Lemma fold_apply_written (wb : list op) (m1 m2 : gmap (list byte) (list byte)) k :
  k ∈ (op_key <$> wb) →
  fold_left apply_op wb m1 !! k = fold_left apply_op wb m2 !! k.
Proof.
  revert m1 m2. induction wb as [|o wb IH]; intros m1 m2 Hin; [now apply elem_of_nil in Hin|].
  cbn [fold_left].
  destruct (decide (k ∈ (op_key <$> wb))) as [Hin'|Hnot]; [now apply IH|].
  cbn in Hin. apply elem_of_cons in Hin as [->|]; [|contradiction].
  rewrite !fold_apply_other.
  - destruct o as [k v|k]; cbn; [now rewrite !lookup_insert_eq|now rewrite !lookup_delete_eq].
  - intros o' Ho' H. apply Hnot. rewrite <- H. now apply list_elem_of_fmap_2.
  - intros o' Ho' H. apply Hnot. rewrite <- H. now apply list_elem_of_fmap_2.
Qed.

Lemma puts_lookup s entries bs k o :
  puts s entries bs !! k = Some o
  ↔ ∃ e b, o = Put (getEntryKey s (Index e)) b ∧ entries !! k = Some e ∧ bs !! k = Some b.
Proof. unfold puts. apply lookup_zip_with_Some. Qed.

Section Opened.
Variables (prefix : list byte) (ic : ConfState).
Let s := openRaftStorage prefix ic.

Lemma hardStateKey_not_entry i : hardStateKey s ≠ getEntryKey s i.
Proof. apply (openRaftStorage_keys prefix ic i). Qed.

Lemma batch_keeps_hardState sb js entries bs m :
  fold_left apply_op
    ([Put (hardStateKey s) sb] ++ ((λ i, Delete (getEntryKey s i)) <$> js)
     ++ puts s entries bs) m !! hardStateKey s = Some sb.
Proof.
  rewrite fold_left_app. cbn [fold_left apply_op].
  rewrite fold_apply_other; [apply lookup_insert_eq|].
  intros o Ho. apply elem_of_app in Ho as [Ho|Ho].
  - apply list_elem_of_fmap in Ho as (j & -> & _). cbn [op_key].
    intros H. symmetry in H. revert H. apply hardStateKey_not_entry.
  - apply puts_keys in Ho as (e & _ & ->).
    intros H. symmetry in H. revert H. apply hardStateKey_not_entry.
Qed.

Lemma batch_keeps_confState sb js entries bs m :
  fold_left apply_op
    ([Put (hardStateKey s) sb] ++ ((λ i, Delete (getEntryKey s i)) <$> js)
     ++ puts s entries bs) m !! confStateKey s = m !! confStateKey s.
Proof.
  apply fold_apply_other. intros o Ho.
  rewrite !elem_of_app in Ho. destruct Ho as [Ho|[Ho|Ho]].
  - apply list_elem_of_singleton in Ho as ->. cbn [op_key]. intros H. symmetry in H.
    revert H. apply (openRaftStorage_keys prefix ic 0).
  - apply list_elem_of_fmap in Ho as (j & -> & _). cbn [op_key]. intros H. symmetry in H.
    revert H. apply (openRaftStorage_keys prefix ic j).
  - apply puts_keys in Ho as (e & _ & ->). intros H. symmetry in H.
    revert H. apply (openRaftStorage_keys prefix ic (Index e)).
Qed.

(** X17.  After a [save] that returned nil the storage is initialized, and
    [InitialState] gives back the hard state that was saved, as far as its
    encoding decodes to it, with the ConfState it gave before: [save] never
    writes the ConfState key. *)
Theorem InitialState_after_save db state entries db' hs cs :
  Forall (λ e, 0 <= Index e < 2 ^ 64) entries →
  readFault db = None →
  InitialState s db = Ok (hs, cs) →
  (∀ sb, HardState_Marshal state = Done sb → HardState_Unmarshal sb = Done state) →
  save s db state entries = (Ok tt, db') →
  IsInitialized s db' = Ok true
  ∧ InitialState s db' = Ok (state, cs).
Proof.
  intros Htyped Hrf HIS Hcodec Hsave.
  destruct (save_Ok_inv s db state entries db' Htyped Hsave)
    as (sb & js & bs & Hsb & _ & _ & -> & _).
  split.
  - unfold IsInitialized, Get. cbn [readFault store]. rewrite Hrf.
    now rewrite batch_keeps_hardState.
  - unfold InitialState in *. unfold Get in *. cbn [readFault store]. rewrite Hrf in *.
    rewrite batch_keeps_hardState, batch_keeps_confState.
    destruct (store db !! confStateKey s) as [b|].
    + cbn [go_bind] in *. destruct (ConfState_Unmarshal zeroConfState b) as [c|]; [|discriminate].
      cbn [lift go_bind] in *. rewrite (Hcodec sb Hsb). cbn [lift go_bind].
      destruct (store db !! hardStateKey s) as [hb|].
      * destruct (HardState_Unmarshal hb); [|discriminate]. cbn in HIS. now injection HIS as _ <-.
      * now injection HIS as _ <-.
    + cbn [go_bind] in *. destruct (ConfState_Unmarshal (initialConf s) []) as [c|]; [|discriminate].
      cbn [lift go_bind] in *. rewrite (Hcodec sb Hsb). cbn [lift go_bind].
      destruct (store db !! hardStateKey s) as [hb|].
      * destruct (HardState_Unmarshal hb); [|discriminate]. cbn in HIS. now injection HIS as _ <-.
      * now injection HIS as _ <-.
Qed.


(** A batch of consecutive indices from [i0] on. *)
Definition consecutive (i0 : Z) (entries : list Entry) : Prop :=
  Index <$> entries = seqZ i0 (Z.of_nat (length entries)).

Lemma consecutive_lookup i0 entries k e :
  consecutive i0 entries → entries !! k = Some e → Index e = i0 + Z.of_nat k.
Proof.
  intros Hc Hk. assert ((Index <$> entries) !! k = Some (Index e)) as H
    by (rewrite list_lookup_fmap, Hk; reflexivity).
  rewrite Hc in H. now apply lookup_seqZ in H as [-> _].
Qed.

Lemma consecutive_typed i0 entries :
  consecutive i0 entries → 0 <= i0 → i0 + Z.of_nat (length entries) <= 2 ^ 64 →
  Forall (λ e, 0 <= Index e < 2 ^ 64) entries.
Proof.
  intros Hc H0 Hn. rewrite Forall_forall. intros e He.
  apply list_elem_of_lookup in He as (k & Hk).
  rewrite (consecutive_lookup i0 entries k e Hc Hk).
  apply lookup_lt_Some in Hk. lia.
Qed.

(** The store after a consecutive batch was saved. *)
Lemma saved_stored db state entries db' i0 :
  entries_wf s db → readFault db = None →
  entries ≠ [] → consecutive i0 entries →
  0 <= i0 → i0 + Z.of_nat (length entries) <= 2 ^ 64 →
  save s db state entries = (Ok tt, db') →
  entries_wf s db' ∧ readFault db' = None
  ∧ (∀ k e, entries !! k = Some e →
       ∃ b, Entry_Marshal e = Done b ∧ stored s db' (i0 + Z.of_nat k) = Some b)
  ∧ (∀ i, i0 + Z.of_nat (length entries) <= i < 2 ^ 64 → stored s db' i = None).
Proof.
  intros Hwf Hrf Hne Hc H0 Hn Hsave.
  pose proof (consecutive_typed i0 entries Hc H0 Hn) as Htyped.
  pose proof (entries_wf_save prefix ic db state entries (Ok tt) db' Htyped Hsave Hwf) as Hwf'.
  destruct (save_Ok_inv s db state entries db' Htyped Hsave)
    as (sb & js & bs & Hsb & Hbs & _ & -> & Hjs).
  destruct entries as [|e0 tl] eqn:Hentries; [congruence|]. rewrite <- Hentries in *.
  destruct Hjs as (lastIndex & HLI & Hmax & Hgap & ->).
  assert (Index e0 = i0) as Hi0.
  { rewrite (consecutive_lookup i0 entries 0 e0 Hc) by (rewrite Hentries; reflexivity). lia. }
  rewrite Hi0 in *.
  destruct (LastIndex_spec s db Hwf Hrf) as (n & HLI' & Hn' & Hgreatest & _).
  rewrite HLI in HLI'. injection HLI' as <-.
  split; [assumption|]. split; [assumption|]. split.
  - intros k e Hk.
    destruct (marshal_all_lookup entries bs k e Hbs Hk) as (b & Hb & Hbk).
    exists b. split; [assumption|].
    unfold stored. cbn [store]. rewrite app_assoc, fold_left_app.
    assert (puts s entries bs !! k = Some (Put (getEntryKey s (i0 + Z.of_nat k)) b)) as HP.
    { apply puts_lookup. exists e, b.
      rewrite (consecutive_lookup i0 entries k e Hc Hk). auto. }
    rewrite <- (take_drop_middle _ _ _ HP), fold_left_app. cbn [fold_left apply_op].
    rewrite fold_apply_other; [apply lookup_insert_eq|].
    intros o Ho. apply list_elem_of_lookup in Ho as (k' & Hk').
    rewrite lookup_drop in Hk'. apply puts_lookup in Hk' as (e' & b' & -> & He' & _).
    cbn [op_key]. rewrite (consecutive_lookup i0 entries _ e' Hc He').
    apply lookup_lt_Some in He'. apply lookup_lt_Some in Hk.
    intros H. apply getEntryKey_inj in H; lia.
  - intros i Hi. unfold stored. cbn [store]. rewrite app_assoc, fold_left_app.
    rewrite fold_apply_other.
    2:{ intros o Ho. apply list_elem_of_lookup in Ho as (k' & Hk').
        apply puts_lookup in Hk' as (e' & b' & -> & He' & _). cbn [op_key].
        rewrite (consecutive_lookup i0 entries _ e' Hc He').
        apply lookup_lt_Some in He'. intros H. apply getEntryKey_inj in H; lia. }
    rewrite fold_left_app. cbn [fold_left apply_op].
    destruct (Z_le_gt_dec i lastIndex) as [Hle|Hgt].
    + apply fold_delete_keys. apply list_elem_of_fmap_2. apply elem_of_seqZ. lia.
    + rewrite fold_apply_other.
      2:{ intros o Ho. apply list_elem_of_fmap in Ho as (j & -> & Hj). cbn [op_key].
          apply elem_of_seqZ in Hj. intros H. apply getEntryKey_inj in H; lia. }
      rewrite lookup_insert_ne by apply hardStateKey_not_entry.
      destruct (store db !! getEntryKey s i) as [v|] eqn:Hv; [|reflexivity].
      specialize (Hgreatest i ltac:(lia) ltac:(unfold stored; rewrite Hv; eauto)). lia.
Qed.

(** X18.  After a consecutive batch [i0, i0+1, ...] was saved, the log from [i0]
    on is that batch: each entry is stored under its index, nothing is
    stored above the last one, whatever was there before, and [LastIndex]
    is the index of the last one. *)
Theorem save_replaces_suffix db state entries db' i0 :
  entries_wf s db → readFault db = None →
  entries ≠ [] → consecutive i0 entries →
  0 <= i0 → i0 + Z.of_nat (length entries) <= 2 ^ 64 →
  save s db state entries = (Ok tt, db') →
  (∀ k e, entries !! k = Some e →
     ∃ b, Entry_Marshal e = Done b ∧ stored s db' (i0 + Z.of_nat k) = Some b)
  ∧ (∀ i, i0 + Z.of_nat (length entries) <= i < 2 ^ 64 → stored s db' i = None)
  ∧ LastIndex s db' = Ok (i0 + Z.of_nat (length entries) - 1).
Proof.
  intros Hwf Hrf Hne Hc H0 Hn Hsave.
  destruct (saved_stored db state entries db' i0 Hwf Hrf Hne Hc H0 Hn Hsave)
    as (Hwf' & Hrf' & Hin & Hout).
  split; [assumption|]. split; [assumption|].
  destruct (LastIndex_spec s db' Hwf' Hrf') as (n & -> & Hn' & Hgreatest & Hthere).
  f_equal.
  assert (length entries ≠ 0%nat) as Hlen by (destruct entries; [congruence|discriminate]).
  destruct (lookup_lt_is_Some_2 entries (length entries - 1)) as [e He]; [lia|].
  destruct (Hin _ e He) as (b & _ & Hb).
  replace (i0 + Z.of_nat (length entries - 1)) with (i0 + Z.of_nat (length entries) - 1)
    in Hb by lia.
  pose proof (Hgreatest (i0 + Z.of_nat (length entries) - 1) ltac:(lia)
                ltac:(rewrite Hb; eauto)) as Hge.
  destruct Hthere as [[v Hv]|[_ Hnone]].
  - destruct (Z_lt_le_dec n (i0 + Z.of_nat (length entries))) as [|Hbig]; [lia|].
    rewrite Hout in Hv by lia. discriminate.
  - rewrite Hnone in Hb by lia. discriminate.
Qed.

Lemma accumulate_from_all (Hpos : ∀ e, 0 < Entry_Size e) running maxSize es :
  running + total_size es <= maxSize → accumulate_from running maxSize es = es.
Proof.
  revert running. induction es as [|e es IH]; intros running H; [reflexivity|].
  cbn [accumulate_from]. cbn [total_size] in H.
  pose proof (total_size_nonneg Hpos es).
  destruct (Z.ltb_spec maxSize (running + Entry_Size e)); [lia|].
  f_equal. apply IH. lia.
Qed.

Lemma accumulate_all (Hpos : ∀ e, 0 < Entry_Size e) maxSize es :
  total_size es <= maxSize → accumulate maxSize es = es.
Proof.
  destruct es as [|e es]; [reflexivity|]. cbn. intros H. f_equal.
  apply accumulate_from_all; [assumption|lia].
Qed.

(** Reading back a consecutive batch that was saved. *)
Lemma saved_Entries db state entries db' i0 maxSize :
  (∀ e, 0 < Entry_Size e) →
  entries_wf s db → readFault db = None →
  entries ≠ [] → consecutive i0 entries →
  0 <= i0 → i0 + Z.of_nat (length entries) < 2 ^ 64 →
  (∀ e b, e ∈ entries → Entry_Marshal e = Done b → Entry_Unmarshal b = Done e) →
  total_size entries <= maxSize → maxSize < 2 ^ 64 →
  save s db state entries = (Ok tt, db') →
  Entries s db' i0 (i0 + Z.of_nat (length entries)) maxSize = (entries, None).
Proof.
  intros Hpos Hwf Hrf Hne Hc H0 Hn Hcodec Hsize Hmax Hsave.
  destruct (saved_stored db state entries db' i0 Hwf Hrf Hne Hc H0 ltac:(lia) Hsave)
    as (Hwf' & Hrf' & Hin & _).
  unfold Entries.
  destruct (NewIterator db' _) as [items e] eqn:Hit.
  destruct (range_iterator s db' i0 (i0 + Z.of_nat (length entries)) items e
              Hwf' Hrf' ltac:(lia) ltac:(lia) Hit)
    as (-> & idxs & Hsorted & Hmem & Hvals).
  assert (idxs = seqZ i0 (Z.of_nat (length entries))) as ->.
  { apply sorted_lt_unique; [assumption|apply StronglySorted_seqZ|].
    intros i. rewrite Hmem, elem_of_seqZ. split; [tauto|]. intros Hi. split; [assumption|].
    destruct (lookup_lt_is_Some_2 entries (Z.to_nat (i - i0))) as [en Hen]; [lia|].
    destruct (Hin _ en Hen) as (b & _ & Hb).
    replace (i0 + Z.of_nat (Z.to_nat (i - i0))) with i in Hb by lia.
    rewrite Hb. eauto. }
  rewrite (Entries_loop_accumulate Hpos items entries maxSize).
  - now rewrite accumulate_all.
  - apply Forall2_same_length_lookup_2.
    + apply Forall2_length in Hvals. rewrite <- Hvals, length_seqZ. lia.
    + intros k [key v] en Hk Hen.
      pose proof (lookup_lt_Some _ _ _ Hen) as Hlt.
      pose proof (Forall2_lookup_lr _ _ _ k (i0 + Z.of_nat k) (key, v) Hvals) as Hst.
      rewrite lookup_seqZ_lt in Hst by lia. specialize (Hst eq_refl Hk). cbn [snd] in Hst.
      destruct (Hin _ en Hen) as (b & Hb & Hb'). rewrite Hst in Hb'. injection Hb' as ->.
      cbn [snd]. apply (Hcodec en b); [|assumption]. eapply list_elem_of_lookup_2; eassumption.
  - lia.
Qed.

(** X19.  What was saved is what is read: after a consecutive batch was saved,
    [Entries] over its indices returns the batch, if the size limit admits
    it and the codec decodes what it encoded, and [Term] of each index is
    the term of its entry. *)
Theorem save_Entries_roundtrip db state entries db' i0 maxSize :
  (∀ e, 0 < Entry_Size e) →
  entries_wf s db → readFault db = None →
  entries ≠ [] → consecutive i0 entries →
  0 <= i0 → i0 + Z.of_nat (length entries) < 2 ^ 64 →
  (∀ e b, e ∈ entries → Entry_Marshal e = Done b → Entry_Unmarshal b = Done e) →
  total_size entries <= maxSize → maxSize < 2 ^ 64 →
  save s db state entries = (Ok tt, db') →
  Entries s db' i0 (i0 + Z.of_nat (length entries)) maxSize = (entries, None)
  ∧ ∀ k e, entries !! k = Some e → raftStorage_Term s db' (i0 + Z.of_nat k) = Ok (Term e).
Proof.
  intros Hpos Hwf Hrf Hne Hc H0 Hn Hcodec Hsize Hmax Hsave.
  split; [now apply (saved_Entries db state entries db' i0 maxSize)|].
  destruct (saved_stored db state entries db' i0 Hwf Hrf Hne Hc H0 ltac:(lia) Hsave)
    as (Hwf' & Hrf' & Hin & _).
  intros k e Hk. pose proof (lookup_lt_Some _ _ _ Hk) as Hlt.
  destruct (Hin k e Hk) as (b & Hb & Hst).
  unfold raftStorage_Term, wrap64. rewrite Z.mod_small by lia.
  rewrite Entries_one by (try assumption; lia).
  rewrite Hst, (Hcodec e b); [reflexivity| |assumption].
  eapply list_elem_of_lookup_2; eassumption.
Qed.

Lemma fold_left_snoc {A B} (f : A → B) (l : list A) (acc : list B) :
  fold_left (λ ret x, ret ++ [f x]) l acc = acc ++ map f l.
Proof.
  revert acc. induction l as [|x l IH]; intros acc; cbn; [now rewrite app_nil_r|].
  now rewrite IH, <- app_assoc.
Qed.

(** X20.  [GetCommitted] hands out the data of the entries that were saved, in
    order, each as a plain data entry: [Reconfiguration] is never set,
    whatever the type of the entry. *)
Theorem GetCommitted_saved (l : raftLog) db state entries db' i0 maxSize :
  storage l = s →
  (∀ e, 0 < Entry_Size e) →
  entries_wf s db → readFault db = None →
  entries ≠ [] → consecutive i0 entries →
  0 <= i0 → i0 + Z.of_nat (length entries) < 2 ^ 64 →
  (∀ e b, e ∈ entries → Entry_Marshal e = Done b → Entry_Unmarshal b = Done e) →
  total_size entries <= maxSize → maxSize < 2 ^ 64 →
  save s db state entries = (Ok tt, db') →
  GetCommitted l db' i0 (i0 + Z.of_nat (length entries)) maxSize
  = (map (λ e, {| LogEntry_Data := Data e; Reconfiguration := [] |}) entries, None).
Proof.
  intros Hl Hpos Hwf Hrf Hne Hc H0 Hn Hcodec Hsize Hmax Hsave.
  unfold GetCommitted. rewrite Hl.
  rewrite (saved_Entries db state entries db' i0 maxSize) by assumption.
  now rewrite fold_left_snoc.
Qed.


Lemma puts_written (entries : list Entry) (bs : list (list byte))
    (m : gmap (list byte) (list byte)) (k : list byte) :
  k ∈ (op_key <$> puts s entries bs) →
  is_Some (fold_left apply_op (puts s entries bs) m !! k).
Proof.
  unfold puts. revert bs m. induction entries as [|e entries IH]; intros [|b bs] m Hin;
    cbn in Hin; try now apply elem_of_nil in Hin.
  cbn [zip_with fold_left apply_op].
  destruct (decide (k ∈ (op_key <$> zip_with (λ e b, Put (getEntryKey s (Index e)) b) entries bs)))
    as [Hin'|Hnot]; [now apply IH|].
  apply elem_of_cons in Hin as [->|]; [|contradiction].
  rewrite fold_apply_other; [rewrite lookup_insert_eq; eauto|].
  intros o Ho H. apply Hnot. rewrite <- H. now apply list_elem_of_fmap_2.
Qed.

Lemma commit_Ok db wb :
  writeFault db = None →
  commit db wb = (Ok tt, {| store := fold_left apply_op wb (store db);
                            readFault := readFault db; writeFault := writeFault db |}).
Proof. unfold commit. now destruct (writeFault db). Qed.

Lemma DB_eta (db : DB) :
  {| store := store db; readFault := readFault db; writeFault := writeFault db |} = db.
Proof. now destruct db. Qed.

(** X21.  [save] is idempotent: saving the same hard state and entries again,
    as after a crash between the write and its acknowledgement, leaves the
    store as the first [save] left it. *)
Theorem save_idempotent db state entries db' :
  entries_wf s db → readFault db = None →
  Forall (λ e, 0 <= Index e < MaxUint64) entries →
  save s db state entries = (Ok tt, db') →
  save s db' state entries = (Ok tt, db').
Proof.
  intros Hwf Hrf Hbelow Hsave.
  assert (Forall (λ e, 0 <= Index e < 2 ^ 64) entries) as Htyped.
  { eapply Forall_impl; [exact Hbelow|]. cbn. unfold MaxUint64. intros e He. lia. }
  pose proof (entries_wf_save prefix ic db state entries (Ok tt) db' Htyped Hsave Hwf) as Hwf'.
  destruct (save_Ok_inv s db state entries db' Htyped Hsave)
    as (sb & js & bs & Hsb & Hbs & Hwfault & Hdb' & Hjs).
  assert (readFault db' = None) as Hrf' by (rewrite Hdb'; exact Hrf).
  assert (writeFault db' = None) as Hwfault' by (rewrite Hdb'; exact Hwfault).
  assert (store db' !! hardStateKey s = Some sb) as HHS
    by (rewrite Hdb'; apply batch_keeps_hardState).
  destruct entries as [|e0 tl] eqn:Hentries.
  - pose proof (save_cases s db' state [] Htyped ltac:(congruence)) as Hc.
    rewrite Hsb in Hc. rewrite Hc, commit_Ok by assumption. f_equal.
    cbn [fold_left apply_op]. rewrite insert_id by assumption. apply DB_eta.
  - rewrite <- Hentries in *.
    destruct Hjs as (last1 & HLI & Hmax1 & Hgap1 & ->).
    destruct (LastIndex_spec s db Hwf Hrf) as (n1 & HLI1 & Hn1 & Hgreatest1 & _).
    rewrite HLI in HLI1. injection HLI1 as <-.
    destruct (LastIndex_spec s db' Hwf' Hrf') as (last2 & HLI2 & Hn2 & Hgreatest2 & Hthere2).
    set (P := puts s entries bs) in *.
    set (i0 := Index e0) in *.
    assert (0 <= i0 < MaxUint64) as Hi0.
    { rewrite Hentries in Hbelow. now apply Forall_cons in Hbelow as [? _]. }
    assert (∀ o, o ∈ P → ∃ e, 0 <= Index e < MaxUint64 ∧ op_key o = getEntryKey s (Index e))
      as HPkeys.
    { intros o Ho. apply puts_keys in Ho as (e & He & Hk). exists e. split; [|assumption].
      rewrite Forall_forall in Hbelow. now apply Hbelow. }
    (* the store after the first save, key by key *)
    assert (∀ k, k ∉ (op_key <$> P) →
              store db' !! k
              = fold_left apply_op
                  ((λ i, Delete (getEntryKey s i)) <$> seqZ i0 (last1 - i0 + 1))
                  (<[hardStateKey s := sb]> (store db)) !! k) as Hrest.
    { intros k Hk. rewrite Hdb'. cbn [store]. rewrite app_assoc, fold_left_app.
      rewrite fold_apply_other.
      - rewrite fold_left_app. reflexivity.
      - intros o Ho H. apply Hk. rewrite <- H. now apply list_elem_of_fmap_2. }
    assert (stored s db' MaxUint64 = None) as HnoMax.
    { unfold stored. rewrite Hrest.
      - rewrite fold_apply_other.
        + rewrite lookup_insert_ne by apply hardStateKey_not_entry.
          destruct (store db !! getEntryKey s MaxUint64) as [v|] eqn:Hv; [|reflexivity].
          specialize (Hgreatest1 MaxUint64 ltac:(unfold MaxUint64; lia)
                        ltac:(unfold stored; rewrite Hv; eauto)). lia.
        + intros o Ho. apply list_elem_of_fmap in Ho as (j & -> & Hj). cbn [op_key].
          apply elem_of_seqZ in Hj. intros H.
          apply getEntryKey_inj in H; unfold MaxUint64 in *; lia.
      - intros Hin. apply list_elem_of_fmap in Hin as (o & Ho & HoP).
        destruct (HPkeys o HoP) as (e & He & Hk). rewrite Hk in Ho.
        apply getEntryKey_inj in Ho; unfold MaxUint64 in *; lia. }
    assert (last2 < MaxUint64) as Hmax2.
    { destruct (Z.eq_dec last2 MaxUint64) as [->|]; [|unfold MaxUint64 in *; lia].
      destruct Hthere2 as [[v Hv]|[H0 _]]; [|unfold MaxUint64 in H0; lia].
      rewrite HnoMax in Hv. discriminate. }
    assert (i0 <= last2) as Hgap2.
    { apply Hgreatest2; [unfold MaxUint64 in Hi0; lia|].
      unfold stored. rewrite Hdb'. cbn [store]. rewrite app_assoc, fold_left_app.
      apply puts_written. fold P.
      assert (P !! 0%nat = Some (Put (getEntryKey s i0) (default [] (bs !! 0%nat)))) as HP0.
      { unfold P. apply puts_lookup. destruct bs as [|b0 bs'].
        - apply marshal_all_length in Hbs. rewrite Hentries in Hbs. discriminate.
        - exists e0, b0. rewrite Hentries. repeat split. }
      apply list_elem_of_fmap. eexists. split; [|eapply list_elem_of_lookup_2; exact HP0].
      reflexivity. }
    pose proof (save_cases s db' state entries Htyped) as Hc.
    specialize (Hc ltac:(intros li _ Hli; rewrite HLI2 in Hli; now injection Hli as <-)).
    rewrite Hsb, Hentries in Hc. rewrite <- Hentries in Hc. rewrite HLI2 in Hc.
    fold i0 in Hc. destruct (Z.ltb_spec (last2 + 1) i0) as [|_]; [lia|].
    rewrite Hbs in Hc. rewrite Hc, commit_Ok by assumption. f_equal.
    etransitivity; [|apply DB_eta]. f_equal.
    apply map_eq. intros k. unfold batch. fold P.
    rewrite app_assoc, fold_left_app.
    destruct (decide (k ∈ (op_key <$> P))) as [HkP|HkP].
    { rewrite Hdb' at 2. cbn [store].
      rewrite (app_assoc _ _ P), (fold_left_app apply_op (_ ++ _) P).
      now apply fold_apply_written. }
    rewrite fold_apply_other
      by (intros o Ho H; apply HkP; rewrite <- H; now apply list_elem_of_fmap_2).
    rewrite fold_left_app. cbn [fold_left apply_op].
    destruct (decide (k ∈ (getEntryKey s <$> seqZ i0 (last2 - i0 + 1)))) as [HkD|HkD].
    + rewrite fold_delete_keys by assumption. symmetry.
      apply list_elem_of_fmap in HkD as (j & -> & Hj). apply elem_of_seqZ in Hj.
      rewrite Hrest by assumption.
      destruct (Z_le_gt_dec j last1) as [Hle|Hgt].
      * apply fold_delete_keys, list_elem_of_fmap_2, elem_of_seqZ. lia.
      * rewrite fold_apply_other.
        -- rewrite lookup_insert_ne by apply hardStateKey_not_entry.
           destruct (store db !! getEntryKey s j) as [v|] eqn:Hv; [|reflexivity].
           specialize (Hgreatest1 j ltac:(lia) ltac:(unfold stored; rewrite Hv; eauto)). lia.
        -- intros o Ho. apply list_elem_of_fmap in Ho as (j' & -> & Hj'). cbn [op_key].
           apply elem_of_seqZ in Hj'. intros H. apply getEntryKey_inj in H; lia.
    + rewrite fold_apply_other.
      * destruct (decide (k = hardStateKey s)) as [->|Hne].
        -- now rewrite lookup_insert_eq, HHS.
        -- now rewrite lookup_insert_ne by congruence.
      * intros o Ho H. apply HkD. rewrite <- H.
        apply list_elem_of_fmap in Ho as (j & -> & Hj). cbn [op_key].
        now apply list_elem_of_fmap_2.
Qed.

(** *** Keys outside the prefix *)

Definition under (o : op) : Prop := ∃ r, op_key o = prefix ++ r.

Lemma clear_loop_under fuel ix lastIndex wb wb' :
  clear_loop s fuel ix lastIndex wb = Some wb' → Forall under wb → Forall under wb'.
Proof.
  revert ix wb. induction fuel as [|fuel IH]; intros ix wb; cbn [clear_loop];
    destruct (ix <=? lastIndex); try discriminate; try (now intros [= <-]).
  intros H Hwb. apply (IH _ _ H). apply Forall_app. split; [assumption|].
  repeat constructor. eexists. cbn. unfold getEntryKey. cbn. now rewrite <- app_assoc.
Qed.

Lemma append_loop_under entries wb wb' :
  append_loop s entries wb = Ok wb' → Forall under wb → Forall under wb'.
Proof.
  revert wb. induction entries as [|e entries IH]; intros wb; cbn [append_loop].
  - now intros [= <-].
  - destruct (Entry_Marshal e) as [b|]; cbn; [|discriminate].
    intros H Hwb. apply (IH _ H). apply Forall_app. split; [assumption|].
    repeat constructor. eexists. cbn. unfold getEntryKey. cbn. now rewrite <- app_assoc.
Qed.

Lemma save_under db state entries k :
  (∀ r, k ≠ prefix ++ r) →
  store (snd (save s db state entries)) !! k = store db !! k.
Proof.
  intros Hk. unfold save.
  destruct (HardState_Marshal state) as [sb|]; [|reflexivity].
  assert (Forall under [Put (hardStateKey s) sb]) as Hhs
    by (repeat constructor; eexists; reflexivity).
  match goal with
  | |- context [match ?f with Ok _ => _ | Err e => _ | Panic m => _ | Loops => _ end] =>
      assert (∀ wb, f = Ok wb → Forall under wb) as Hwb; [|destruct f as [wb| | |]]
  end; try reflexivity.
  - destruct entries as [|e0 tl]; [now intros wb [= <-]|].
    intros wb. destruct (LastIndex s db) as [lastIndex| | |]; cbn [go_bind]; try discriminate.
    destruct (_ <? _); [discriminate|].
    destruct (clear_loop _ _ _ _ _) as [wb1|] eqn:Hclear; [|discriminate].
    intros H. apply (append_loop_under _ _ _ H). now apply (clear_loop_under _ _ _ _ _ Hclear).
  - specialize (Hwb wb eq_refl). unfold Write. destruct (writeFault db); [reflexivity|].
    cbn [snd store]. apply fold_apply_other. intros o Ho.
    rewrite Forall_forall in Hwb. destruct (Hwb o Ho) as (r & Hr). rewrite Hr. apply not_eq_sym, Hk.
Qed.

(** X22.  The storage writes only under its prefix: [save] and [Start] leave
    every key that does not begin with the prefix as it was, so that other
    tables of the same database are not touched. *)
Theorem writes_within_prefix (l : raftLog) db state entries lo k :
  storage l = s → has_prefix prefix k = false →
  store (snd (save s db state entries)) !! k = store db !! k
  ∧ store (snd (Start l db lo)) !! k = store db !! k.
Proof.
  intros Hl Hk.
  assert (∀ r, k ≠ prefix ++ r) as Hk'.
  { intros r ->. rewrite (proj2 (has_prefix_spec prefix (prefix ++ r))) in Hk by eauto.
    discriminate. }
  split; [now apply save_under|].
  unfold Start. cbn [storage set_config]. rewrite Hl.
  destruct (IsInitialized s db) as [[|]| | |]; try reflexivity.
  destruct (negb (lo =? 0)); [reflexivity|].
  destruct (InitialState s db) as [[hs cs]| | |]; try reflexivity.
  pose proof (save_under db hs [zeroEntry] k Hk') as H.
  destruct (save s db hs [zeroEntry]) as [[[]| | |] db1]; exact H.
Qed.

(** X23.  The layout of the store (under the entry prefix there are only entry
    keys) is kept by [save] and by [Start]. *)
Theorem layout_preserved (l : raftLog) db state entries lo :
  storage l = s → entries_wf s db →
  Forall (λ e, 0 <= Index e < 2 ^ 64) entries →
  entries_wf s (snd (save s db state entries))
  ∧ entries_wf s (snd (Start l db lo)).
Proof.
  intros Hl Hwf Htyped. split.
  - eapply (entries_wf_save prefix ic); [exact Htyped|apply surjective_pairing|exact Hwf].
  - unfold Start. cbn [storage set_config]. rewrite Hl.
    destruct (IsInitialized s db) as [[|]| | |]; try exact Hwf.
    destruct (negb (lo =? 0)); [exact Hwf|].
    destruct (InitialState s db) as [[hs cs]| | |]; try exact Hwf.
    assert (entries_wf s (snd (save s db hs [zeroEntry]))) as H.
    { eapply (entries_wf_save prefix ic); [|apply surjective_pairing|exact Hwf].
      repeat constructor; cbn; lia. }
    destruct (save s db hs [zeroEntry]) as [[[]| | |] db1]; exact H.
Qed.

(** *** [Start] *)

(** X24.  [Start] does not look at what [save] returns: when the dummy entry
    cannot be written, [Start] still starts the node and returns nil, and
    the storage stays uninitialized. *)
Theorem Start_ignores_save_error (l : raftLog) db hs cs err :
  storage l = s →
  IsInitialized s db = Ok false →
  InitialState s db = Ok (hs, cs) →
  fst (save s db hs [zeroEntry]) = Err err →
  let cfg := set_Storage (config l) s in
  Start l db 0 = (Ok tt, started (set_config l cfg) (StartNode cfg (initialNodes l)), db)
  ∧ IsInitialized s (snd (Start l db 0)) = Ok false.
Proof.
  intros Hl Hinit HIS Hsave cfg.
  assert (Start l db 0
          = (Ok tt, started (set_config l cfg) (StartNode cfg (initialNodes l)), db)) as H.
  { unfold Start. cbn [storage set_config]. rewrite Hl, Hinit. cbn [negb Z.eqb].
    rewrite HIS. destruct (save s db hs [zeroEntry]) as [r db1] eqn:E. cbn in Hsave. subst r.
    rewrite (save_unchanged _ _ _ _ _ _ E) by discriminate. reflexivity. }
  split; [exact H|]. rewrite H. exact Hinit.
Qed.

(** X25.  Once [Start] has written the dummy entry and the hard state, the
    storage is initialized, and every later [Start], whatever its [lo],
    restarts the node with [Applied = lo] and writes nothing. *)
Theorem Start_then_restart (l : raftLog) db hs cs db1 lo :
  storage l = s → readFault db = None →
  IsInitialized s db = Ok false →
  InitialState s db = Ok (hs, cs) →
  save s db hs [zeroEntry] = (Ok tt, db1) →
  let cfg := set_Storage (config l) s in
  let l1 := started (set_config l cfg) (StartNode cfg (initialNodes l)) in
  Start l db 0 = (Ok tt, l1, db1)
  ∧ IsInitialized s db1 = Ok true
  ∧ Start l1 db1 lo
    = (Ok tt,
       started (set_config l1 (set_Applied cfg lo)) (RestartNode (set_Applied cfg lo)),
       db1).
Proof.
  intros Hl Hrf Hinit HIS Hsave cfg l1.
  assert (IsInitialized s db1 = Ok true) as Hinit1.
  { destruct (save_Ok_inv s db hs [zeroEntry] db1) as (sb & js & bs & _ & _ & _ & -> & _);
      [repeat constructor; cbn; lia|assumption|].
    unfold IsInitialized, Get. cbn [readFault store]. rewrite Hrf.
    now rewrite batch_keeps_hardState. }
  split; [|split; [assumption|]].
  - unfold Start. cbn [storage set_config]. rewrite Hl, Hinit. cbn [negb Z.eqb].
    now rewrite HIS, Hsave.
  - unfold Start, l1. cbn [storage set_config started]. rewrite Hl, Hinit1. reflexivity.
Qed.


(** X26.  The log that a fresh [Start] leaves, whatever entries the store held
    before: the dummy entry at index 0 and nothing above it, so that
    [LastIndex] is 0, one below [FirstIndex], and [Term(0)] is the term 0
    of the dummy entry, if the codec decodes what it encoded. *)
Theorem Start_fresh_log (l : raftLog) db hs cs db1 :
  storage l = s → entries_wf s db → readFault db = None →
  IsInitialized s db = Ok false →
  InitialState s db = Ok (hs, cs) →
  (∀ b, Entry_Marshal zeroEntry = Done b → Entry_Unmarshal b = Done zeroEntry) →
  save s db hs [zeroEntry] = (Ok tt, db1) →
  snd (Start l db 0) = db1
  ∧ (∀ i, 0 < i < 2 ^ 64 → stored s db1 i = None)
  ∧ LastIndex s db1 = Ok 0
  ∧ FirstIndex s db1 = Ok 1
  ∧ raftStorage_Term s db1 0 = Ok 0.
Proof.
  intros Hl Hwf Hrf Hinit HIS Hcodec Hsave.
  assert (consecutive 0 [zeroEntry]) as Hc by reflexivity.
  destruct (saved_stored db hs [zeroEntry] db1 0 Hwf Hrf ltac:(discriminate) Hc
              ltac:(lia) ltac:(cbn; lia) Hsave) as (Hwf1 & Hrf1 & Hin & Hout).
  destruct (Hin 0%nat zeroEntry eq_refl) as (b & Hb & Hst).
  change (0 + Z.of_nat 0) with 0 in Hst.
  split; [|split; [|split; [|split]]].
  - unfold Start. cbn [storage set_config]. rewrite Hl, Hinit. cbn [negb Z.eqb].
    now rewrite HIS, Hsave.
  - intros i Hi. apply Hout. cbn. lia.
  - destruct (LastIndex_spec s db1 Hwf1 Hrf1) as (n & -> & Hn & _ & Hthere). f_equal.
    destruct Hthere as [[v Hv]|[-> _]]; [|reflexivity].
    destruct (Z.eq_dec n 0) as [|Hne]; [assumption|].
    rewrite Hout in Hv by (cbn; lia). discriminate.
  - reflexivity.
  - unfold raftStorage_Term. change (wrap64 (0 + 1)) with (0 + 1).
    rewrite Entries_one by (try assumption; lia).
    now rewrite Hst, (Hcodec b Hb).
Qed.

End Opened.

(** *** [Open] *)

Lemma Open_confState (peers : list Peer) (c : ConfState) :
  fold_left (λ confState node, {| Nodes := Nodes confState ++ [peerID node] |}) peers c
  = {| Nodes := Nodes c ++ (peerID <$> peers) |}.
Proof.
  revert c. induction peers as [|p peers IH]; intros c; cbn [fold_left fmap list_fmap].
  - rewrite app_nil_r. now destruct c.
  - rewrite IH. cbn [Nodes]. now rewrite <- app_assoc.
Qed.

(** X27.  [Open] fails only when the listener cannot be opened.  The replicator
    it returns is not started, and its storage lies under the given prefix
    with the IDs of the initial peers, in their order, as initial
    ConfState.  As long as nothing is stored under the ConfState key, which
    [Start] does not change, that is the ConfState [InitialState] reports,
    if decoding no bytes leaves a ConfState as it is. *)
Theorem Open_initial_conf (prefix : list byte) (config0 : Config) (peers : list Peer)
    (listen : option error) (l : raftLog) (db : DB) (lo : Z) :
  Open prefix config0 peers listen = Ok l →
  readFault db = None →
  store db !! confStateKey (storage l) = None →
  ConfState_Unmarshal {| Nodes := peerID <$> peers |} []
    = Done {| Nodes := peerID <$> peers |} →
  listen = None
  ∧ node l = None ∧ config l = config0 ∧ initialNodes l = peers
  ∧ storage l = openRaftStorage prefix {| Nodes := peerID <$> peers |}
  ∧ (∀ hs cs, InitialState (storage l) db = Ok (hs, cs) → Nodes cs = peerID <$> peers)
  ∧ store (snd (Start l db lo)) !! confStateKey (storage l) = None.
Proof.
  intros HOpen Hrf HCS Hcodec. unfold Open in HOpen.
  destruct listen as [err|]; [discriminate|]. injection HOpen as <-.
  rewrite Open_confState in *. cbn [Nodes zeroConfState app] in *.
  cbn [node config initialNodes storage] in *.
  set (s := openRaftStorage prefix {| Nodes := peerID <$> peers |}) in *.
  repeat split.
  - intros hs cs. unfold InitialState, Get. rewrite Hrf, HCS. cbn [go_bind].
    change (initialConf s) with {| Nodes := peerID <$> peers |}. rewrite Hcodec.
    cbn [lift go_bind].
    destruct (store db !! hardStateKey s) as [hb|].
    + destruct (HardState_Unmarshal hb); [|discriminate]. cbn. now intros [= _ <-].
    + now intros [= _ <-].
  - unfold Start. cbn [storage set_config]. fold s.
    destruct (IsInitialized s db) as [[|]| | |]; try exact HCS.
    destruct (negb (lo =? 0)); [exact HCS|].
    destruct (InitialState s db) as [[hs cs]| | |]; try exact HCS.
    assert (store (snd (save s db hs [zeroEntry])) !! confStateKey s = None) as H.
    { destruct (save s db hs [zeroEntry]) as [r db1] eqn:Hsave.
      destruct (save_result s db hs [zeroEntry] r db1) as [->|(sb & js & bs & _ & Hst & _)];
        [repeat constructor; cbn; lia|exact Hsave|exact HCS|].
      cbn [snd]. rewrite Hst, <- HCS. apply batch_keeps_confState. }
    destruct (save s db hs [zeroEntry]) as [[[]| | |] db1]; exact H.
Qed.

End Storage.
End LogFacts.

(** ** The log facts at work with the small codec *)

Module RaftRuns.
Import Raftlog RaftlogFacts BytesFacts RaftToy LogFacts.

#[local] Existing Instance toy_raftpb.

Lemma save_pair (s : raftStorage) db state entries :
  fst (save s db state entries) = Ok tt →
  save s db state entries = (Ok tt, snd (save s db state entries)).
Proof. intros H. rewrite <- H. apply surjective_pairing. Qed.

Lemma getEntryKey_order_witness :
  0 <= 255 < 2 ^ 64 ∧ 0 <= 256 < 2 ^ 64
  ∧ bytes_leb (getEntryKey s0 255) (getEntryKey s0 256) = true
  ∧ Uint64 (E:=error) (drop (length (entryKeyPrefix s0)) (getEntryKey s0 255)) = Ok 255.
Proof.
  assert (0 <= 255 < 2 ^ 64) as H1 by lia.
  assert (0 <= 256 < 2 ^ 64) as H2 by lia.
  destruct (getEntryKey_order s0 255 256 H1 H2) as (_ & _ & HU & Hle & _).
  split; [exact H1|]. split; [exact H2|]. split; [|exact HU].
  apply Hle. lia.
Defined.

Lemma LastIndex_greatest_witness :
  entries_wf s0 db3 ∧ readFault db3 = None
  ∧ LastIndex s0 db3 = Ok 3
  ∧ ∀ i, 0 <= i < 2 ^ 64 → is_Some (stored s0 db3 i) → i <= 3.
Proof.
  split; [exact db3_wf|]. split; [reflexivity|].
  destruct (LastIndex_greatest s0 db3 db3_wf eq_refl) as (n & HLI & _ & Hg & _ & _).
  rewrite LastIndex_db3 in HLI. injection HLI as <-.
  split; [reflexivity|exact Hg].
Defined.

Lemma Term_of_stored_witness :
  entries_wf s0 db3 ∧ readFault db3 = None ∧ 0 <= 2 < 2 ^ 64
  ∧ raftStorage_Term s0 db3 2 = Ok 1.
Proof.
  assert (0 <= 2 < 2 ^ 64) as H by lia.
  split; [exact db3_wf|]. split; [reflexivity|]. split; [exact H|].
  rewrite (Term_of_stored s0 db3 2 db3_wf eq_refl H). vm_compute. reflexivity.
Defined.

(** A hard state, and the store after it was saved with three entries. *)
Definition hs1 : HardState := {| hsTerm := 2; hsVote := 1; hsCommit := 3 |}.
Definition db3' : DB := snd (save s0 db0 hs1 log3).

Lemma typed_log3 : typed log3.
Proof. repeat constructor; cbn; lia. Qed.

Lemma InitialState_after_save_witness :
  typed log3 ∧ readFault db0 = None
  ∧ InitialState s0 db0 = Ok (zeroHardState, zeroConfState)
  ∧ save s0 db0 hs1 log3 = (Ok tt, db3')
  ∧ IsInitialized s0 db3' = Ok true
  ∧ InitialState s0 db3' = Ok (hs1, zeroConfState).
Proof.
  assert (InitialState s0 db0 = Ok (zeroHardState, zeroConfState)) as H1
    by (vm_compute; reflexivity).
  assert (∀ sb, HardState_Marshal hs1 = Done sb → HardState_Unmarshal sb = Done hs1) as H2
    by (intros sb [= <-]; vm_compute; reflexivity).
  assert (save s0 db0 hs1 log3 = (Ok tt, db3')) as H3
    by (apply save_pair; vm_compute; reflexivity).
  destruct (InitialState_after_save [] zeroConfState db0 hs1 log3 db3'
              zeroHardState zeroConfState typed_log3 eq_refl H1 H2 H3) as (Ha & Hb).
  split; [exact typed_log3|]. split; [reflexivity|]. split; [exact H1|].
  split; [exact H3|]. split; [exact Ha|exact Hb].
Defined.

(** Saving one entry at index 2 over the log 1, 2, 3. *)
Definition cut : list Entry := [entry 2 "z"].
Definition db2 : DB := snd (save s0 db3 zeroHardState cut).

Lemma save_cut : save s0 db3 zeroHardState cut = (Ok tt, db2).
Proof. apply save_pair. vm_compute. reflexivity. Qed.

Lemma save_replaces_suffix_witness :
  entries_wf s0 db3 ∧ readFault db3 = None ∧ cut ≠ [] ∧ consecutive 2 cut
  ∧ save s0 db3 zeroHardState cut = (Ok tt, db2)
  ∧ is_Some (stored s0 db3 3)
  ∧ stored s0 db2 3 = None
  ∧ LastIndex s0 db2 = Ok 2.
Proof.
  assert (cut ≠ []) as H1 by discriminate.
  assert (consecutive 2 cut) as H2 by reflexivity.
  destruct (save_replaces_suffix [] zeroConfState db3 zeroHardState cut db2 2
              db3_wf eq_refl H1 H2 ltac:(lia) ltac:(cbn; lia) save_cut) as (_ & Hout & HLI).
  split; [exact db3_wf|]. split; [reflexivity|]. split; [exact H1|]. split; [exact H2|].
  split; [exact save_cut|]. split; [vm_compute; eauto|]. split; [|exact HLI].
  apply Hout. cbn. lia.
Defined.

Lemma tail_codec :
  ∀ e b, e ∈ tail → Entry_Marshal e = Done b → Entry_Unmarshal b = Done e.
Proof.
  intros e b He. unfold tail in He.
  apply elem_of_cons in He as [->|He]; [|apply list_elem_of_singleton in He as ->];
    intros [= <-]; vm_compute; reflexivity.
Qed.

Definition db4 : DB := snd (save s0 db3 zeroHardState tail).

Lemma save_tail : save s0 db3 zeroHardState tail = (Ok tt, db4).
Proof. apply save_pair. vm_compute. reflexivity. Qed.

Lemma save_Entries_roundtrip_witness :
  entries_wf s0 db3 ∧ readFault db3 = None ∧ tail ≠ [] ∧ consecutive 3 tail
  ∧ total_size tail <= 4096
  ∧ save s0 db3 zeroHardState tail = (Ok tt, db4)
  ∧ Entries s0 db4 3 5 4096 = (tail, None)
  ∧ raftStorage_Term s0 db4 4 = Ok 1.
Proof.
  assert (tail ≠ []) as H1 by discriminate.
  assert (consecutive 3 tail) as H2 by reflexivity.
  assert (total_size tail <= 4096) as H3 by (vm_compute; discriminate).
  destruct (save_Entries_roundtrip [] zeroConfState db3 zeroHardState tail db4 3 4096
              toy_Entry_Size_pos db3_wf eq_refl H1 H2 ltac:(lia) ltac:(cbn; lia)
              tail_codec H3 ltac:(lia) save_tail) as (HE & HT).
  split; [exact db3_wf|]. split; [reflexivity|]. split; [exact H1|]. split; [exact H2|].
  split; [exact H3|]. split; [exact save_tail|]. split; [exact HE|].
  exact (HT 1%nat (entry 4 "y") eq_refl).
Defined.

Lemma GetCommitted_saved_witness :
  storage l0 = s0 ∧ consecutive 3 tail
  ∧ save s0 db3 zeroHardState tail = (Ok tt, db4)
  ∧ GetCommitted l0 db4 3 5 4096
    = ([{| LogEntry_Data := list_byte_of_string "x"; Reconfiguration := [] |};
        {| LogEntry_Data := list_byte_of_string "y"; Reconfiguration := [] |}], None).
Proof.
  assert (tail ≠ []) as H1 by discriminate.
  assert (consecutive 3 tail) as H2 by reflexivity.
  assert (total_size tail <= 4096) as H3 by (vm_compute; discriminate).
  split; [reflexivity|]. split; [exact H2|]. split; [exact save_tail|].
  exact (GetCommitted_saved [] zeroConfState l0 db3 zeroHardState tail db4 3 4096
           eq_refl toy_Entry_Size_pos db3_wf eq_refl H1 H2 ltac:(lia) ltac:(cbn; lia)
           tail_codec H3 ltac:(lia) save_tail).
Defined.

Lemma save_idempotent_witness :
  entries_wf s0 db3 ∧ readFault db3 = None
  ∧ Forall (λ e, 0 <= Index e < MaxUint64) tail
  ∧ save s0 db3 zeroHardState tail = (Ok tt, db4)
  ∧ save s0 db4 zeroHardState tail = (Ok tt, db4).
Proof.
  assert (Forall (λ e, 0 <= Index e < MaxUint64) tail) as H1
    by (repeat constructor; cbn; unfold MaxUint64; lia).
  split; [exact db3_wf|]. split; [reflexivity|]. split; [exact H1|].
  split; [exact save_tail|].
  exact (save_idempotent [] zeroConfState db3 zeroHardState tail db4
           db3_wf eq_refl H1 save_tail).
Defined.

(** A storage under a prefix, in a database that holds another table. *)
Definition sp : raftStorage := openRaftStorage (list_byte_of_string "raft/") zeroConfState.
Definition lp : raftLog :=
  {| config := cfg0; initialNodes := [{| peerID := 1 |}]; storage := sp;
     node := None; serving := false; running := false |}.
Definition alice : list byte := list_byte_of_string "user/alice".
Definition dbu : DB :=
  {| store := {[ alice := list_byte_of_string "profile" ]};
     readFault := None; writeFault := None |}.

Lemma writes_within_prefix_witness :
  storage lp = sp ∧ has_prefix (list_byte_of_string "raft/") alice = false
  ∧ fst (save sp dbu zeroHardState log3) = Ok tt
  ∧ store (snd (save sp dbu zeroHardState log3)) !! alice
    = Some (list_byte_of_string "profile")
  ∧ store (snd (Start lp dbu 0)) !! alice = Some (list_byte_of_string "profile").
Proof.
  assert (has_prefix (list_byte_of_string "raft/") alice = false) as H1 by reflexivity.
  destruct (writes_within_prefix (list_byte_of_string "raft/") zeroConfState lp dbu
              zeroHardState log3 0 alice eq_refl H1) as (Hs & HS).
  split; [reflexivity|]. split; [exact H1|]. split; [vm_compute; reflexivity|].
  split.
  - etransitivity; [exact Hs|]. vm_compute. reflexivity.
  - etransitivity; [exact HS|]. vm_compute. reflexivity.
Defined.

Lemma layout_preserved_witness :
  storage l0 = s0 ∧ entries_wf s0 db3 ∧ typed tail
  ∧ entries_wf s0 db4 ∧ entries_wf s0 (snd (Start l0 db3 0)).
Proof.
  assert (typed tail) as H1 by (repeat constructor; cbn; lia).
  split; [reflexivity|]. split; [exact db3_wf|]. split; [exact H1|].
  exact (layout_preserved [] zeroConfState l0 db3 zeroHardState tail 0 eq_refl db3_wf H1).
Defined.

(** A database that refuses to write. *)
Definition dbro : DB :=
  {| store := ∅; readFault := None; writeFault := Some (ErrIO "read-only file system") |}.

Lemma Start_ignores_save_error_witness :
  storage l0 = s0 ∧ IsInitialized s0 dbro = Ok false
  ∧ InitialState s0 dbro = Ok (zeroHardState, zeroConfState)
  ∧ fst (save s0 dbro zeroHardState [zeroEntry]) = Err (ErrIO "read-only file system")
  ∧ fst (fst (Start l0 dbro 0)) = Ok tt
  ∧ snd (Start l0 dbro 0) = dbro.
Proof.
  assert (IsInitialized s0 dbro = Ok false) as H1 by (vm_compute; reflexivity).
  assert (InitialState s0 dbro = Ok (zeroHardState, zeroConfState)) as H2
    by (vm_compute; reflexivity).
  assert (fst (save s0 dbro zeroHardState [zeroEntry]) = Err (ErrIO "read-only file system"))
    as H3 by (vm_compute; reflexivity).
  destruct (Start_ignores_save_error [] zeroConfState l0 dbro zeroHardState zeroConfState
              (ErrIO "read-only file system") eq_refl H1 H2 H3) as (HS & _).
  split; [reflexivity|]. split; [exact H1|]. split; [exact H2|]. split; [exact H3|].
  rewrite HS. split; reflexivity.
Defined.

Definition dbs : DB := snd (save s0 db0 zeroHardState [zeroEntry]).

Lemma Start_then_restart_witness :
  storage l0 = s0 ∧ readFault db0 = None ∧ IsInitialized s0 db0 = Ok false
  ∧ InitialState s0 db0 = Ok (zeroHardState, zeroConfState)
  ∧ save s0 db0 zeroHardState [zeroEntry] = (Ok tt, dbs)
  ∧ snd (Start l0 db0 0) = dbs
  ∧ IsInitialized s0 dbs = Ok true
  ∧ ∃ l2, Start (snd (fst (Start l0 db0 0))) dbs 7 = (Ok tt, l2, dbs)
          ∧ Applied (config l2) = 7
          ∧ node l2 = Some (RestartNode (config l2)).
Proof.
  assert (IsInitialized s0 db0 = Ok false) as H1 by (vm_compute; reflexivity).
  assert (InitialState s0 db0 = Ok (zeroHardState, zeroConfState)) as H2
    by (vm_compute; reflexivity).
  assert (save s0 db0 zeroHardState [zeroEntry] = (Ok tt, dbs)) as H3
    by (apply save_pair; vm_compute; reflexivity).
  destruct (Start_then_restart [] zeroConfState l0 db0 zeroHardState zeroConfState dbs 7
              eq_refl eq_refl H1 H2 H3) as (HS & HI & HR).
  split; [reflexivity|]. split; [reflexivity|]. split; [exact H1|]. split; [exact H2|].
  split; [exact H3|]. rewrite HS. split; [reflexivity|]. split; [exact HI|].
  cbn [fst snd]. eexists. split; [exact HR|]. split; reflexivity.
Defined.

(** A store with a stale log and no hard state. *)
Definition dbstale : DB :=
  {| store := {[ getEntryKey s0 5 := list_byte_of_string "stale" ]};
     readFault := None; writeFault := None |}.
Definition dbfresh : DB := snd (save s0 dbstale zeroHardState [zeroEntry]).

Lemma dbstale_wf : entries_wf s0 dbstale.
Proof.
  intros k [v Hv] _. exists 5. split; [lia|].
  unfold dbstale in Hv. cbn [store] in Hv.
  apply lookup_singleton_Some in Hv as [<- _]. reflexivity.
Qed.

Lemma Start_fresh_log_witness :
  storage l0 = s0 ∧ entries_wf s0 dbstale ∧ readFault dbstale = None
  ∧ IsInitialized s0 dbstale = Ok false
  ∧ InitialState s0 dbstale = Ok (zeroHardState, zeroConfState)
  ∧ save s0 dbstale zeroHardState [zeroEntry] = (Ok tt, dbfresh)
  ∧ is_Some (stored s0 dbstale 5)
  ∧ stored s0 dbfresh 5 = None
  ∧ LastIndex s0 dbfresh = Ok 0
  ∧ raftStorage_Term s0 dbfresh 0 = Ok 0.
Proof.
  assert (IsInitialized s0 dbstale = Ok false) as H1 by (vm_compute; reflexivity).
  assert (InitialState s0 dbstale = Ok (zeroHardState, zeroConfState)) as H2
    by (vm_compute; reflexivity).
  assert (∀ b, Entry_Marshal zeroEntry = Done b → Entry_Unmarshal b = Done zeroEntry) as H3
    by (intros b [= <-]; vm_compute; reflexivity).
  assert (save s0 dbstale zeroHardState [zeroEntry] = (Ok tt, dbfresh)) as H4
    by (apply save_pair; vm_compute; reflexivity).
  destruct (Start_fresh_log [] zeroConfState l0 dbstale zeroHardState zeroConfState dbfresh
              eq_refl dbstale_wf eq_refl H1 H2 H3 H4) as (_ & Hnone & HLI & _ & HT).
  split; [reflexivity|]. split; [exact dbstale_wf|]. split; [reflexivity|].
  split; [exact H1|]. split; [exact H2|]. split; [exact H4|].
  split; [vm_compute; eauto|]. split; [apply Hnone; lia|]. split; [exact HLI|exact HT].
Defined.

(** A replicator opened for two peers, over the store [db3]. *)
Definition peers2 : list Peer := [{| peerID := 1 |}; {| peerID := 2 |}].
Definition l2 : raftLog :=
  {| config := cfg0; initialNodes := peers2;
     storage := openRaftStorage [] {| Nodes := [1; 2] |};
     node := None; serving := false; running := false |}.

Lemma Open_initial_conf_witness :
  Open [] cfg0 peers2 None = Ok l2
  ∧ readFault db3 = None
  ∧ store db3 !! confStateKey (storage l2) = None
  ∧ (∀ hs cs, InitialState (storage l2) db3 = Ok (hs, cs) → Nodes cs = [1; 2])
  ∧ store (snd (Start l2 db3 9)) !! confStateKey (storage l2) = None.
Proof.
  assert (Open [] cfg0 peers2 None = Ok l2) as H1 by reflexivity.
  assert (store db3 !! confStateKey (storage l2) = None) as H2 by (vm_compute; reflexivity).
  assert (ConfState_Unmarshal {| Nodes := peerID <$> peers2 |} []
          = Done {| Nodes := peerID <$> peers2 |}) as H3 by (vm_compute; reflexivity).
  destruct (Open_initial_conf [] cfg0 peers2 None l2 db3 9 H1 eq_refl H2 H3)
    as (_ & _ & _ & _ & _ & Hcs & HS).
  split; [exact H1|]. split; [reflexivity|]. split; [exact H2|].
  split; [exact Hcs|exact HS].
Defined.

End RaftRuns.

(** ** The wrapper's encoding *)

Module WrapperFacts.
Import Proto ProtoFacts.

Section PreserveEncoding.
Context {G : Generated}.

(** X28.  [MarshalTo] never fails and never writes past the buffer: it copies as
    many bytes of the preserved encoding as the buffer holds, reports that
    number, and leaves the rest of the buffer alone; a buffer shorter than
    [Size()] receives a truncated encoding. *)
Theorem MarshalTo_bounds (m : SignedEntryUpdate_PreserveEncoding) (data : list byte) :
  ∃ data' n,
    MarshalTo m data = (data', n, None)
    ∧ n = Nat.min (length data) (Size m)
    ∧ length data' = length data
    ∧ take n data' = take n (PreservedEncoding m)
    ∧ drop n data' = drop n data.
Proof.
  unfold MarshalTo, copy, Size. eexists _, _. split; [reflexivity|].
  set (n := Nat.min (length data) (length (PreservedEncoding m))).
  assert (length (take n (PreservedEncoding m)) = n) as Hn by (rewrite length_take; lia).
  split; [reflexivity|]. split; [|split].
  - rewrite length_app, Hn, length_drop. lia.
  - now rewrite take_app_length' by (symmetry; exact Hn).
  - now rewrite drop_app_length' by (symmetry; exact Hn).
Qed.

Section Populated.
Variable randyClient : Type.
Variable NewPopulatedSignedEntryUpdate : randyClient → bool → SignedEntryUpdate.

(** X29.  [Marshal] gives what [UpdateEncoding] last stored: after
    [UpdateEncoding] it is the encoding that the generated [Marshal] made
    of the message, as it is for a populated wrapper; after [Reset] it is
    empty. *)
Theorem Marshal_after_UpdateEncoding (m : SignedEntryUpdate_PreserveEncoding)
    (r : randyClient) (easy : bool) :
  Marshal (fst (UpdateEncoding m)) = Ok (fst (SignedEntryUpdate_Marshal (decoded m)))
  ∧ decoded (fst (UpdateEncoding m)) = decoded m
  ∧ snd (UpdateEncoding m) = snd (SignedEntryUpdate_Marshal (decoded m))
  ∧ (let p := NewPopulatedSignedEntryUpdate_PreserveEncoding
                randyClient NewPopulatedSignedEntryUpdate r easy in
     decoded p = NewPopulatedSignedEntryUpdate r easy
     ∧ Marshal p = Ok (fst (SignedEntryUpdate_Marshal (decoded p))))
  ∧ Marshal (Reset m) = Ok []
  ∧ Size (Reset m) = 0%nat.
Proof.
  assert (∀ m, PreservedEncoding (fst (UpdateEncoding m))
               = fst (SignedEntryUpdate_Marshal (decoded m))
               ∧ decoded (fst (UpdateEncoding m)) = decoded m
               ∧ snd (UpdateEncoding m) = snd (SignedEntryUpdate_Marshal (decoded m))) as HU.
  { intros m'. unfold UpdateEncoding.
    destruct (SignedEntryUpdate_Marshal (decoded m')) as [data err]. repeat split. }
  destruct (HU m) as (Hp & Hd & He).
  destruct (HU {| decoded := NewPopulatedSignedEntryUpdate r easy; PreservedEncoding := [] |})
    as (Hp' & Hd' & _).
  cbn [decoded] in Hp', Hd'.
  unfold NewPopulatedSignedEntryUpdate_PreserveEncoding. cbv zeta.
  rewrite !Marshal_preserved, Hp, Hp', Hd'. repeat split; assumption.
Qed.

End Populated.
End PreserveEncoding.
End WrapperFacts.
